(** * Ordering engine of the note tree: move, normalize, delete, create

    A shallow embedding of the stored procedures of
    [supabase/migrations] ([move_note], [normalize_note_sequences],
    [get_next_sequence], [delete_note_tree]) and of
    [noteOperations.create] of [src/lib/database/notes.ts].  The second half
    adds the earlier versions of [move_note], [normalize_sequences],
    [soft_delete_project] and [restore_project], [noteOperations.loadNotes],
    and from the store the tree built in [switchProject], [addNote] and
    [setCurrentLevel].

    Conventions of the embedding.
    - A table is the list of its rows, in scan order.  [UPDATE ... SET ... WHERE]
      is a map over the rows, [DELETE ... WHERE] a filter, and a [FOR ... IN
      (SELECT ...) LOOP] first evaluates its query and then runs its body on
      each row of the answer.
    - [ORDER BY sequence] names no second key, so rows of equal [sequence]
      come out in an order the text of the procedure does not fix; the
      embedding returns them in scan order (a stable sort).
    - [uuid] values are strings; a nullable column is an [option]; SQL
      [integer] is [Z]: the procedures add or subtract one, and the
      embedding does not bound the values.
    - The declared [UNIQUE (project_id, parent_id, sequence)] is not enforced
      by the embedding: the functions below give the table a run of the
      procedure ends with when every statement is accepted.  The properties
      of uniqueness that are proved are conclusions about that table.
    - [ON DELETE CASCADE] of the foreign keys onto [notes(id)] is part of
      [DELETE FROM notes].
    - A row keeps its place in the scan order when an [UPDATE] writes it.
      PostgreSQL does not promise where the new version of a row is found;
      the place matters for rows of equal [sequence] under [ORDER BY] and for
      the order in which the rows of one statement are checked.
    - [= Ok db'] reads: if the call returns, [db'] is the database it
      leaves.  Section "The constraints of the schema" adds the checks that
      can end a call of the last [move_note] with an error.
    - The notes of the store are trees of ids; an object shared between a
      [Map] and an array is named by its id, and a [Set] of ids is the list
      of its members in insertion order. *)

From Stdlib Require Import String Ascii ZArith Bool Lia List Permutation Sorted.
Import ListNotations.
Local Open Scope Z_scope.

(** ** Data model *)

Definition uuid := string.

Definition uuid_eqb (a b : uuid) : bool := String.eqb a b.

(** [a IS NOT DISTINCT FROM b] on a nullable uuid column. *)
Definition not_distinct (a b : option uuid) : bool :=
  match a, b with
  | None, None => true
  | Some x, Some y => uuid_eqb x y
  | _, _ => false
  end.

(** [a = b] of SQL on nullable uuids: never true when either side is NULL. *)
Definition sql_eq (a b : option uuid) : bool :=
  match a, b with
  | Some x, Some y => uuid_eqb x y
  | _, _ => false
  end.

(** A row of [notes]; the columns the ordering engine reads. *)
Record note_row := mk_note {
  id : uuid;
  n_project_id : uuid;
  n_parent_id : option uuid
}.

(** A row of [note_sequences]. *)
Record seq_row := mk_seq {
  note_id : uuid;
  project_id : uuid;
  parent_id : option uuid;
  sequence : Z
}.

(** A row of [settings] (the projects). *)
Record settings_row := mk_settings {
  s_id : uuid;
  note_count : Z;
  last_modified_at : Z
}.

Record database := mk_db {
  notes : list note_row;
  note_sequences : list seq_row;
  settings : list settings_row
}.

(** ** SQL statements *)

Definition sql_update {A : Type} (where_ : A -> bool) (set_ : A -> A)
    (t : list A) : list A :=
  map (fun r => if where_ r then set_ r else r) t.

Definition sql_delete {A : Type} (where_ : A -> bool) (t : list A) : list A :=
  filter (fun r => negb (where_ r)) t.

Definition set_sequence (s : Z) (r : seq_row) : seq_row :=
  mk_seq (note_id r) (project_id r) (parent_id r) s.

Definition set_parent_sequence (p : option uuid) (s : Z) (r : seq_row) : seq_row :=
  mk_seq (note_id r) (project_id r) p s.

Definition has_note_id (n : uuid) (r : seq_row) : bool := uuid_eqb (note_id r) n.

(** [project_id = proj AND parent_id IS NOT DISTINCT FROM par]: the rows of
    one sibling group. *)
Definition in_group (proj : uuid) (par : option uuid) (r : seq_row) : bool :=
  uuid_eqb (project_id r) proj && not_distinct (parent_id r) par.

Definition group (proj : uuid) (par : option uuid) (t : list seq_row)
  : list seq_row :=
  filter (in_group proj par) t.

(** [COALESCE(MAX(sequence), 0)] over a sibling group. *)
Definition max_sequence (proj : uuid) (par : option uuid) (t : list seq_row) : Z :=
  match map sequence (group proj par t) with
  | [] => 0
  | s :: ss => fold_left Z.max ss s
  end.

(** [ORDER BY sequence]: stable insertion sort on the scan order. *)
Fixpoint insert_by_sequence (r : seq_row) (l : list seq_row) : list seq_row :=
  match l with
  | [] => [r]
  | x :: l' =>
      if sequence r <=? sequence x then r :: l
      else x :: insert_by_sequence r l'
  end.

Fixpoint order_by_sequence (l : list seq_row) : list seq_row :=
  match l with
  | [] => []
  | r :: l' => insert_by_sequence r (order_by_sequence l')
  end.

(** ** get_next_sequence *)

Definition get_next_sequence (p_project_id : uuid) (p_parent_id : option uuid)
    (t : list seq_row) : Z :=
  max_sequence p_project_id p_parent_id t + 1.

(** ** normalize_note_sequences *)

(** The body of the [FOR note_record IN ... LOOP]: one single-row UPDATE per
    selected note, [current_seq] counting up. *)
Fixpoint normalize_loop (ids : list uuid) (current_seq : Z) (t : list seq_row)
  : list seq_row :=
  match ids with
  | [] => t
  | nid :: rest =>
      normalize_loop rest (current_seq + 1)
        (sql_update (has_note_id nid) (set_sequence current_seq) t)
  end.

Definition normalize_note_sequences (target_project_id : uuid)
    (target_parent_id : option uuid) (t : list seq_row) : list seq_row :=
  normalize_loop
    (map note_id
       (order_by_sequence (group target_project_id target_parent_id t)))
    1 t.

(** ** normalize_sequences, for a whole project *)

(** [SELECT note_id, ROW_NUMBER() OVER (ORDER BY sequence) as seq]. *)
Definition row_numbers (l : list seq_row) : list (uuid * Z) :=
  combine (map note_id (order_by_sequence l))
    (map Z.of_nat (seq 1 (length l))).

(** [UPDATE note_sequences SET sequence = new_seq.seq FROM (...) new_seq
    WHERE note_sequences.note_id = new_seq.note_id]. *)
Definition update_from (new_seq : list (uuid * Z)) (t : list seq_row)
  : list seq_row :=
  map
    (fun r =>
       match find (fun p => uuid_eqb (note_id r) (fst p)) new_seq with
       | Some p => set_sequence (snd p) r
       | None => r
       end)
    t.

(** [SELECT DISTINCT parent_id ... WHERE project_id = target_project_id
    AND parent_id IS NOT NULL]. *)
Fixpoint distinct_parents (target_project_id : uuid) (t : list seq_row)
  : list uuid :=
  match t with
  | [] => []
  | r :: t' =>
      let rest := distinct_parents target_project_id t' in
      match parent_id r with
      | Some p =>
          if uuid_eqb (project_id r) target_project_id
             && negb (existsb (uuid_eqb p) rest)
          then p :: rest else rest
      | None => rest
      end
  end.

(** The root level by the same loop as above ([parent_id IS NULL] is the
    group of the parent [None]), then each parent's children by one UPDATE. *)
Definition normalize_sequences (target_project_id : uuid) (t : list seq_row)
  : list seq_row :=
  let t1 :=
    normalize_loop
      (map note_id (order_by_sequence (group target_project_id None t))) 1 t in
  fold_left
    (fun acc par =>
       update_from
         (row_numbers
            (filter
               (fun r => uuid_eqb (project_id r) target_project_id
                         && sql_eq (parent_id r) (Some par))
               acc))
         acc)
    (distinct_parents target_project_id t1) t1.

(** ** move_note *)

Inductive exn :=
| NoteNotFound (p_note_id : uuid).

Inductive result (A : Type) :=
| Ok (a : A)
| Raise (e : exn).
Arguments Ok {A} a.
Arguments Raise {A} e.

Definition v_temp_sequence : Z := 9999999.

(** [GREATEST(1, LEAST(p_new_position, v_max_sequence + 1))]. *)
Definition clamp_position (p_new_position v_max_sequence : Z) : Z :=
  Z.max 1 (Z.min p_new_position (v_max_sequence + 1)).

(** STEP 1: the note goes to the new parent with the temporary sequence. *)
Definition park (p_note_id : uuid) (p_new_parent_id : option uuid)
    (t : list seq_row) : list seq_row :=
  sql_update (has_note_id p_note_id)
    (set_parent_sequence p_new_parent_id v_temp_sequence) t.

(** STEP 3: the sequence updates, by kind of movement. *)
Definition shift (v_project_id : uuid) (v_old_parent_id : option uuid)
    (v_old_sequence : Z) (p_new_parent_id : option uuid) (p_new_position : Z)
    (t : list seq_row) : list seq_row :=
  if not_distinct v_old_parent_id p_new_parent_id then
    if v_old_sequence <? p_new_position then
      sql_update
        (fun r => in_group v_project_id p_new_parent_id r
                  && (v_old_sequence <? sequence r)
                  && (sequence r <=? p_new_position))
        (fun r => set_sequence (sequence r - 1) r) t
    else
      sql_update
        (fun r => in_group v_project_id p_new_parent_id r
                  && (p_new_position <=? sequence r)
                  && (sequence r <? v_old_sequence))
        (fun r => set_sequence (sequence r + 1) r) t
  else
    sql_update
      (fun r => in_group v_project_id p_new_parent_id r
                && (p_new_position <=? sequence r))
      (fun r => set_sequence (sequence r + 1) r)
      (sql_update
         (fun r => in_group v_project_id v_old_parent_id r
                   && (v_old_sequence <? sequence r))
         (fun r => set_sequence (sequence r - 1) r) t).

(** STEP 4: the final sequence. *)
Definition place (p_note_id : uuid) (p_new_position : Z) (t : list seq_row)
  : list seq_row :=
  sql_update (has_note_id p_note_id) (set_sequence p_new_position) t.

(** STEP 1, 3 and 4 on [note_sequences]. *)
Definition park_shift_place (p_note_id : uuid) (v_project_id : uuid)
    (v_old_parent_id : option uuid) (v_old_sequence : Z)
    (p_new_parent_id : option uuid) (p_new_position : Z)
    (t : list seq_row) : list seq_row :=
  place p_note_id p_new_position
    (shift v_project_id v_old_parent_id v_old_sequence
       p_new_parent_id p_new_position
       (park p_note_id p_new_parent_id t)).

(** STEP 5: normalization of the old group and, when the parent changed,
    of the new one. *)
Definition repair (v_project_id : uuid) (v_old_parent_id p_new_parent_id : option uuid)
    (t : list seq_row) : list seq_row :=
  let t' := normalize_note_sequences v_project_id v_old_parent_id t in
  if not_distinct v_old_parent_id p_new_parent_id then t'
  else normalize_note_sequences v_project_id p_new_parent_id t'.

Definition set_note_parent (p : option uuid) (n : note_row) : note_row :=
  mk_note (id n) (n_project_id n) p.

Definition touch (now : Z) (s : settings_row) : settings_row :=
  mk_settings (s_id s) (note_count s) now.

(** [move_note(p_note_id, p_new_parent_id, p_new_position)]; [now] is
    [CURRENT_TIMESTAMP]. *)
Definition move_note (now : Z) (p_note_id : uuid) (p_new_parent_id : option uuid)
    (p_new_position : Z) (db : database) : result database :=
  match find (has_note_id p_note_id) (note_sequences db) with
  | None => Raise (NoteNotFound p_note_id)
  | Some r0 =>
      let v_project_id := project_id r0 in
      let v_old_parent_id := parent_id r0 in
      let v_old_sequence := sequence r0 in
      let v_max_sequence :=
        max_sequence v_project_id p_new_parent_id (note_sequences db) in
      let p_new_position := clamp_position p_new_position v_max_sequence in
      Ok (mk_db
            (sql_update (fun n => uuid_eqb (id n) p_note_id)
               (set_note_parent p_new_parent_id) (notes db))
            (repair v_project_id v_old_parent_id p_new_parent_id
               (park_shift_place p_note_id v_project_id v_old_parent_id
                  v_old_sequence p_new_parent_id p_new_position
                  (note_sequences db)))
            (sql_update (fun s => uuid_eqb (s_id s) v_project_id)
               (touch now) (settings db)))
  end.


(** ** delete_note_tree *)

Definition mem (x : uuid) (l : list uuid) : bool := existsb (uuid_eqb x) l.

(** A nullable foreign key that points at one of the keys [l]. *)
Definition refers_to (l : list uuid) (p : option uuid) : bool :=
  match p with
  | Some x => mem x l
  | None => false
  end.

(** The recursive term of the CTE [descendants]: the rows of [notes] joined
    with the rows found last on [n.parent_id = d.id], under
    [WHERE d.depth < 50].  A CTE row is a note with its depth. *)
Definition recursive_term (ns : list note_row) (working : list (note_row * Z))
  : list (note_row * Z) :=
  flat_map
    (fun d =>
       if snd d <? 50 then
         map (fun n => (n, snd d + 1))
           (filter (fun n => sql_eq (n_parent_id n) (Some (id (fst d)))) ns)
       else [])
    working.

(** Evaluation of [WITH RECURSIVE ... UNION ALL ...]: the working table is
    joined again until it is empty. *)
Fixpoint cte_iterate (fuel : nat) (ns : list note_row)
    (working : list (note_row * Z)) : list (note_row * Z) :=
  match working, fuel with
  | [], _ => []
  | _, O => working
  | _, S k => working ++ cte_iterate k ns (recursive_term ns working)
  end.

(** The rows of [descendants]: the base case is the root note at depth 1.
    The depth guard empties the working table after depth 50, so fifty
    rounds evaluate the query. *)
Definition descendants (ns : list note_row) (root_note_id : uuid)
  : list (note_row * Z) :=
  cte_iterate 50 ns
    (map (fun n => (n, 1)) (filter (fun n => uuid_eqb (id n) root_note_id) ns)).

(** [SELECT array_agg(id) INTO notes_to_delete FROM descendants]. *)
Definition notes_to_delete (ns : list note_row) (root_note_id : uuid) : list uuid :=
  map (fun d => id (fst d)) (descendants ns root_note_id).

(** [ON DELETE CASCADE] of [notes.parent_id]: the rows that refer to a row
    just deleted are deleted, and so on. *)
Fixpoint cascade (fuel : nat) (gone : list uuid) (ns : list note_row)
  : list note_row :=
  match fuel with
  | O => ns
  | S k =>
      match filter (fun n => refers_to gone (n_parent_id n)) ns with
      | [] => ns
      | victims =>
          cascade k (map id victims)
            (sql_delete (fun n => refers_to gone (n_parent_id n)) ns)
      end
  end.

(** [DELETE FROM notes WHERE ...] on the table [notes]. *)
Definition delete_from_notes (where_ : note_row -> bool) (ns : list note_row)
  : list note_row :=
  cascade (length ns) (map id (filter where_ ns)) (sql_delete where_ ns).

(** The keys of [before] that are no longer keys of [after]. *)
Definition removed_ids (before after : list note_row) : list uuid :=
  filter (fun i => negb (mem i (map id after))) (map id before).

(** [ON DELETE CASCADE] of [note_sequences.note_id] and
    [note_sequences.parent_id]. *)
Definition cascade_sequences (removed : list uuid) (t : list seq_row)
  : list seq_row :=
  sql_delete
    (fun r => mem (note_id r) removed || refers_to removed (parent_id r)) t.

Definition delete_note_tree (now : Z) (root_note_id : uuid) (db : database)
  : result database :=
  let target_project_id :=
    option_map n_project_id
      (find (fun n => uuid_eqb (id n) root_note_id) (notes db)) in
  let to_delete := notes_to_delete (notes db) root_note_id in
  let seqs := sql_delete (fun r => mem (note_id r) to_delete) (note_sequences db) in
  let notes' := delete_from_notes (fun n => mem (id n) to_delete) (notes db) in
  let seqs' := cascade_sequences (removed_ids (notes db) notes') seqs in
  Ok (mk_db notes' seqs'
        (sql_update (fun s => sql_eq (Some (s_id s)) target_project_id)
           (fun s =>
              mk_settings (s_id s)
                (Z.of_nat
                   (length
                      (filter
                         (fun n => sql_eq (Some (n_project_id n)) target_project_id)
                         notes')))
                now)
           (settings db))).

(** ** noteOperations.create *)

(** What the store answers to the requests of one call of [create]: [true]
    is a response with [error] set, and a refused request changes nothing. *)
Record responses := mk_responses {
  note_insert_error : bool;
  sequence_insert_error : bool;
  cleanup_delete_error : bool
}.

(** The errors [create] throws, by the message given to
    [handleDatabaseError]. *)
Inductive failure :=
| FailedToCreateNote
| FailedToCreateNoteSequence.

Inductive outcome :=
| Returned (noteId : uuid)
| Thrown (e : failure).

(** Modelled from the spec: [sequenceOperations.getNextSequence] of
    [./sequences] is not among the sources; section 4.1 gives it as one plus
    the largest sequence of the group, or 1 for an empty group, which is the
    stored procedure [get_next_sequence]. *)
Definition getNextSequence (projectId : uuid) (parentId : option uuid)
    (db : database) : Z :=
  get_next_sequence projectId parentId (note_sequences db).

(** [noteOperations.create]; [noteId] is the value of [crypto.randomUUID()]. *)
Definition create (env : responses) (noteId projectId : uuid)
    (parentId : option uuid) (db : database) : outcome * database :=
  if note_insert_error env then (Thrown FailedToCreateNote, db)
  else
    let db1 :=
      mk_db (notes db ++ [mk_note noteId projectId parentId])
        (note_sequences db) (settings db) in
    let sequence := getNextSequence projectId parentId db1 in
    if sequence_insert_error env then
      let db2 :=
        if cleanup_delete_error env then db1
        else
          let notes' :=
            delete_from_notes (fun n => uuid_eqb (id n) noteId) (notes db1) in
          mk_db notes'
            (cascade_sequences (removed_ids (notes db1) notes')
               (note_sequences db1))
            (settings db1) in
      (Thrown FailedToCreateNoteSequence, db2)
    else
      (Returned noteId,
       mk_db (notes db1)
         (note_sequences db1
            ++ [mk_seq noteId projectId parentId
                  (if sequence =? 0 then 1 else sequence)])
         (settings db1)).

(** * Notions the properties are stated with *)

(** A sibling group is dense when its sequences are exactly 1, ..., N, N its
    size, each once. *)
Definition dense (g : list seq_row) : Prop :=
  NoDup (map sequence g)
  /\ forall z, In z (map sequence g) <-> 1 <= z <= Z.of_nat (length g).

Definition all_dense (t : list seq_row) : Prop :=
  forall proj par, dense (group proj par t).

(** Position of a key in a list of keys, from 0. *)
Fixpoint index_of (n : uuid) (ids : list uuid) : option nat :=
  match ids with
  | [] => None
  | x :: rest =>
      if uuid_eqb x n then Some O else option_map S (index_of n rest)
  end.

(** The row [normalize_loop ids current_seq] leaves in the place of [r]. *)
Definition ranked (ids : list uuid) (current_seq : Z) (r : seq_row) : seq_row :=
  match index_of (note_id r) ids with
  | Some k => set_sequence (current_seq + Z.of_nat k) r
  | None => r
  end.

(** The keys of a sibling group in the order [ORDER BY sequence] gives. *)
Definition ranking (proj : uuid) (par : option uuid) (t : list seq_row)
  : list uuid :=
  map note_id (order_by_sequence (group proj par t)).

(** The sequence recorded for a note, if it has an entry. *)
Definition sequence_of (n : uuid) (t : list seq_row) : option Z :=
  option_map sequence (find (has_note_id n) t).

(** What STEP 1, 3 and 4 of [move_note] make of a row when the parent stays. *)
Definition same_parent_image (n proj : uuid) (par : option uuid)
    (old_sequence position : Z) (r : seq_row) : seq_row :=
  if has_note_id n r then set_parent_sequence par position r
  else if in_group proj par r
          && (old_sequence <? sequence r) && (sequence r <=? position)
       then set_sequence (sequence r - 1) r
  else if in_group proj par r
          && (position <=? sequence r) && (sequence r <? old_sequence)
       then set_sequence (sequence r + 1) r
  else r.

(** What they make of a row when the parent changes. *)
Definition other_parent_image (n proj : uuid) (old_parent : option uuid)
    (old_sequence : Z) (new_parent : option uuid) (position : Z)
    (r : seq_row) : seq_row :=
  if has_note_id n r then set_parent_sequence new_parent position r
  else if in_group proj old_parent r && (old_sequence <? sequence r)
       then set_sequence (sequence r - 1) r
  else if in_group proj new_parent r && (position <=? sequence r)
       then set_sequence (sequence r + 1) r
  else r.

(** [row_at_depth ns root d r]: the row [r] of [notes] is [d - 1] parent
    links below the note [root]. *)
Inductive row_at_depth (ns : list note_row) (root : uuid)
  : nat -> note_row -> Prop :=
| depth_root r :
    In r ns -> id r = root -> row_at_depth ns root 1 r
| depth_child d p c :
    row_at_depth ns root d p -> In c ns -> n_parent_id c = Some (id p) ->
    row_at_depth ns root (S d) c.

(** The order [ORDER BY sequence] asks for. *)
Definition by_sequence (a b : seq_row) : Prop := sequence a <= sequence b.

(** The list [a, a + 1, ..., a + n - 1]. *)
Definition iota (a : Z) (n : nat) : list Z :=
  map (fun k => a + Z.of_nat k) (seq 0 n).

(** [same_parent_image] on the sequences of the note's own group. *)
Definition same_parent_sequence (old_sequence q s : Z) : Z :=
  if s =? old_sequence then q
  else if (old_sequence <? s) && (s <=? q) then s - 1
  else if (q <=? s) && (s <? old_sequence) then s + 1
  else s.

(** The columns of an entry other than its sequence. *)
Definition entry_key (r : seq_row) : uuid * uuid * option uuid :=
  (note_id r, project_id r, parent_id r).

(** Decision procedures for the hypotheses on concrete tables. *)
Fixpoint distinctb {A : Type} (eqb : A -> A -> bool) (l : list A) : bool :=
  match l with
  | [] => true
  | x :: l' => negb (existsb (eqb x) l') && distinctb eqb l'
  end.

Definition unique_ids_check (t : list seq_row) : bool :=
  distinctb uuid_eqb (map note_id t).

Definition dense_check (g : list seq_row) : bool :=
  distinctb Z.eqb (map sequence g)
  && forallb (fun r => (1 <=? sequence r) && (sequence r <=? Z.of_nat (length g))) g.

Definition all_dense_check (t : list seq_row) : bool :=
  forallb (fun r => dense_check (group (project_id r) (parent_id r) t)) t.

(** * Other procedures of the migrations and of the client *)

(** ** Earlier versions of move_note *)

(** The statements the two versions without a temporary sequence share: the
    neighbours are shifted while the note is still at its old place, then the
    note's own row is written. *)
Definition shift_then_move (p_note_id v_project_id : uuid)
    (v_old_parent_id : option uuid) (v_old_sequence : Z)
    (p_new_parent_id : option uuid) (p_new_position : Z)
    (t : list seq_row) : list seq_row :=
  if not_distinct v_old_parent_id p_new_parent_id then
    sql_update (has_note_id p_note_id) (set_sequence p_new_position)
      (if v_old_sequence <? p_new_position then
         sql_update
           (fun r => in_group v_project_id v_old_parent_id r
                     && (v_old_sequence <? sequence r)
                     && (sequence r <=? p_new_position))
           (fun r => set_sequence (sequence r - 1) r) t
       else
         sql_update
           (fun r => in_group v_project_id v_old_parent_id r
                     && (p_new_position <=? sequence r)
                     && (sequence r <? v_old_sequence))
           (fun r => set_sequence (sequence r + 1) r) t)
  else
    sql_update (has_note_id p_note_id)
      (set_parent_sequence p_new_parent_id p_new_position)
      (sql_update
         (fun r => in_group v_project_id p_new_parent_id r
                   && (p_new_position <=? sequence r))
         (fun r => set_sequence (sequence r + 1) r)
         (sql_update
            (fun r => in_group v_project_id v_old_parent_id r
                      && (v_old_sequence <? sequence r))
            (fun r => set_sequence (sequence r - 1) r) t)).

(** [20250312182340_floating_morning.sql]: no test that the note was found,
    no clamp, no temporary sequence, no normalization.  When the note has no
    row in [note_sequences] the variables are NULL and only the UPDATE of
    [notes] finds a row. *)
Module FloatingMorning.

Definition move_note (now : Z) (p_note_id : uuid)
    (p_new_parent_id : option uuid) (p_new_position : Z) (db : database)
  : result database :=
  let notes' :=
    sql_update (fun n => uuid_eqb (id n) p_note_id)
      (set_note_parent p_new_parent_id) (notes db) in
  match find (has_note_id p_note_id) (note_sequences db) with
  | None => Ok (mk_db notes' (note_sequences db) (settings db))
  | Some r0 =>
      Ok (mk_db notes'
            (shift_then_move p_note_id (project_id r0) (parent_id r0)
               (sequence r0) p_new_parent_id p_new_position
               (note_sequences db))
            (sql_update (fun s => uuid_eqb (s_id s) (project_id r0))
               (touch now) (settings db)))
  end.

End FloatingMorning.

(** The migration "Fix note movement function" at the head of
    [20250312195747_ancient_frog.sql]: the position is clamped from above
    only, and [normalize_sequences] runs when the new group has a sequence
    twice. *)
Module FixNoteMovement.

(** [EXISTS (SELECT 1 ... GROUP BY sequence HAVING COUNT( * ) > 1)]. *)
Definition has_duplicates (proj : uuid) (par : option uuid) (t : list seq_row)
  : bool :=
  negb (distinctb Z.eqb (map sequence (group proj par t))).

Definition move_note (now : Z) (p_note_id : uuid)
    (p_new_parent_id : option uuid) (p_new_position : Z) (db : database)
  : result database :=
  let notes' :=
    sql_update (fun n => uuid_eqb (id n) p_note_id)
      (set_note_parent p_new_parent_id) (notes db) in
  match find (has_note_id p_note_id) (note_sequences db) with
  | None => Ok (mk_db notes' (note_sequences db) (settings db))
  | Some r0 =>
      let v_project_id := project_id r0 in
      let v_max_sequence :=
        max_sequence v_project_id p_new_parent_id (note_sequences db) in
      let p_new_position :=
        if v_max_sequence + 1 <? p_new_position then v_max_sequence + 1
        else p_new_position in
      let t :=
        shift_then_move p_note_id v_project_id (parent_id r0) (sequence r0)
          p_new_parent_id p_new_position (note_sequences db) in
      Ok (mk_db notes'
            (if has_duplicates v_project_id p_new_parent_id t
             then normalize_sequences v_project_id t else t)
            (sql_update (fun s => uuid_eqb (s_id s) v_project_id)
               (touch now) (settings db)))
  end.

End FixNoteMovement.

(** The first "Complete Database Schema" of
    [20250312195747_ancient_frog.sql]: the gap is closed and the space is
    made whatever the parents are; no clamp; [notes] and [settings] are not
    written. *)
Module CompleteSchemaA.

Definition temp_sequence : Z := 999999.

Definition move_note (note_id_param : uuid)
    (new_parent_id_param : option uuid) (new_sequence_param : Z)
    (db : database) : result database :=
  match find (has_note_id note_id_param) (note_sequences db) with
  | None => Raise (NoteNotFound note_id_param)
  | Some r0 =>
      let current_parent_id := parent_id r0 in
      let current_sequence := sequence r0 in
      let project_id_val := project_id r0 in
      let t1 :=
        sql_update (has_note_id note_id_param) (set_sequence temp_sequence)
          (note_sequences db) in
      let t2 :=
        sql_update
          (fun r => in_group project_id_val current_parent_id r
                    && (current_sequence <? sequence r))
          (fun r => set_sequence (sequence r - 1) r) t1 in
      let t3 :=
        sql_update
          (fun r => in_group project_id_val new_parent_id_param r
                    && (new_sequence_param <=? sequence r))
          (fun r => set_sequence (sequence r + 1) r) t2 in
      Ok (mk_db (notes db)
            (sql_update (has_note_id note_id_param)
               (set_parent_sequence new_parent_id_param new_sequence_param) t3)
            (settings db))
  end.

End CompleteSchemaA.

(** The second "Complete Database Schema" of
    [20250312195747_ancient_frog.sql] (the same procedure is in the later
    "Fix sequence conflict" migrations): the last version without its STEP 5
    and without the UPDATE of [settings]; STEP 1 keeps the parent. *)
Module CompleteSchemaB.

Definition move_note (p_note_id : uuid) (p_new_parent_id : option uuid)
    (p_new_position : Z) (db : database) : result database :=
  match find (has_note_id p_note_id) (note_sequences db) with
  | None => Raise (NoteNotFound p_note_id)
  | Some r0 =>
      let v_project_id := project_id r0 in
      let v_old_parent_id := parent_id r0 in
      let v_old_sequence := sequence r0 in
      let v_max_sequence :=
        max_sequence v_project_id p_new_parent_id (note_sequences db) in
      let p_new_position := clamp_position p_new_position v_max_sequence in
      Ok (mk_db
            (sql_update (fun n => uuid_eqb (id n) p_note_id)
               (set_note_parent p_new_parent_id) (notes db))
            (sql_update (has_note_id p_note_id)
               (set_parent_sequence p_new_parent_id p_new_position)
               (shift v_project_id v_old_parent_id v_old_sequence
                  p_new_parent_id p_new_position
                  (sql_update (has_note_id p_note_id)
                     (set_sequence v_temp_sequence) (note_sequences db))))
            (settings db))
  end.

End CompleteSchemaB.

(** ** soft_delete_project and restore_project *)

(** A row of [settings] with the columns these two procedures read and
    write; [uid] below is [auth.uid()] and [now] is [NOW()]. *)
Record project_row := mk_project {
  pr_id : uuid;
  pr_user_id : uuid;
  pr_deleted_at : option Z
}.

Definition soft_delete_project (uid : uuid) (now : Z) (project_id : uuid)
    (t : list project_row) : list project_row :=
  sql_update
    (fun p => uuid_eqb (pr_id p) project_id && uuid_eqb (pr_user_id p) uid
              && match pr_deleted_at p with None => true | Some _ => false end)
    (fun p => mk_project (pr_id p) (pr_user_id p) (Some now)) t.

Definition restore_project (uid : uuid) (project_id : uuid)
    (t : list project_row) : list project_row :=
  sql_update
    (fun p => uuid_eqb (pr_id p) project_id && uuid_eqb (pr_user_id p) uid
              && match pr_deleted_at p with None => false | Some _ => true end)
    (fun p => mk_project (pr_id p) (pr_user_id p) None) t.

(** ** noteOperations.loadNotes and the tree built from its answer *)

(** [orderMap.get(id)] for [orderMap = new Map(sequences.map(s =>
    [s.note_id, s.sequence]))]: of two pairs with one key the later one
    stays. *)
Fixpoint orderMap_get (sequences : list (uuid * Z)) (n : uuid) : option Z :=
  match sequences with
  | [] => None
  | (k, s) :: rest =>
      match orderMap_get rest n with
      | Some s' => Some s'
      | None => if uuid_eqb k n then Some s else None
      end
  end.

(** [orderMap.get(a.id) || 0]. *)
Definition sort_key (sequences : list (uuid * Z)) (n : note_row) : Z :=
  match orderMap_get sequences (id n) with
  | Some s => s
  | None => 0
  end.

(** [notes.sort((a, b) => seqA - seqB)]; the sort of an array is stable. *)
Fixpoint insert_by_key (key : note_row -> Z) (n : note_row)
    (l : list note_row) : list note_row :=
  match l with
  | [] => [n]
  | x :: l' =>
      if key n <=? key x then n :: l else x :: insert_by_key key n l'
  end.

Fixpoint sort_by_key (key : note_row -> Z) (l : list note_row)
  : list note_row :=
  match l with
  | [] => []
  | n :: l' => insert_by_key key n (sort_by_key key l')
  end.

(** The part of [loadNotes] after its two queries: [sequences] and [notes]
    are their answers. *)
Definition loadNotes (sequences : list (uuid * Z)) (notes : list note_row)
  : list note_row :=
  sort_by_key (sort_key sequences) notes.

(** [note.parent_id && noteMap.has(note.parent_id)]: the empty string is
    falsy like [null]. *)
Definition has_loaded_parent (loaded : list note_row) (n : note_row) : bool :=
  match n_parent_id n with
  | Some p => negb (String.eqb p EmptyString) && mem p (map id loaded)
  | None => false
  end.

(** The state of the loop [notes.forEach] in [switchProject] and in the
    store's [loadNotes]: the [children] array of the object [noteMap] holds
    for each id, and [rootNotes].  The objects are shared, so an array is
    named by the id of its owner. *)
Record forest := mk_forest {
  children : uuid -> list uuid;
  rootNotes : list uuid
}.

Definition push_child (parent child : uuid) (kids : uuid -> list uuid)
  : uuid -> list uuid :=
  fun x => if uuid_eqb x parent then kids x ++ [child] else kids x.

Definition place_note (loaded : list note_row) (f : forest) (n : note_row)
  : forest :=
  if has_loaded_parent loaded n then
    match n_parent_id n with
    | Some p => mk_forest (push_child p (id n) (children f)) (rootNotes f)
    | None => f
    end
  else mk_forest (children f) (rootNotes f ++ [id n]).

Definition build_forest (notes : list note_row) : forest :=
  fold_left (place_note notes) notes (mk_forest (fun _ => []) []).

(** The notes the loop pushes on the [children] array of the note [p]. *)
Definition child_of (loaded : list note_row) (p : uuid) (n : note_row) : bool :=
  has_loaded_parent loaded n && sql_eq (n_parent_id n) (Some p).

(** The order the comparator of [loadNotes] asks for. *)
Definition by_key (key : note_row -> Z) (a b : note_row) : Prop :=
  key a <= key b.

(** ** addNote of the store *)

(** A note of the store's tree; of its fields the tree operations read the
    id and the children. *)
#[warnings="-register-all"]
Inductive tree_note :=
| TreeNote (t_id : uuid) (t_children : list tree_note).

Definition t_id (n : tree_note) : uuid :=
  match n with TreeNote i _ => i end.

Definition t_children (n : tree_note) : list tree_note :=
  match n with TreeNote _ cs => cs end.

(** The body of [notes.map] in [updateChildren]: the new note goes to the
    end of the children of a note with the parent's id, and the children of
    such a note are not searched. *)
Fixpoint updateChildren (parentId : uuid) (newNote : tree_note)
    (note : tree_note) : tree_note :=
  match note with
  | TreeNote i cs =>
      if uuid_eqb i parentId then TreeNote i (cs ++ [newNote])
      else TreeNote i (map (updateChildren parentId newNote) cs)
  end.

(** The state update of [addNote] once [create] has returned [noteId];
    [!parentId] holds for [null] and for the empty string. *)
Definition addNote (parentId : option uuid) (noteId : uuid)
    (notes : list tree_note) : list tree_note :=
  let newNote := TreeNote noteId [] in
  match parentId with
  | None => notes ++ [newNote]
  | Some p =>
      if String.eqb p EmptyString then notes ++ [newNote]
      else map (updateChildren p newNote) notes
  end.

(** The notes of a tree, parents before children, and their ids. *)
Fixpoint tree_nodes (n : tree_note) : list tree_note :=
  match n with
  | TreeNote _ cs => n :: flat_map tree_nodes cs
  end.

Definition tree_ids (notes : list tree_note) : list uuid :=
  map t_id (flat_map tree_nodes notes).

(** ** setCurrentLevel of the store *)

(** [traverse(note, currentDepth)] with the variable [depth] it updates. *)
Fixpoint traverse (note : tree_note) (currentDepth depth : Z) : Z :=
  match note with
  | TreeNote _ cs =>
      fold_left (fun d child => traverse child (currentDepth + 1) d) cs
        (Z.max depth currentDepth)
  end.

(** [Math.max(...state.notes.map(...))]; [None] is the [-Infinity] of the
    call without arguments. *)
Definition treeDepth (notes : list tree_note) : option Z :=
  match map (fun note => traverse note 0 0) notes with
  | [] => None
  | d :: ds => Some (fold_left Z.max ds d)
  end.

(** [Math.max(0, Math.min(level, treeDepth))]. *)
Definition newLevel (level : Z) (notes : list tree_note) : Z :=
  match treeDepth notes with
  | Some d => Z.max 0 (Z.min level d)
  | None => 0
  end.

(** A [Set] of ids in insertion order. *)
Definition set_add (x : uuid) (s : list uuid) : list uuid :=
  if mem x s then s else s ++ [x].

Definition set_delete (x : uuid) (s : list uuid) : list uuid :=
  filter (fun y => negb (uuid_eqb y x)) s.

(** The body of [notes.forEach] in [updateExpanded]; [expanded] is
    [newExpandedNotes]. *)
Fixpoint updateExpanded (level : Z) (currentDepth : Z) (note : tree_note)
    (expanded : list uuid) : list uuid :=
  match note with
  | TreeNote _ [] => expanded
  | TreeNote i cs =>
      fold_left
        (fun acc child => updateExpanded level (currentDepth + 1) child acc)
        cs
        (if currentDepth <? level then set_add i expanded
         else set_delete i expanded)
  end.

Record level_state := mk_level_state {
  expandedNotes : list uuid;
  currentLevel : Z;
  canExpandMore : bool;
  canCollapseMore : bool
}.

Definition setCurrentLevel (level : Z) (notes : list tree_note)
    (expanded : list uuid) : level_state :=
  let l := newLevel level notes in
  mk_level_state
    (fold_left (fun acc note => updateExpanded l 0 note acc) notes expanded)
    l
    (match treeDepth notes with Some d => l <? d | None => false end)
    (0 <? l).

(** The notes with children, each with its depth below the root notes, in
    the order [updateExpanded] reaches them. *)
Fixpoint open_levels (currentDepth : Z) (note : tree_note) : list (uuid * Z) :=
  match note with
  | TreeNote _ [] => []
  | TreeNote i cs =>
      (i, currentDepth) :: flat_map (open_levels (currentDepth + 1)) cs
  end.

Definition open_notes (notes : list tree_note) : list (uuid * Z) :=
  flat_map (open_levels 0) notes.

(** * The constraints of the schema *)

(** The procedures above give the database that the statements compute.
    PostgreSQL also checks, while a statement runs, the constraints that
    [note_sequences] and [notes] are declared with, and a statement that
    fails a check ends the call with an error.  [Checked] is the last
    [move_note] with these checks:
    - [UNIQUE (project_id, parent_id, sequence)], checked for each row as it
      is written, against the rows already written and the rows not yet
      reached; a NULL [parent_id] equals nothing, so the root group is never
      refused;
    - [parent_id uuid REFERENCES notes(id)] of both tables, checked at the
      end of a statement for the rows whose [parent_id] it changed;
    - the range of [integer].
    [note_id] and [project_id] are not written, and their constraints are
    left out. *)
Module Checked.

Inductive sqlstate :=
| raise_exception
| unique_violation
| foreign_key_violation
| numeric_value_out_of_range.

Inductive run (A : Type) :=
| Done (a : A)
| Aborted (e : sqlstate).
Arguments Done {A} a.
Arguments Aborted {A} e.

Definition bind {A B : Type} (c : run A) (k : A -> run B) : run B :=
  match c with
  | Done a => k a
  | Aborted e => Aborted e
  end.

Notation "x <- c ;; k" := (bind c (fun x => k))
  (at level 61, c at next level, right associativity).

Definition int4 (z : Z) : bool :=
  (-2147483648 <=? z) && (z <=? 2147483647).

(** The value of an [integer] expression. *)
Definition integer (z : Z) : run Z :=
  if int4 z then Done z else Aborted numeric_value_out_of_range.

(** Two rows that [UNIQUE (project_id, parent_id, sequence)] does not allow
    side by side. *)
Definition same_place (a b : seq_row) : bool :=
  uuid_eqb (project_id a) (project_id b)
  && sql_eq (parent_id a) (parent_id b)
  && (sequence a =? sequence b).

(** One [UPDATE note_sequences], row by row in scan order: [visited] are the
    rows behind, as they are now, [todo] the rows ahead, as they were. *)
Fixpoint update_rows (where_ : seq_row -> bool) (set_ : seq_row -> seq_row)
    (visited todo : list seq_row) : run (list seq_row) :=
  match todo with
  | [] => Done visited
  | r :: rest =>
      if where_ r then
        if negb (int4 (sequence (set_ r))) then
          Aborted numeric_value_out_of_range
        else if existsb (same_place (set_ r)) (visited ++ rest) then
          Aborted unique_violation
        else update_rows where_ set_ (visited ++ [set_ r]) rest
      else update_rows where_ set_ (visited ++ [r]) rest
  end.

Definition update (where_ : seq_row -> bool) (set_ : seq_row -> seq_row)
    (t : list seq_row) : run (list seq_row) :=
  update_rows where_ set_ [] t.

(** The check of [REFERENCES notes(id)] after a statement that gave
    [parent_id] the value [p] in a row where it was another value. *)
Definition references_note (ns : list note_row) (changed : bool)
    (p : option uuid) : run unit :=
  match p with
  | Some x =>
      if changed && negb (mem x (map id ns)) then
        Aborted foreign_key_violation
      else Done tt
  | None => Done tt
  end.

Fixpoint normalize_loop (ids : list uuid) (current_seq : Z)
    (t : list seq_row) : run (list seq_row) :=
  match ids with
  | [] => Done t
  | nid :: rest =>
      t' <- update (has_note_id nid) (set_sequence current_seq) t ;;
      next <- integer (current_seq + 1) ;;
      normalize_loop rest next t'
  end.

Definition normalize_note_sequences (target_project_id : uuid)
    (target_parent_id : option uuid) (t : list seq_row)
  : run (list seq_row) :=
  normalize_loop
    (map note_id
       (order_by_sequence (group target_project_id target_parent_id t)))
    1 t.

Definition shift (v_project_id : uuid) (v_old_parent_id : option uuid)
    (v_old_sequence : Z) (p_new_parent_id : option uuid) (p_new_position : Z)
    (t : list seq_row) : run (list seq_row) :=
  if not_distinct v_old_parent_id p_new_parent_id then
    if v_old_sequence <? p_new_position then
      update
        (fun r => in_group v_project_id p_new_parent_id r
                  && (v_old_sequence <? sequence r)
                  && (sequence r <=? p_new_position))
        (fun r => set_sequence (sequence r - 1) r) t
    else
      update
        (fun r => in_group v_project_id p_new_parent_id r
                  && (p_new_position <=? sequence r)
                  && (sequence r <? v_old_sequence))
        (fun r => set_sequence (sequence r + 1) r) t
  else
    t' <- update
            (fun r => in_group v_project_id v_old_parent_id r
                      && (v_old_sequence <? sequence r))
            (fun r => set_sequence (sequence r - 1) r) t ;;
    update
      (fun r => in_group v_project_id p_new_parent_id r
                && (p_new_position <=? sequence r))
      (fun r => set_sequence (sequence r + 1) r) t'.

(** [move_note] of [20250312200023_violet_hall.sql], statement by
    statement. *)
Definition move_note (now : Z) (p_note_id : uuid)
    (p_new_parent_id : option uuid) (p_new_position : Z) (db : database)
  : run database :=
  _ <- integer p_new_position ;;
  match find (has_note_id p_note_id) (note_sequences db) with
  | None => Aborted raise_exception
  | Some r0 =>
      let v_project_id := project_id r0 in
      let v_old_parent_id := parent_id r0 in
      let v_old_sequence := sequence r0 in
      let v_max_sequence :=
        max_sequence v_project_id p_new_parent_id (note_sequences db) in
      top <- integer (v_max_sequence + 1) ;;
      let p_new_position := Z.max 1 (Z.min p_new_position top) in
      t1 <- update (has_note_id p_note_id)
              (set_parent_sequence p_new_parent_id v_temp_sequence)
              (note_sequences db) ;;
      _ <- references_note (notes db)
             (existsb
                (fun r => has_note_id p_note_id r
                          && negb (not_distinct (parent_id r) p_new_parent_id))
                (note_sequences db))
             p_new_parent_id ;;
      _ <- references_note (notes db)
             (existsb
                (fun x => uuid_eqb (id x) p_note_id
                          && negb (not_distinct (n_parent_id x) p_new_parent_id))
                (notes db))
             p_new_parent_id ;;
      t3 <- shift v_project_id v_old_parent_id v_old_sequence
              p_new_parent_id p_new_position t1 ;;
      t4 <- update (has_note_id p_note_id) (set_sequence p_new_position) t3 ;;
      t5 <- normalize_note_sequences v_project_id v_old_parent_id t4 ;;
      t6 <- (if not_distinct v_old_parent_id p_new_parent_id then Done t5
             else normalize_note_sequences v_project_id p_new_parent_id t5) ;;
      Done (mk_db
              (sql_update (fun n => uuid_eqb (id n) p_note_id)
                 (set_note_parent p_new_parent_id) (notes db))
              t6
              (sql_update (fun s => uuid_eqb (s_id s) v_project_id)
                 (touch now) (settings db)))
  end.

End Checked.

(** * Tables of the scenarios *)

Local Open Scope string_scope.

Definition no_errors : responses := mk_responses false false false.

Definition root_entry (n : string) (s : Z) : seq_row := mk_seq n "p" None s.

Definition child_entry (n parent : string) (s : Z) : seq_row :=
  mk_seq n "p" (Some parent) s.

Definition root_note (n : string) : note_row := mk_note n "p" None.

Definition child_note (n parent : string) : note_row := mk_note n "p" (Some parent).

(** Root group [A:1, B:2, C:3]. *)
Definition three_roots : database :=
  mk_db [root_note "A"; root_note "B"; root_note "C"]
    [root_entry "A" 1; root_entry "B" 2; root_entry "C" 3]
    [mk_settings "p" 3 0].

(** The root group after [B] was deleted: [A:1, C:3]. *)
Definition roots_with_gap : database :=
  mk_db [root_note "A"; root_note "C"]
    [root_entry "A" 1; root_entry "C" 3]
    [mk_settings "p" 2 0].

(** X has the children [P:1, Q:2], Y the child [R:1]. *)
Definition two_families : database :=
  mk_db
    [root_note "X"; root_note "Y"; child_note "P" "X"; child_note "Q" "X";
     child_note "R" "Y"]
    [root_entry "X" 1; root_entry "Y" 2; child_entry "P" "X" 1;
     child_entry "Q" "X" 2; child_entry "R" "Y" 1]
    [mk_settings "p" 5 0].

(** A root note with one child. *)
Definition parent_and_child : database :=
  mk_db [root_note "A"; child_note "B" "A"]
    [root_entry "A" 1; child_entry "B" "A" 1]
    [mk_settings "p" 2 0].

(** A root group with a duplicate: [A:2, B:2, C:1], scanned in this order,
    and the same rows scanned with [B] before [A]. *)
Definition tied_A_first : list seq_row :=
  [root_entry "A" 2; root_entry "B" 2; root_entry "C" 1].

Definition tied_B_first : list seq_row :=
  [root_entry "B" 2; root_entry "A" 2; root_entry "C" 1].

(** A chain of notes, each the only child of the one before: [chain_id 0]
    is the root, [chain_id k] is [k] parent links below it. *)
Fixpoint chain_id (k : nat) : uuid :=
  match k with
  | O => "n"
  | S j => String "x"%char (chain_id j)
  end.

Definition chain_row (k : nat) : note_row :=
  mk_note (chain_id k) "p"
    (match k with O => None | S j => Some (chain_id j) end).

Definition chain_entry (k : nat) : seq_row :=
  mk_seq (chain_id k) "p"
    (match k with O => None | S j => Some (chain_id j) end) 1.

Definition chain (k : nat) : database :=
  mk_db (map chain_row (seq 0 (S k))) (map chain_entry (seq 0 (S k)))
    [mk_settings "p" (Z.of_nat (S k)) 0].

(** The root group [A:1, C:3] with a gap, [C] having the child [D:1]. *)
Definition gap_with_child : database :=
  mk_db [root_note "A"; root_note "C"; child_note "D" "C"]
    [root_entry "A" 1; root_entry "C" 3; child_entry "D" "C" 1]
    [mk_settings "p" 3 0].

(** Two root notes, where the entry of [B] records [A] as parent while the
    row of [B] in [notes] has no parent: what the [move_note] of the first
    complete schema, which writes [note_sequences] only, leaves of
    [move_note(B, A, 1)] on the roots [A:1, B:2]. *)
Definition entry_under_other_parent : database :=
  mk_db [root_note "A"; root_note "B"]
    [root_entry "A" 1; child_entry "B" "A" 1]
    [mk_settings "p" 2 0].

(** The children [P:1, Q:2, R:3] of the root note X, scanned in this
    order. *)
Definition three_children : database :=
  mk_db
    [root_note "X"; child_note "P" "X"; child_note "Q" "X";
     child_note "R" "X"]
    [root_entry "X" 1; child_entry "P" "X" 1; child_entry "Q" "X" 2;
     child_entry "R" "X" 3]
    [mk_settings "p" 4 0].

Local Close Scope string_scope.

(** * Properties *)

(** ** Keys and groups *)

Lemma uuid_eqb_eq (a b : uuid) : uuid_eqb a b = true <-> a = b.
Proof. apply String.eqb_eq. Qed.

Lemma uuid_eqb_refl (a : uuid) : uuid_eqb a a = true.
Proof. apply String.eqb_refl. Qed.

Lemma uuid_eqb_neq (a b : uuid) : uuid_eqb a b = false <-> a <> b.
Proof. apply String.eqb_neq. Qed.

Lemma uuid_eqb_sym (a b : uuid) : uuid_eqb a b = uuid_eqb b a.
Proof. apply String.eqb_sym. Qed.

Lemma not_distinct_eq (a b : option uuid) : not_distinct a b = true <-> a = b.
Proof.
  destruct a as [x|], b as [y|]; simpl; try (split; congruence).
  rewrite uuid_eqb_eq. split; congruence.
Qed.

Lemma not_distinct_refl (a : option uuid) : not_distinct a a = true.
Proof. apply not_distinct_eq. reflexivity. Qed.

Lemma not_distinct_neq (a b : option uuid) : not_distinct a b = false <-> a <> b.
Proof.
  rewrite <- not_distinct_eq. destruct (not_distinct a b); split; congruence.
Qed.

Lemma in_group_spec proj par r :
  in_group proj par r = true <-> project_id r = proj /\ parent_id r = par.
Proof.
  unfold in_group. rewrite andb_true_iff, uuid_eqb_eq, not_distinct_eq. tauto.
Qed.

Lemma in_group_own r : in_group (project_id r) (parent_id r) r = true.
Proof. apply in_group_spec. split; reflexivity. Qed.

Lemma in_group_set_sequence proj par s r :
  in_group proj par (set_sequence s r) = in_group proj par r.
Proof. reflexivity. Qed.

Lemma set_sequence_same r : set_sequence (sequence r) r = r.
Proof. destruct r; reflexivity. Qed.

Lemma mem_In x l : mem x l = true <-> In x l.
Proof.
  unfold mem. rewrite existsb_exists. split.
  - intros [y [Hy E]]. apply uuid_eqb_eq in E. subst. assumption.
  - intros H. exists x. split; [assumption | apply uuid_eqb_refl].
Qed.

Lemma mem_not_In x l : mem x l = false <-> ~ In x l.
Proof.
  rewrite <- mem_In. destruct (mem x l); split; congruence.
Qed.

(** ** Lists: filters, maps and keys without repetition *)

Lemma filter_map_commute {A : Type} (p : A -> bool) (g : A -> A) (l : list A) :
  (forall x, In x l -> p (g x) = p x) ->
  filter p (map g l) = map g (filter p l).
Proof.
  induction l as [|a l IH]; intros H; simpl; [reflexivity|].
  rewrite (H a (or_introl eq_refl)).
  destruct (p a); simpl; rewrite IH; auto; intros x Hx; apply H; right; exact Hx.
Qed.

Lemma filter_map_swap {A : Type} (p q : A -> bool) (g : A -> A) (l : list A) :
  (forall x, In x l -> p (g x) = q x) ->
  filter p (map g l) = map g (filter q l).
Proof.
  induction l as [|a l IH]; intros H; simpl; [reflexivity|].
  rewrite (H a (or_introl eq_refl)).
  destruct (q a); simpl; rewrite IH; auto; intros x Hx; apply H; right; exact Hx.
Qed.

Lemma map_id_on {A : Type} (g : A -> A) (l : list A) :
  (forall x, In x l -> g x = x) -> map g l = l.
Proof.
  induction l as [|a l IH]; intros H; simpl; [reflexivity|].
  rewrite (H a (or_introl eq_refl)), IH; auto.
  intros x Hx. apply H. right. exact Hx.
Qed.

Lemma filter_keeps_distinct {T K : Type} (key : T -> K) (keep : T -> bool)
    (rows : list T) :
  NoDup (map key rows) -> NoDup (map key (filter keep rows)).
Proof.
  induction rows as [|a rows IH]; simpl; intros H; [constructor|].
  inversion H as [|x xs Hnin Hnd]; subst.
  destruct (keep a); simpl; auto.
  constructor; auto.
  intros Hin. apply Hnin. apply in_map_iff in Hin.
  destruct Hin as [y [E Hy]]. apply filter_In in Hy.
  apply in_map_iff. exists y. tauto.
Qed.

Lemma NoDup_map_injective {A B : Type} (f : A -> B) (l : list A) x y :
  NoDup (map f l) -> In x l -> In y l -> f x = f y -> x = y.
Proof.
  induction l as [|a l IH]; simpl; intros H Hx Hy E; [contradiction|].
  inversion H as [|b bs Hnin Hnd]; subst.
  destruct Hx as [Hx|Hx], Hy as [Hy|Hy]; subst; auto.
  - exfalso. apply Hnin. rewrite E. apply in_map. exact Hy.
  - exfalso. apply Hnin. rewrite <- E. apply in_map. exact Hx.
Qed.

Lemma NoDup_map_on {A B : Type} (f : A -> B) (l : list A) :
  NoDup l -> (forall x y, In x l -> In y l -> f x = f y -> x = y) ->
  NoDup (map f l).
Proof.
  induction l as [|a l IH]; simpl; intros H Hinj; [constructor|].
  inversion H as [|b bs Hnin Hnd]; subst.
  constructor.
  - intros Hin. apply in_map_iff in Hin. destruct Hin as [y [E Hy]].
    assert (y = a) by (apply Hinj; auto). subst. contradiction.
  - apply IH; auto.
Qed.

Lemma find_has_note_id n t r :
  find (has_note_id n) t = Some r -> In r t /\ note_id r = n.
Proof.
  intros H. apply find_some in H. destruct H as [Hin E].
  split; [exact Hin | apply uuid_eqb_eq; exact E].
Qed.

Lemma find_has_note_id_none n t :
  find (has_note_id n) t = None -> forall r, In r t -> note_id r <> n.
Proof.
  intros H r Hr E. apply (find_none _ _ H) in Hr.
  unfold has_note_id in Hr. rewrite E, uuid_eqb_refl in Hr. discriminate.
Qed.

Lemma unique_note_row t r r' :
  NoDup (map note_id t) -> In r t -> In r' t -> note_id r = note_id r' -> r = r'.
Proof. apply NoDup_map_injective. Qed.

(** ** ORDER BY sequence *)

Lemma insert_by_sequence_perm r l : Permutation (insert_by_sequence r l) (r :: l).
Proof.
  induction l as [|x l IH]; simpl; [reflexivity|].
  destruct (sequence r <=? sequence x); [reflexivity|].
  rewrite IH. apply perm_swap.
Qed.

Lemma order_by_sequence_perm l : Permutation (order_by_sequence l) l.
Proof.
  induction l as [|r l IH]; simpl; [reflexivity|].
  rewrite insert_by_sequence_perm. constructor. exact IH.
Qed.

Lemma order_by_sequence_In l r : In r (order_by_sequence l) <-> In r l.
Proof.
  split; apply Permutation_in;
    [ | apply Permutation_sym ]; apply order_by_sequence_perm.
Qed.

Lemma order_by_sequence_length l : length (order_by_sequence l) = length l.
Proof. apply Permutation_length, order_by_sequence_perm. Qed.

Lemma insert_by_sequence_sorted r l :
  StronglySorted by_sequence l -> StronglySorted by_sequence (insert_by_sequence r l).
Proof.
  induction l as [|x l IH]; simpl; intros H.
  - constructor; constructor.
  - inversion H as [|y ys Hs Hall]; subst.
    destruct (Z.leb_spec (sequence r) (sequence x)) as [Hle|Hgt].
    + constructor; [exact H|]. constructor; [exact Hle|].
      rewrite Forall_forall in *. intros z Hz. specialize (Hall z Hz).
      unfold by_sequence in *. lia.
    + constructor; [apply IH; exact Hs|].
      rewrite Forall_forall in *. intros z Hz.
      apply (Permutation_in _ (insert_by_sequence_perm r l)) in Hz.
      destruct Hz as [->|Hz]; [unfold by_sequence; lia | apply Hall; exact Hz].
Qed.

Lemma order_by_sequence_sorted l : StronglySorted by_sequence (order_by_sequence l).
Proof.
  induction l as [|r l IH]; simpl; [constructor|].
  apply insert_by_sequence_sorted. exact IH.
Qed.

(** Rows of equal sequence keep the order of the scan. *)
Lemma insert_by_sequence_stable z r l :
  filter (fun x => sequence x =? z) (insert_by_sequence r l)
  = filter (fun x => sequence x =? z) (r :: l).
Proof.
  induction l as [|x l IH]; [reflexivity|].
  simpl insert_by_sequence.
  destruct (Z.leb_spec (sequence r) (sequence x)) as [Hle|Hgt]; [reflexivity|].
  change (filter (fun x0 => sequence x0 =? z) (x :: insert_by_sequence r l))
    with (if sequence x =? z
          then x :: filter (fun x0 => sequence x0 =? z) (insert_by_sequence r l)
          else filter (fun x0 => sequence x0 =? z) (insert_by_sequence r l)).
  rewrite IH. simpl.
  destruct (Z.eqb_spec (sequence x) z), (Z.eqb_spec (sequence r) z);
    try reflexivity; lia.
Qed.

Lemma order_by_sequence_stable z l :
  filter (fun x => sequence x =? z) (order_by_sequence l)
  = filter (fun x => sequence x =? z) l.
Proof.
  induction l as [|r l IH]; [reflexivity|].
  simpl order_by_sequence. rewrite insert_by_sequence_stable.
  simpl. rewrite IH. reflexivity.
Qed.

(** Sorting commutes with a relabelling that keeps every comparison. *)
Lemma insert_by_sequence_map (h : seq_row -> seq_row) r l :
  (forall x, In x l ->
     (sequence (h r) <=? sequence (h x)) = (sequence r <=? sequence x)) ->
  insert_by_sequence (h r) (map h l) = map h (insert_by_sequence r l).
Proof.
  induction l as [|x l IH]; intros H; simpl; [reflexivity|].
  rewrite (H x (or_introl eq_refl)).
  destruct (sequence r <=? sequence x); simpl; [reflexivity|].
  rewrite IH; [reflexivity|]. intros y Hy. apply H. right. exact Hy.
Qed.

Lemma order_by_sequence_map (h : seq_row -> seq_row) l :
  (forall x y, In x l -> In y l ->
     (sequence (h x) <=? sequence (h y)) = (sequence x <=? sequence y)) ->
  order_by_sequence (map h l) = map h (order_by_sequence l).
Proof.
  induction l as [|r l IH]; intros H; simpl; [reflexivity|].
  rewrite IH by (intros x y Hx Hy; apply H; right; assumption).
  apply insert_by_sequence_map.
  intros x Hx. apply H; [left; reflexivity|].
  right. apply order_by_sequence_In. exact Hx.
Qed.

(** ** The loop of normalize_note_sequences *)

Lemma index_of_none n ids : index_of n ids = None <-> ~ In n ids.
Proof.
  induction ids as [|x ids IH]; simpl; [tauto|].
  destruct (uuid_eqb x n) eqn:E.
  - apply uuid_eqb_eq in E. split; [discriminate | intros H; exfalso; auto].
  - apply uuid_eqb_neq in E. destruct (index_of n ids); simpl.
    + split; [discriminate|]. intros H.
      assert (H1 : ~ In n ids) by tauto. apply IH in H1. discriminate.
    + split; [|reflexivity]. intros _ [H|H]; [auto|]. apply IH in H; auto.
Qed.

Lemma ranked_cons_same ids c r : ranked (note_id r :: ids) c r = set_sequence c r.
Proof.
  unfold ranked. simpl. rewrite uuid_eqb_refl. f_equal. lia.
Qed.

Lemma ranked_cons_other a ids c r :
  note_id r <> a -> ranked (a :: ids) c r = ranked ids (c + 1) r.
Proof.
  intros H. unfold ranked. simpl.
  destruct (uuid_eqb a (note_id r)) eqn:E.
  - apply uuid_eqb_eq in E. congruence.
  - destruct (index_of (note_id r) ids); simpl; [|reflexivity].
    f_equal. lia.
Qed.

Lemma ranked_absent ids c r : ~ In (note_id r) ids -> ranked ids c r = r.
Proof.
  intros H. unfold ranked. apply index_of_none in H. rewrite H. reflexivity.
Qed.

Lemma ranked_keeps ids c r :
  note_id (ranked ids c r) = note_id r
  /\ project_id (ranked ids c r) = project_id r
  /\ parent_id (ranked ids c r) = parent_id r.
Proof.
  unfold ranked. destruct (index_of (note_id r) ids); simpl; auto.
Qed.

Lemma in_group_ranked proj par ids c r :
  in_group proj par (ranked ids c r) = in_group proj par r.
Proof.
  unfold in_group. destruct (ranked_keeps ids c r) as [_ [-> ->]]. reflexivity.
Qed.

Lemma ranked_fixed ids c r : sequence (ranked ids c r) = sequence r -> ranked ids c r = r.
Proof.
  unfold ranked. destruct (index_of (note_id r) ids); simpl; [|reflexivity].
  intros ->. apply set_sequence_same.
Qed.

Lemma normalize_loop_ranked ids c t :
  NoDup ids -> normalize_loop ids c t = map (ranked ids c) t.
Proof.
  revert c t. induction ids as [|a ids IH]; intros c t H; simpl.
  - symmetry. apply map_id_on. intros r _. reflexivity.
  - inversion H as [|x xs Hnin Hnd]; subst.
    rewrite IH by exact Hnd. unfold sql_update. rewrite map_map.
    apply map_ext. intros r. unfold has_note_id.
    destruct (uuid_eqb (note_id r) a) eqn:E.
    + apply uuid_eqb_eq in E. subst a.
      rewrite ranked_cons_same. apply ranked_absent. exact Hnin.
    + apply uuid_eqb_neq in E. rewrite ranked_cons_other by exact E. reflexivity.
Qed.

Lemma ranking_NoDup proj par t : NoDup (map note_id t) -> NoDup (ranking proj par t).
Proof.
  intros H. unfold ranking.
  apply (Permutation_NoDup
           (l := map note_id (group proj par t))).
  - apply Permutation_map, Permutation_sym, order_by_sequence_perm.
  - apply filter_keeps_distinct. exact H.
Qed.

Lemma normalize_ranked proj par t :
  NoDup (map note_id t) ->
  normalize_note_sequences proj par t = map (ranked (ranking proj par t) 1) t.
Proof.
  intros H. unfold normalize_note_sequences.
  apply normalize_loop_ranked. apply ranking_NoDup. exact H.
Qed.

Lemma normalize_keeps_ids proj par t :
  NoDup (map note_id t) ->
  map note_id (normalize_note_sequences proj par t) = map note_id t.
Proof.
  intros H. rewrite normalize_ranked by exact H. rewrite map_map.
  apply map_ext. intros r. apply ranked_keeps.
Qed.

Lemma group_normalize proj par proj' par' t :
  NoDup (map note_id t) ->
  group proj' par' (normalize_note_sequences proj par t)
  = map (ranked (ranking proj par t) 1) (group proj' par' t).
Proof.
  intros H. rewrite normalize_ranked by exact H. unfold group.
  apply filter_map_commute. intros r _. apply in_group_ranked.
Qed.

Lemma ranking_In proj par t n :
  In n (ranking proj par t) <->
  exists r, In r t /\ in_group proj par r = true /\ note_id r = n.
Proof.
  unfold ranking. rewrite in_map_iff. split.
  - intros [r [E Hr]]. apply (proj1 (order_by_sequence_In _ _)) in Hr.
    apply filter_In in Hr. exists r. tauto.
  - intros [r [Hr [Hg E]]]. exists r. split; [exact E|].
    apply order_by_sequence_In. apply filter_In. tauto.
Qed.

(** Rows outside the target group are not touched. *)
Lemma ranked_outside proj par t r :
  NoDup (map note_id t) -> In r t -> in_group proj par r = false ->
  ranked (ranking proj par t) 1 r = r.
Proof.
  intros H Hr Hg. apply ranked_absent. intros Hin.
  apply ranking_In in Hin. destruct Hin as [r' [Hr' [Hg' E]]].
  assert (r' = r) by (apply (unique_note_row t); auto). subst. congruence.
Qed.

Lemma group_normalize_other proj par proj' par' t :
  NoDup (map note_id t) ->
  (proj', par') <> (proj, par) ->
  group proj' par' (normalize_note_sequences proj par t) = group proj' par' t.
Proof.
  intros H Hne. rewrite group_normalize by exact H.
  apply map_id_on. intros r Hr. apply filter_In in Hr. destruct Hr as [Hr Hg].
  apply (ranked_outside proj par t); auto.
  destruct (in_group proj par r) eqn:E; [|reflexivity].
  apply in_group_spec in E. apply in_group_spec in Hg.
  exfalso. apply Hne. destruct E, Hg. congruence.
Qed.

(** ** Dense groups *)

Lemma iota_cons a n : iota a (S n) = a :: iota (a + 1) n.
Proof.
  unfold iota. simpl. rewrite <- seq_shift, map_map. f_equal; [lia|].
  apply map_ext. intros k. lia.
Qed.

Lemma iota_In a n z : In z (iota a n) <-> a <= z < a + Z.of_nat n.
Proof.
  unfold iota. rewrite in_map_iff. split.
  - intros [k [E Hk]]. apply in_seq in Hk. lia.
  - intros H. exists (Z.to_nat (z - a)). split; [lia|]. apply in_seq. lia.
Qed.

Lemma iota_NoDup a n : NoDup (iota a n).
Proof.
  unfold iota. apply NoDup_map_on; [apply seq_NoDup|]. intros x y _ _ E. lia.
Qed.

Lemma dense_of_perm g :
  Permutation (map sequence g) (iota 1 (length g)) -> dense g.
Proof.
  intros P. split.
  - apply (Permutation_NoDup (Permutation_sym P)). apply iota_NoDup.
  - intros z. split; intros Hz.
    + apply (Permutation_in _ P) in Hz. apply iota_In in Hz. lia.
    + apply (Permutation_in _ (Permutation_sym P)). apply iota_In. lia.
Qed.

(** No repetition and the bounds are enough: the rest is counting. *)
Lemma dense_of_bounds g :
  NoDup (map sequence g) ->
  (forall r, In r g -> 1 <= sequence r <= Z.of_nat (length g)) ->
  dense g.
Proof.
  intros Hnd Hb. split; [exact Hnd|]. intros z. split.
  - intros Hz. apply in_map_iff in Hz. destruct Hz as [r [<- Hr]]. auto.
  - intros Hz.
    assert (Hincl : incl (iota 1 (length g)) (map sequence g)).
    { apply NoDup_length_incl; [exact Hnd | |].
      - unfold iota. rewrite !length_map, length_seq. lia.
      - intros y Hy. apply in_map_iff in Hy. destruct Hy as [r [<- Hr]].
        apply iota_In. specialize (Hb r Hr). lia. }
    apply Hincl. apply iota_In. lia.
Qed.

Lemma dense_bounds g r : dense g -> In r g -> 1 <= sequence r <= Z.of_nat (length g).
Proof. intros [_ H] Hr. apply H. apply in_map. exact Hr. Qed.

Lemma dense_injective g r r' :
  dense g -> In r g -> In r' g -> sequence r = sequence r' -> r = r'.
Proof. intros [H _]. apply NoDup_map_injective. exact H. Qed.

Lemma sorted_map_sequence l :
  StronglySorted by_sequence l -> StronglySorted Z.le (map sequence l).
Proof.
  induction 1 as [|a l Hs IH Hall]; simpl; constructor; [exact IH|].
  rewrite Forall_forall in *. intros z Hz. apply in_map_iff in Hz.
  destruct Hz as [r [<- Hr]]. apply Hall. exact Hr.
Qed.

Lemma sorted_range_iota l : forall a,
  StronglySorted Z.le l -> NoDup l ->
  (forall z, In z l -> a <= z < a + Z.of_nat (length l)) ->
  l = iota a (length l).
Proof.
  induction l as [|h tl IH]; intros a Hs Hnd Hb; [reflexivity|].
  inversion Hs as [|x xs Hs' Hall]; subst.
  inversion Hnd as [|x xs Hnin Hnd']; subst.
  rewrite Forall_forall in Hall.
  assert (Hlt : forall z, In z tl -> h < z).
  { intros z Hz. specialize (Hall z Hz).
    assert (h <> z) by (intros ->; contradiction). lia. }
  assert (Hha : a <= h) by (apply Hb; left; reflexivity).
  assert (Htl : tl = iota (a + 1) (length tl)).
  { apply IH; auto. intros z Hz.
    specialize (Hlt z Hz). specialize (Hb z (or_intror Hz)).
    simpl length in Hb. lia. }
  simpl length. rewrite iota_cons. rewrite <- Htl. f_equal.
  destruct tl as [|y tl'].
  - specialize (Hb h (or_introl eq_refl)). simpl in Hb. lia.
  - simpl length in Htl. rewrite iota_cons in Htl. injection Htl as Hy _.
    specialize (Hlt y (or_introl eq_refl)). lia.
Qed.

Lemma dense_sorted g :
  dense g -> map sequence (order_by_sequence g) = iota 1 (length g).
Proof.
  intros [Hnd Hin].
  pose proof (order_by_sequence_perm g) as P.
  rewrite <- (order_by_sequence_length g).
  rewrite <- (length_map sequence (order_by_sequence g)).
  apply sorted_range_iota.
  - apply sorted_map_sequence, order_by_sequence_sorted.
  - apply (Permutation_NoDup (l := map sequence g)); [|exact Hnd].
    apply Permutation_map, Permutation_sym, P.
  - intros z Hz. rewrite length_map, order_by_sequence_length.
    apply (Permutation_in _ (Permutation_map sequence P)) in Hz.
    apply Hin in Hz. lia.
Qed.

Lemma ranked_self s : forall c,
  NoDup (map note_id s) ->
  map sequence (map (ranked (map note_id s) c) s) = iota c (length s).
Proof.
  induction s as [|a s IH]; intros c H; [reflexivity|].
  inversion H as [|x xs Hnin Hnd]; subst.
  simpl map. simpl length. rewrite iota_cons, ranked_cons_same. simpl. f_equal.
  rewrite <- (IH (c + 1) Hnd). rewrite !map_map.
  apply map_ext_in. intros r Hr. f_equal. apply ranked_cons_other.
  intros E. apply Hnin. rewrite <- E. apply in_map. exact Hr.
Qed.

(** Normalization makes its target group dense, whatever it was. *)
Lemma normalize_makes_dense proj par t :
  NoDup (map note_id t) ->
  dense (group proj par (normalize_note_sequences proj par t)).
Proof.
  intros H. rewrite group_normalize by exact H.
  apply dense_of_perm. rewrite length_map. unfold ranking.
  set (g := group proj par t).
  set (s := order_by_sequence g).
  assert (Hs : NoDup (map note_id s)) by (apply ranking_NoDup; exact H).
  rewrite <- (order_by_sequence_length g). fold s.
  rewrite <- (ranked_self s 1 Hs).
  apply Permutation_map, Permutation_map, Permutation_sym, order_by_sequence_perm.
Qed.

(** A dense group is left as it is. *)
Lemma normalize_dense_noop proj par t :
  NoDup (map note_id t) -> dense (group proj par t) ->
  normalize_note_sequences proj par t = t.
Proof.
  intros H Hd. rewrite normalize_ranked by exact H.
  apply map_id_on. intros r Hr.
  destruct (in_group proj par r) eqn:Hg.
  - apply ranked_fixed.
    set (s := order_by_sequence (group proj par t)).
    assert (Hs : NoDup (map note_id s)) by (apply ranking_NoDup; exact H).
    assert (E : map (fun x => sequence (ranked (ranking proj par t) 1 x)) s
                = map sequence s).
    { rewrite <- map_map. unfold ranking. fold s.
      rewrite (ranked_self s 1 Hs). unfold s.
      rewrite order_by_sequence_length. symmetry. apply dense_sorted. exact Hd. }
    apply (proj1 map_ext_in_iff E).
    apply order_by_sequence_In. apply filter_In. auto.
  - apply (ranked_outside proj par t); auto.
Qed.

(** ** STEP 1, 3 and 4 of move_note, row by row *)

Lemma in_group_disjoint proj par par' r :
  not_distinct par par' = false ->
  in_group proj par r = true -> in_group proj par' r = false.
Proof.
  intros Hne Hg. apply in_group_spec in Hg. destruct Hg as [_ Hp].
  destruct (in_group proj par' r) eqn:E; [|reflexivity].
  apply in_group_spec in E. destruct E as [_ Hp'].
  apply not_distinct_neq in Hne. congruence.
Qed.

Ltac split_conditions :=
  repeat match goal with
         | |- context [if ?c then _ else _] => destruct c eqn:?
         end.

Lemma park_shift_place_same n proj par old q t :
  park_shift_place n proj par old par q t
  = map (same_parent_image n proj par old q) t.
Proof.
  unfold park_shift_place, place, shift, park, sql_update.
  rewrite not_distinct_refl.
  destruct (Z.ltb_spec old q) as [Hlt|Hge];
    rewrite !map_map; apply map_ext; intros r;
    unfold same_parent_image, has_note_id;
    destruct (uuid_eqb (note_id r) n) eqn:Hn.
  - split_conditions; simpl in *; rewrite ?Hn in *;
      try discriminate; reflexivity.
  - destruct (in_group proj par r); simpl;
      destruct (Z.ltb_spec old (sequence r)), (Z.leb_spec (sequence r) q),
        (Z.leb_spec q (sequence r)), (Z.ltb_spec (sequence r) old);
      simpl; rewrite ?Hn; try reflexivity; lia.
  - split_conditions; simpl in *; rewrite ?Hn in *;
      try discriminate; reflexivity.
  - destruct (in_group proj par r); simpl;
      destruct (Z.ltb_spec old (sequence r)), (Z.leb_spec (sequence r) q),
        (Z.leb_spec q (sequence r)), (Z.ltb_spec (sequence r) old);
      simpl; rewrite ?Hn; try reflexivity; lia.
Qed.

Lemma park_shift_place_other n proj oldp old newp q t :
  not_distinct oldp newp = false ->
  park_shift_place n proj oldp old newp q t
  = map (other_parent_image n proj oldp old newp q) t.
Proof.
  intros Hne.
  unfold park_shift_place, place, shift, park, sql_update.
  rewrite Hne. rewrite !map_map. apply map_ext. intros r.
  unfold other_parent_image, has_note_id.
  destruct (uuid_eqb (note_id r) n) eqn:Hn.
  - split_conditions; simpl in *; rewrite ?Hn in *;
      try discriminate; reflexivity.
  - destruct (in_group proj oldp r) eqn:Hold.
    + pose proof (in_group_disjoint proj oldp newp r Hne Hold) as Hnew.
      destruct (old <? sequence r); simpl.
      * rewrite in_group_set_sequence, Hnew. simpl. rewrite Hn. reflexivity.
      * rewrite Hnew. simpl. rewrite Hn. reflexivity.
    + simpl. destruct (in_group proj newp r && (q <=? sequence r));
        simpl; rewrite Hn; reflexivity.
Qed.

(** STEP 1 of the version that keeps the parent while the note is parked
    gives, with its STEP 3 and 4, the table of [park_shift_place]. *)
Lemma kept_parent_park n proj oldp old newp q t :
  sql_update (has_note_id n) (set_parent_sequence newp q)
    (shift proj oldp old newp q
       (sql_update (has_note_id n) (set_sequence v_temp_sequence) t))
  = park_shift_place n proj oldp old newp q t.
Proof.
  unfold park_shift_place, place, park, shift, sql_update.
  destruct (not_distinct oldp newp); [destruct (old <? q)|];
    rewrite !map_map; apply map_ext; intros r;
    unfold has_note_id; destruct (uuid_eqb (note_id r) n) eqn:Hn;
    split_conditions; simpl in *; rewrite ?Hn in *;
    try discriminate; reflexivity.
Qed.

Lemma same_parent_image_keeps n proj par old q r :
  note_id (same_parent_image n proj par old q r) = note_id r
  /\ project_id (same_parent_image n proj par old q r) = project_id r.
Proof. unfold same_parent_image. split_conditions; simpl; auto. Qed.

Lemma other_parent_image_keeps n proj oldp old newp q r :
  note_id (other_parent_image n proj oldp old newp q r) = note_id r
  /\ project_id (other_parent_image n proj oldp old newp q r) = project_id r.
Proof. unfold other_parent_image. split_conditions; simpl; auto. Qed.

Lemma park_shift_place_keeps_ids n proj oldp old newp q t :
  map note_id (park_shift_place n proj oldp old newp q t) = map note_id t.
Proof.
  destruct (not_distinct oldp newp) eqn:E.
  - apply not_distinct_eq in E. subst newp.
    rewrite park_shift_place_same, map_map.
    apply map_ext. intros r. apply same_parent_image_keeps.
  - rewrite park_shift_place_other by exact E. rewrite map_map.
    apply map_ext. intros r. apply other_parent_image_keeps.
Qed.

(** ** Counting rows *)

Lemma filter_split_length {A : Type} (p : A -> bool) (l : list A) :
  (length (filter p l) + length (filter (fun x => negb (p x)) l) = length l)%nat.
Proof.
  induction l as [|a l IH]; simpl; [reflexivity|].
  destruct (p a); simpl; lia.
Qed.

Lemma filter_or_length {A : Type} (p q : A -> bool) (l : list A) :
  (forall x, In x l -> p x = true -> q x = false) ->
  (length (filter (fun x => p x || q x) l)
   = length (filter p l) + length (filter q l))%nat.
Proof.
  induction l as [|a l IH]; intros H; simpl; [reflexivity|].
  assert (IH' := IH (fun x Hx => H x (or_intror Hx))).
  specialize (H a (or_introl eq_refl)).
  destruct (p a) eqn:Hp; simpl.
  - rewrite (H eq_refl). simpl. lia.
  - destruct (q a); simpl; lia.
Qed.

Lemma filter_and {A : Type} (p q : A -> bool) (l : list A) :
  filter (fun x => p x && q x) l = filter q (filter p l).
Proof.
  induction l as [|a l IH]; simpl; [reflexivity|].
  destruct (p a); simpl; [destruct (q a)|]; rewrite IH; reflexivity.
Qed.

Lemma filter_swap {A : Type} (p q : A -> bool) (l : list A) :
  filter p (filter q l) = filter q (filter p l).
Proof.
  induction l as [|a l IH]; simpl; [reflexivity|].
  destruct (q a) eqn:Hq, (p a) eqn:Hp; simpl; rewrite ?Hq, ?Hp, IH; reflexivity.
Qed.

Lemma one_note_row n t r0 :
  NoDup (map note_id t) -> In r0 t -> note_id r0 = n ->
  length (filter (has_note_id n) t) = 1%nat.
Proof.
  induction t as [|a t IH]; simpl; intros H Hin E; [contradiction|].
  inversion H as [|x xs Hnin Hnd]; subst.
  unfold has_note_id at 1.
  destruct (uuid_eqb (note_id a) (note_id r0)) eqn:Ea.
  - apply uuid_eqb_eq in Ea. simpl. f_equal.
    apply length_zero_iff_nil.
    destruct (filter (has_note_id (note_id r0)) t) as [|y ys] eqn:F; [reflexivity|].
    assert (Hy : In y (filter (has_note_id (note_id r0)) t))
      by (rewrite F; left; reflexivity).
    apply filter_In in Hy. destruct Hy as [Hy Ey].
    apply uuid_eqb_eq in Ey. exfalso. apply Hnin. rewrite Ea, <- Ey.
    apply in_map. exact Hy.
  - apply uuid_eqb_neq in Ea. destruct Hin as [->|Hin]; [congruence|].
    apply IH; auto.
Qed.

Lemma has_note_id_unique n t r0 r :
  NoDup (map note_id t) -> In r0 t -> note_id r0 = n -> In r t ->
  has_note_id n r = true -> r = r0.
Proof.
  intros H H0 E Hr Hn. apply uuid_eqb_eq in Hn.
  apply (unique_note_row t); auto. congruence.
Qed.

(** ** max_sequence of a dense group *)

Lemma fold_max_spec ss : forall s,
  In (fold_left Z.max ss s) (s :: ss)
  /\ forall z, In z (s :: ss) -> z <= fold_left Z.max ss s.
Proof.
  induction ss as [|a ss IH]; intros s; simpl.
  - split; [left; reflexivity|]. intros z [->|[]]. lia.
  - destruct (IH (Z.max s a)) as [Hin Hle]. split.
    + destruct Hin as [E|Hin]; [|right; right; exact Hin].
      rewrite <- E. destruct (Z.max_spec s a) as [[_ ->]|[_ ->]]; auto.
    + intros z Hz.
      assert (Hm : Z.max s a <= fold_left Z.max ss (Z.max s a))
        by (apply Hle; left; reflexivity).
      destruct Hz as [->|[->|Hz]]; [lia | lia |].
      apply Hle. right. exact Hz.
Qed.

Lemma max_sequence_dense proj par t :
  dense (group proj par t) ->
  max_sequence proj par t = Z.of_nat (length (group proj par t)).
Proof.
  intros [_ Hd]. unfold max_sequence.
  rewrite <- (length_map sequence (group proj par t)) in *.
  destruct (map sequence (group proj par t)) as [|s ss]; [reflexivity|].
  destruct (fold_max_spec ss s) as [Hin Hle].
  apply Hd in Hin.
  assert (Hn : In (Z.of_nat (length (s :: ss))) (s :: ss)).
  { apply Hd. simpl length. lia. }
  apply Hle in Hn. lia.
Qed.

(** ** Normalization only looks at the order of the sequences *)

Lemma in_group_same proj par proj' par' r :
  in_group proj par r = true -> in_group proj' par' r = true ->
  (proj', par') = (proj, par).
Proof.
  intros H H'. apply in_group_spec in H. apply in_group_spec in H'.
  destruct H, H'. congruence.
Qed.

Lemma in_group_other proj par proj' par' r :
  (proj', par') <> (proj, par) -> in_group proj par r = true ->
  in_group proj' par' r = false.
Proof.
  intros Hne H. destruct (in_group proj' par' r) eqn:E; [|reflexivity].
  exfalso. apply Hne. apply (in_group_same proj par proj' par' r); assumption.
Qed.

Lemma normalize_relabel (h : seq_row -> seq_row) proj par t :
  NoDup (map note_id t) ->
  (forall r, note_id (h r) = note_id r /\ project_id (h r) = project_id r
             /\ parent_id (h r) = parent_id r) ->
  (forall x y, In x (group proj par t) -> In y (group proj par t) ->
     (sequence (h x) <=? sequence (h y)) = (sequence x <=? sequence y)) ->
  (forall r, In r t -> in_group proj par r = false -> h r = r) ->
  normalize_note_sequences proj par (map h t)
  = normalize_note_sequences proj par t.
Proof.
  intros H Hk Hcmp Hout.
  assert (Hids : map note_id (map h t) = map note_id t).
  { rewrite map_map. apply map_ext. intros r. apply Hk. }
  rewrite !normalize_ranked by (rewrite ?Hids; exact H).
  assert (Hr : ranking proj par (map h t) = ranking proj par t).
  { unfold ranking, group.
    rewrite filter_map_commute.
    - rewrite order_by_sequence_map by exact Hcmp.
      rewrite map_map. apply map_ext. intros r. apply Hk.
    - intros r _. unfold in_group. destruct (Hk r) as [_ [-> ->]]. reflexivity. }
  rewrite Hr, map_map. apply map_ext_in. intros r Hin.
  destruct (in_group proj par r) eqn:Hg.
  - unfold ranked. destruct (Hk r) as [-> [Hp Hq]].
    destruct (index_of (note_id r) (ranking proj par t)) eqn:Hi.
    + unfold set_sequence. destruct (Hk r) as [-> [-> ->]]. reflexivity.
    + apply index_of_none in Hi. exfalso. apply Hi.
      apply ranking_In. exists r. auto.
  - rewrite (Hout r Hin Hg). reflexivity.
Qed.

(** ** A move on a table with unique keys *)

Section MoveOnTable.

Variable t : list seq_row.
Variable n : uuid.
Variable r0 : seq_row.
Hypothesis unique_ids : NoDup (map note_id t).
Hypothesis found : find (has_note_id n) t = Some r0.

Local Abbreviation proj := (project_id r0).
Local Abbreviation oldp := (parent_id r0).
Local Abbreviation old := (sequence r0).

Lemma found_In : In r0 t.
Proof. apply (find_has_note_id n t r0 found). Qed.

Lemma found_id : note_id r0 = n.
Proof. apply (find_has_note_id n t r0 found). Qed.

Lemma found_has_note_id : has_note_id n r0 = true.
Proof. unfold has_note_id. rewrite found_id. apply uuid_eqb_refl. Qed.

Lemma note_row_is_found r : In r t -> has_note_id n r = true -> r = r0.
Proof.
  intros Hr Hn. apply (has_note_id_unique n t r0 r); auto.
  - apply found_In.
  - apply found_id.
Qed.

Lemma found_in_group : In r0 (group proj oldp t).
Proof. apply filter_In. split; [apply found_In | apply in_group_own]. Qed.

Lemma unique_rows : NoDup t.
Proof. apply (NoDup_map_inv note_id). exact unique_ids. Qed.

(** *** The parent stays *)

Lemma same_parent_group q :
  group proj oldp (map (same_parent_image n proj oldp old q) t)
  = map (same_parent_image n proj oldp old q) (group proj oldp t).
Proof.
  unfold group. apply filter_map_commute. intros r Hr.
  unfold same_parent_image.
  destruct (has_note_id n r) eqn:Hn.
  - rewrite (note_row_is_found r Hr Hn). unfold in_group. simpl.
    rewrite !uuid_eqb_refl, !not_distinct_refl. reflexivity.
  - split_conditions; reflexivity.
Qed.

Lemma same_parent_image_sequence q r :
  dense (group proj oldp t) -> In r (group proj oldp t) ->
  sequence (same_parent_image n proj oldp old q r)
  = same_parent_sequence old q (sequence r).
Proof.
  intros Hd Hr. pose proof Hr as Hr'. apply filter_In in Hr'.
  destruct Hr' as [Hrt Hg].
  unfold same_parent_image, same_parent_sequence. rewrite Hg. simpl.
  destruct (has_note_id n r) eqn:Hn.
  - rewrite (note_row_is_found r Hrt Hn). rewrite Z.eqb_refl. reflexivity.
  - destruct (Z.eqb_spec (sequence r) old) as [E|E].
    + assert (r = r0)
        by (apply (dense_injective _ r r0 Hd); auto using found_in_group).
      subst r. rewrite found_has_note_id in Hn. discriminate.
    + split_conditions; reflexivity.
Qed.

Lemma same_parent_sequence_injective N q s s' :
  1 <= old <= N -> 1 <= q <= N -> 1 <= s <= N -> 1 <= s' <= N ->
  same_parent_sequence old q s = same_parent_sequence old q s' -> s = s'.
Proof.
  unfold same_parent_sequence. intros Ho Hq Hs Hs'.
  destruct (Z.eqb_spec s old), (Z.eqb_spec s' old),
    (Z.ltb_spec old s), (Z.leb_spec s q), (Z.leb_spec q s), (Z.ltb_spec s old),
    (Z.ltb_spec old s'), (Z.leb_spec s' q), (Z.leb_spec q s'), (Z.ltb_spec s' old);
    simpl; lia.
Qed.

Lemma same_parent_sequence_bounds N q s :
  1 <= old <= N -> 1 <= q <= N -> 1 <= s <= N ->
  1 <= same_parent_sequence old q s <= N.
Proof.
  unfold same_parent_sequence. intros Ho Hq Hs.
  destruct (Z.eqb_spec s old),
    (Z.ltb_spec old s), (Z.leb_spec s q), (Z.leb_spec q s), (Z.ltb_spec s old);
    simpl; lia.
Qed.

Lemma same_parent_dense q :
  dense (group proj oldp t) ->
  1 <= q <= Z.of_nat (length (group proj oldp t)) ->
  dense (group proj oldp (map (same_parent_image n proj oldp old q) t)).
Proof.
  intros Hd Hq. rewrite same_parent_group.
  set (g := group proj oldp t) in *.
  assert (Ho : 1 <= old <= Z.of_nat (length g))
    by (apply dense_bounds; [exact Hd | apply found_in_group]).
  apply dense_of_bounds.
  - rewrite map_map. apply NoDup_map_on.
    + apply (NoDup_map_inv sequence). apply Hd.
    + intros x y Hx Hy E.
      rewrite !same_parent_image_sequence in E by assumption.
      apply (dense_injective g x y Hd Hx Hy).
      apply (same_parent_sequence_injective (Z.of_nat (length g)) q); auto;
        apply dense_bounds; assumption.
  - intros r Hr. apply in_map_iff in Hr. destruct Hr as [x [<- Hx]].
    rewrite length_map, same_parent_image_sequence by assumption.
    apply same_parent_sequence_bounds; auto. apply dense_bounds; assumption.
Qed.

Lemma same_parent_other_groups proj' par' q :
  (proj', par') <> (proj, oldp) ->
  group proj' par' (map (same_parent_image n proj oldp old q) t)
  = group proj' par' t.
Proof.
  intros Hne. unfold group. rewrite filter_map_commute.
  - apply map_id_on. intros r Hr. apply filter_In in Hr. destruct Hr as [Hr Hg].
    unfold same_parent_image.
    destruct (has_note_id n r) eqn:Hn.
    + rewrite (note_row_is_found r Hr Hn) in Hg.
      rewrite (in_group_other proj oldp proj' par' r0 Hne (in_group_own r0)) in Hg.
      discriminate.
    + destruct (in_group proj oldp r) eqn:E; [|reflexivity].
      rewrite (in_group_other proj oldp proj' par' r Hne E) in Hg. discriminate.
  - intros r Hr. unfold same_parent_image.
    destruct (has_note_id n r) eqn:Hn.
    + rewrite (note_row_is_found r Hr Hn). reflexivity.
    + split_conditions; reflexivity.
Qed.

Lemma same_parent_image_ids q :
  map note_id (map (same_parent_image n proj oldp old q) t) = map note_id t.
Proof.
  rewrite map_map. apply map_ext. intros r. apply same_parent_image_keeps.
Qed.

(** Asked past the end of its own group, the note is parked one past the
    end and the normalization brings it back to the last place. *)
Lemma same_parent_top :
  dense (group proj oldp t) ->
  let N := Z.of_nat (length (group proj oldp t)) in
  normalize_note_sequences proj oldp
    (map (same_parent_image n proj oldp old (N + 1)) t)
  = map (same_parent_image n proj oldp old N) t.
Proof.
  intros Hd N.
  assert (Ho : 1 <= old <= N)
    by (apply dense_bounds; [exact Hd | apply found_in_group]).
  set (tN := map (same_parent_image n proj oldp old N) t).
  set (h := fun r => if has_note_id n r then set_sequence (N + 1) r else r).
  assert (HdN : dense (group proj oldp tN))
    by (apply same_parent_dense; [exact Hd | fold N; lia]).
  assert (HidsN : NoDup (map note_id tN))
    by (unfold tN; rewrite same_parent_image_ids; exact unique_ids).
  assert (Hlen : length (group proj oldp tN) = length (group proj oldp t))
    by (unfold tN; rewrite same_parent_group; apply length_map).
  assert (Etop : map (same_parent_image n proj oldp old (N + 1)) t = map h tN).
  { unfold tN. rewrite map_map. apply map_ext_in. intros r Hr.
    unfold h, same_parent_image, has_note_id.
    destruct (uuid_eqb (note_id r) n) eqn:Hn.
    - simpl. rewrite Hn. reflexivity.
    - destruct (in_group proj oldp r) eqn:Hg.
      + assert (Hb : 1 <= sequence r <= N).
        { apply dense_bounds; [exact Hd|]. apply filter_In. auto. }
        simpl.
        destruct (Z.ltb_spec old (sequence r)), (Z.leb_spec (sequence r) (N + 1)),
          (Z.leb_spec (sequence r) N), (Z.leb_spec (N + 1) (sequence r)),
          (Z.leb_spec N (sequence r)), (Z.ltb_spec (sequence r) old);
          simpl; rewrite ?Hn; try reflexivity; lia.
      + simpl. rewrite Hn. reflexivity. }
  rewrite Etop.
  rewrite (normalize_relabel h proj oldp tN HidsN).
  - apply normalize_dense_noop; assumption.
  - intros r. unfold h. destruct (has_note_id n r); simpl; auto.
  - assert (Hnote : forall x, In x (group proj oldp tN) ->
              if has_note_id n x then sequence x = N else sequence x < N).
    { intros x Hx. pose proof (dense_bounds _ x HdN Hx) as Hb.
      rewrite Hlen in Hb. fold N in Hb.
      assert (Hx0 : In (same_parent_image n proj oldp old N r0)
                      (group proj oldp tN)).
      { unfold tN. rewrite same_parent_group. apply in_map. apply found_in_group. }
      assert (Es0 : sequence (same_parent_image n proj oldp old N r0) = N).
      { unfold same_parent_image. rewrite found_has_note_id. reflexivity. }
      destruct (has_note_id n x) eqn:Hn.
      - unfold tN in Hx. rewrite same_parent_group in Hx.
        apply in_map_iff in Hx. destruct Hx as [x0 [<- Hx0']].
        assert (Hn0 : has_note_id n x0 = true).
        { unfold has_note_id in *.
          destruct (same_parent_image_keeps n proj oldp old N x0) as [E _].
          rewrite E in Hn. exact Hn. }
        apply filter_In in Hx0'. destruct Hx0' as [Hx0' _].
        rewrite (note_row_is_found x0 Hx0' Hn0). exact Es0.
      - assert (sequence x <> N); [|lia]. intros E.
        assert (x = same_parent_image n proj oldp old N r0)
          by (apply (dense_injective _ _ _ HdN); auto; congruence).
        subst x. unfold has_note_id in Hn.
        destruct (same_parent_image_keeps n proj oldp old N r0) as [E' _].
        rewrite E', found_id, uuid_eqb_refl in Hn. discriminate. }
    intros x y Hx Hy. pose proof (Hnote x Hx) as Nx. pose proof (Hnote y Hy) as Ny.
    unfold h. destruct (has_note_id n x), (has_note_id n y); simpl;
      destruct (Z.leb_spec (sequence x) (sequence y));
      try reflexivity;
      try (apply Z.leb_le; lia); try (apply Z.leb_gt; lia).
  - intros r Hr Hg. unfold h.
    destruct (has_note_id n r) eqn:Hn; [|reflexivity].
    exfalso. unfold tN in Hr. apply in_map_iff in Hr.
    destruct Hr as [x0 [<- Hx0]].
    assert (Hn0 : has_note_id n x0 = true).
    { unfold has_note_id in *.
      destruct (same_parent_image_keeps n proj oldp old N x0) as [E _].
      rewrite E in Hn. exact Hn. }
    rewrite (note_row_is_found x0 Hx0 Hn0) in Hg.
    unfold same_parent_image in Hg. rewrite found_has_note_id in Hg.
    unfold in_group in Hg. simpl in Hg.
    rewrite uuid_eqb_refl, not_distinct_refl in Hg. discriminate.
Qed.

Lemma same_parent_final pos :
  dense (group proj oldp t) ->
  let N := Z.of_nat (length (group proj oldp t)) in
  repair proj oldp oldp
    (park_shift_place n proj oldp old oldp
       (clamp_position pos (max_sequence proj oldp t)) t)
  = map (same_parent_image n proj oldp old (Z.max 1 (Z.min pos N))) t.
Proof.
  intros Hd N. unfold repair. rewrite not_distinct_refl.
  rewrite park_shift_place_same.
  assert (Ho : 1 <= old <= N)
    by (apply dense_bounds; [exact Hd | apply found_in_group]).
  unfold clamp_position. rewrite (max_sequence_dense _ _ _ Hd). fold N.
  destruct (Z_le_gt_dec pos N) as [Hle|Hgt].
  - replace (Z.max 1 (Z.min pos (N + 1))) with (Z.max 1 (Z.min pos N)) by lia.
    apply normalize_dense_noop.
    + rewrite same_parent_image_ids. exact unique_ids.
    + apply same_parent_dense; [exact Hd | fold N; lia].
  - replace (Z.max 1 (Z.min pos (N + 1))) with (N + 1) by lia.
    replace (Z.max 1 (Z.min pos N)) with N by lia.
    apply same_parent_top. exact Hd.
Qed.

(** *** The parent changes *)

Section OtherParent.

Variable newp : option uuid.
Hypothesis parent_changes : not_distinct oldp newp = false.

Lemma found_not_in_new_group : in_group proj newp r0 = false.
Proof.
  apply (in_group_disjoint proj oldp newp r0 parent_changes).
  apply in_group_own.
Qed.

Lemma other_parent_old_group q :
  group proj oldp (map (other_parent_image n proj oldp old newp q) t)
  = map (other_parent_image n proj oldp old newp q)
      (filter (fun r => negb (has_note_id n r)) (group proj oldp t)).
Proof.
  unfold group. rewrite <- filter_and.
  apply filter_map_swap. intros r Hr.
  unfold other_parent_image.
  destruct (has_note_id n r) eqn:Hn.
  - rewrite andb_false_r. rewrite (note_row_is_found r Hr Hn).
    unfold in_group. simpl. rewrite uuid_eqb_refl. simpl.
    apply not_distinct_neq. intros E. apply not_distinct_neq in parent_changes.
    congruence.
  - rewrite andb_true_r. split_conditions; reflexivity.
Qed.

Lemma other_parent_old_sequence q r :
  In r (group proj oldp t) -> has_note_id n r = false ->
  sequence (other_parent_image n proj oldp old newp q r)
  = if old <? sequence r then sequence r - 1 else sequence r.
Proof.
  intros Hr Hn. apply filter_In in Hr. destruct Hr as [_ Hg].
  unfold other_parent_image. rewrite Hn, Hg.
  rewrite (in_group_disjoint proj oldp newp r parent_changes Hg). simpl.
  destruct (old <? sequence r); reflexivity.
Qed.

Lemma other_parent_old_length :
  (length (filter (fun r => negb (has_note_id n r)) (group proj oldp t)) + 1
   = length (group proj oldp t))%nat.
Proof.
  rewrite <- (filter_split_length (has_note_id n) (group proj oldp t)).
  rewrite (one_note_row n (group proj oldp t) r0).
  - lia.
  - apply filter_keeps_distinct. exact unique_ids.
  - apply found_in_group.
  - apply found_id.
Qed.

Lemma other_parent_old_dense q :
  dense (group proj oldp t) ->
  dense (group proj oldp (map (other_parent_image n proj oldp old newp q) t)).
Proof.
  intros Hd. rewrite other_parent_old_group.
  set (g := group proj oldp t) in *.
  set (g' := filter (fun r => negb (has_note_id n r)) g).
  assert (Hlen : (length g' + 1 = length g)%nat) by apply other_parent_old_length.
  assert (Ho : 1 <= old <= Z.of_nat (length g))
    by (apply dense_bounds; [exact Hd | apply found_in_group]).
  assert (Hg' : forall x, In x g' ->
            In x g /\ has_note_id n x = false /\ sequence x <> old).
  { intros x Hx. apply filter_In in Hx. destruct Hx as [Hx Hn].
    apply negb_true_iff in Hn. repeat split; auto.
    intros E. assert (x = r0)
      by (apply (dense_injective g x r0 Hd); auto using found_in_group).
    subst x. rewrite found_has_note_id in Hn. discriminate. }
  apply dense_of_bounds.
  - rewrite map_map. apply NoDup_map_on.
    + apply NoDup_filter. apply (NoDup_map_inv sequence). apply Hd.
    + intros x y Hx Hy E.
      destruct (Hg' x Hx) as [Hxg [Hxn Hxo]].
      destruct (Hg' y Hy) as [Hyg [Hyn Hyo]].
      rewrite !other_parent_old_sequence in E by assumption.
      apply (dense_injective g x y Hd Hxg Hyg).
      destruct (Z.ltb_spec old (sequence x)), (Z.ltb_spec old (sequence y)); lia.
  - intros r Hr. apply in_map_iff in Hr. destruct Hr as [x [<- Hx]].
    destruct (Hg' x Hx) as [Hxg [Hxn Hxo]].
    rewrite length_map, other_parent_old_sequence by assumption.
    pose proof (dense_bounds g x Hd Hxg).
    destruct (Z.ltb_spec old (sequence x)); lia.
Qed.

Lemma other_parent_new_group q :
  group proj newp (map (other_parent_image n proj oldp old newp q) t)
  = map (other_parent_image n proj oldp old newp q)
      (filter (fun r => in_group proj newp r || has_note_id n r) t).
Proof.
  unfold group. apply filter_map_swap. intros r Hr.
  unfold other_parent_image.
  destruct (has_note_id n r) eqn:Hn.
  - rewrite orb_true_r. rewrite (note_row_is_found r Hr Hn).
    unfold in_group. simpl. rewrite uuid_eqb_refl, not_distinct_refl. reflexivity.
  - rewrite orb_false_r. split_conditions; reflexivity.
Qed.

Lemma other_parent_new_length :
  length (filter (fun r => in_group proj newp r || has_note_id n r) t)
  = S (length (group proj newp t)).
Proof.
  rewrite filter_or_length.
  - rewrite (one_note_row n t r0 unique_ids found_In found_id).
    unfold group. lia.
  - intros x Hx Hg. destruct (has_note_id n x) eqn:Hn; [|reflexivity].
    rewrite (note_row_is_found x Hx Hn) in Hg.
    rewrite found_not_in_new_group in Hg. discriminate.
Qed.

Lemma other_parent_new_sequence q r :
  In r t -> in_group proj newp r || has_note_id n r = true ->
  sequence (other_parent_image n proj oldp old newp q r)
  = if has_note_id n r then q
    else if q <=? sequence r then sequence r + 1 else sequence r.
Proof.
  intros Hr Hor. unfold other_parent_image.
  destruct (has_note_id n r) eqn:Hn; [reflexivity|].
  rewrite orb_false_r in Hor. rewrite Hor.
  assert (Hold : in_group proj oldp r = false).
  { destruct (in_group proj oldp r) eqn:E; [|reflexivity].
    rewrite (in_group_disjoint proj oldp newp r parent_changes E) in Hor.
    discriminate. }
  rewrite Hold. simpl. destruct (q <=? sequence r); reflexivity.
Qed.

Lemma other_parent_new_dense q :
  dense (group proj newp t) ->
  1 <= q <= Z.of_nat (length (group proj newp t)) + 1 ->
  dense (group proj newp (map (other_parent_image n proj oldp old newp q) t)).
Proof.
  intros Hd Hq. rewrite other_parent_new_group.
  set (g := group proj newp t) in *.
  set (g' := filter (fun r => in_group proj newp r || has_note_id n r) t).
  assert (Hlen : length g' = S (length g)) by apply other_parent_new_length.
  assert (Hg' : forall x, In x g' ->
            In x t /\ in_group proj newp x || has_note_id n x = true
            /\ (has_note_id n x = false -> In x g)).
  { intros x Hx. apply filter_In in Hx. destruct Hx as [Hx Hor].
    repeat split; auto. intros Hn. rewrite Hn, orb_false_r in Hor.
    apply filter_In. auto. }
  apply dense_of_bounds.
  - rewrite map_map. apply NoDup_map_on.
    + apply NoDup_filter. apply unique_rows.
    + intros x y Hx Hy E.
      destruct (Hg' x Hx) as [Hxt [Hxor Hxg]].
      destruct (Hg' y Hy) as [Hyt [Hyor Hyg]].
      rewrite !other_parent_new_sequence in E by assumption.
      destruct (has_note_id n x) eqn:Hxn, (has_note_id n y) eqn:Hyn.
      * rewrite (note_row_is_found x Hxt Hxn), (note_row_is_found y Hyt Hyn).
        reflexivity.
      * destruct (Z.leb_spec q (sequence y)); lia.
      * destruct (Z.leb_spec q (sequence x)); lia.
      * apply (dense_injective g x y Hd (Hxg eq_refl) (Hyg eq_refl)).
        destruct (Z.leb_spec q (sequence x)), (Z.leb_spec q (sequence y)); lia.
  - intros r Hr. apply in_map_iff in Hr. destruct Hr as [x [<- Hx]].
    destruct (Hg' x Hx) as [Hxt [Hxor Hxg]].
    rewrite length_map, other_parent_new_sequence, Hlen by assumption.
    destruct (has_note_id n x) eqn:Hxn; [lia|].
    pose proof (dense_bounds g x Hd (Hxg eq_refl)).
    destruct (Z.leb_spec q (sequence x)); lia.
Qed.

Lemma other_parent_other_groups proj' par' q :
  (proj', par') <> (proj, oldp) -> (proj', par') <> (proj, newp) ->
  group proj' par' (map (other_parent_image n proj oldp old newp q) t)
  = group proj' par' t.
Proof.
  intros Hne Hne'. unfold group. rewrite filter_map_commute.
  - apply map_id_on. intros r Hr. apply filter_In in Hr. destruct Hr as [Hr Hg].
    unfold other_parent_image.
    destruct (has_note_id n r) eqn:Hn.
    + rewrite (note_row_is_found r Hr Hn) in Hg.
      rewrite (in_group_other proj oldp proj' par' r0 Hne (in_group_own r0)) in Hg.
      discriminate.
    + destruct (in_group proj oldp r) eqn:E.
      * rewrite (in_group_other proj oldp proj' par' r Hne E) in Hg. discriminate.
      * destruct (in_group proj newp r) eqn:E'; [|reflexivity].
        rewrite (in_group_other proj newp proj' par' r Hne' E') in Hg.
        discriminate.
  - intros r Hr. unfold other_parent_image.
    destruct (has_note_id n r) eqn:Hn.
    + rewrite (note_row_is_found r Hr Hn).
      rewrite (in_group_other proj oldp proj' par' r0 Hne (in_group_own r0)).
      apply (in_group_other proj newp proj' par' _ Hne').
      unfold in_group. simpl. rewrite uuid_eqb_refl, not_distinct_refl. reflexivity.
    + split_conditions; reflexivity.
Qed.

Lemma other_parent_final pos :
  dense (group proj oldp t) -> dense (group proj newp t) ->
  let q := clamp_position pos (max_sequence proj newp t) in
  repair proj oldp newp (park_shift_place n proj oldp old newp q t)
  = map (other_parent_image n proj oldp old newp q) t.
Proof.
  intros Ho Hn q. unfold repair. rewrite parent_changes.
  rewrite (park_shift_place_other _ _ _ _ _ _ _ parent_changes).
  assert (Hq : 1 <= q <= Z.of_nat (length (group proj newp t)) + 1).
  { unfold q, clamp_position. rewrite (max_sequence_dense _ _ _ Hn). lia. }
  assert (Hids : NoDup (map note_id
                          (map (other_parent_image n proj oldp old newp q) t))).
  { rewrite map_map.
    rewrite (map_ext _ note_id
               (fun r => proj1 (other_parent_image_keeps n proj oldp old newp q r))).
    exact unique_ids. }
  rewrite (normalize_dense_noop proj oldp) by
    (auto using other_parent_old_dense).
  apply normalize_dense_noop; auto using other_parent_new_dense.
Qed.

End OtherParent.

End MoveOnTable.

(** ** The descendants collected by delete_note_tree *)

Lemma sql_eq_Some (a : option uuid) (b : uuid) : sql_eq a (Some b) = true <-> a = Some b.
Proof.
  destruct a as [x|]; simpl; [|split; discriminate].
  rewrite uuid_eqb_eq. split; congruence.
Qed.

Lemma cte_iterate_unfold fuel ns working :
  cte_iterate (S fuel) ns working
  = working ++ cte_iterate fuel ns (recursive_term ns working).
Proof.
  destruct working as [|d w]; [|reflexivity].
  simpl. destruct fuel; reflexivity.
Qed.

Lemma recursive_term_In ns working c j :
  In (c, j) (recursive_term ns working) <->
  exists p k, In (p, k) working /\ k < 50 /\ j = k + 1
              /\ In c ns /\ n_parent_id c = Some (id p).
Proof.
  unfold recursive_term. rewrite in_flat_map. split.
  - intros [[p k] [Hd Hin]]. simpl in Hin.
    destruct (Z.ltb_spec k 50) as [Hk|Hk]; [|contradiction].
    apply in_map_iff in Hin. destruct Hin as [c' [E Hc]].
    injection E as -> <-. apply filter_In in Hc. destruct Hc as [Hc Hp].
    apply sql_eq_Some in Hp. exists p, k. auto.
  - intros [p [k [Hd [Hk [-> [Hc Hp]]]]]]. exists (p, k). split; [exact Hd|].
    simpl. destruct (Z.ltb_spec k 50) as [_|Hk']; [|lia].
    apply in_map_iff. exists c. split; [reflexivity|].
    apply filter_In. split; [exact Hc | apply sql_eq_Some; exact Hp].
Qed.

Lemma row_at_depth_In ns root d r : row_at_depth ns root d r -> In r ns.
Proof. destruct 1; assumption. Qed.

Lemma row_at_depth_positive ns root d r : row_at_depth ns root d r -> (1 <= d)%nat.
Proof. destruct 1; lia. Qed.

Lemma cte_iterate_spec ns root fuel : forall working k,
  (k + fuel = 51)%nat -> (1 <= k)%nat ->
  (forall r j, In (r, j) working <->
     (k <= 50)%nat /\ j = Z.of_nat k /\ row_at_depth ns root k r) ->
  forall r j, In (r, j) (cte_iterate fuel ns working) <->
    exists d, (k <= d <= 50)%nat /\ j = Z.of_nat d /\ row_at_depth ns root d r.
Proof.
  induction fuel as [|fuel IH]; intros working k Hk H1 Hw r j.
  - assert (E : working = []).
    { destruct working as [|[r' j'] w]; [reflexivity|].
      assert (In (r', j') ((r', j') :: w)) by (left; reflexivity).
      apply Hw in H. lia. }
    subst working. simpl. split; [contradiction|].
    intros [d [Hd _]]. lia.
  - rewrite cte_iterate_unfold, in_app_iff.
    rewrite (IH (recursive_term ns working) (S k)); [| lia | lia |].
    + rewrite Hw. split.
      * intros [[Hk' [-> Hr]]|[d [Hd [-> Hr]]]].
        -- exists k. repeat split; auto; lia.
        -- exists d. repeat split; auto; lia.
      * intros [d [Hd [-> Hr]]].
        destruct (Nat.eq_dec d k) as [->|Hne].
        -- left. repeat split; auto; lia.
        -- right. exists d. repeat split; auto; lia.
    + intros c i. rewrite recursive_term_In. split.
      * intros [p [k' [Hp [Hk' [-> [Hc Hpar]]]]]].
        apply Hw in Hp. destruct Hp as [Hk50 [-> Hp]].
        repeat split; [lia | lia |].
        apply (depth_child ns root k p c); assumption.
      * intros [Hk50 [-> Hc]].
        inversion Hc as [|d p c' Hp Hin Hpar]; subst; [lia|].
        exists p, (Z.of_nat k). repeat split; auto; try lia.
        apply Hw. repeat split; auto. lia.
Qed.

(** More rounds change nothing: it is the depth guard, not the number of
    rounds, that ends the evaluation. *)
Lemma cte_iterate_fuel ns fuel : forall working k extra,
  (forall d, In d working -> snd d = Z.of_nat k) ->
  (51 <= k + fuel)%nat ->
  cte_iterate (fuel + extra) ns working = cte_iterate fuel ns working.
Proof.
  induction fuel as [|fuel IH]; intros working k extra Hw Hk.
  - simpl. destruct working as [|d w]; [destruct extra; reflexivity|].
    destruct extra as [|extra]; [reflexivity|].
    rewrite cte_iterate_unfold.
    assert (E : recursive_term ns (d :: w) = []).
    { destruct (recursive_term ns (d :: w)) as [|[c j] rest] eqn:F; [reflexivity|].
      assert (Hc : In (c, j) (recursive_term ns (d :: w)))
        by (rewrite F; left; reflexivity).
      apply recursive_term_In in Hc. destruct Hc as [p [k' [Hp [Hlt _]]]].
      apply Hw in Hp. simpl in Hp. lia. }
    rewrite E. destruct extra; simpl; rewrite app_nil_r; reflexivity.
  - change (S fuel + extra)%nat with (S (fuel + extra)).
    rewrite !cte_iterate_unfold. f_equal.
    apply (IH _ (S k)); [|lia].
    intros [c j] Hc. apply recursive_term_In in Hc.
    destruct Hc as [p [k' [Hp [_ [-> _]]]]].
    apply Hw in Hp. simpl in *. lia.
Qed.

Lemma descendants_fuel ns root extra :
  cte_iterate (50 + extra) ns
    (map (fun n => (n, 1)) (filter (fun n => uuid_eqb (id n) root) ns))
  = descendants ns root.
Proof.
  unfold descendants. apply (cte_iterate_fuel ns 50 _ 1); [|lia].
  intros d Hd. apply in_map_iff in Hd. destruct Hd as [x [<- _]]. reflexivity.
Qed.

Lemma descendants_spec ns root r j :
  In (r, j) (descendants ns root) <->
  exists d, (1 <= d <= 50)%nat /\ j = Z.of_nat d /\ row_at_depth ns root d r.
Proof.
  unfold descendants. apply cte_iterate_spec; [reflexivity | lia |].
  intros r' j'. rewrite in_map_iff. split.
  - intros [x [E Hx]]. injection E as -> <-. apply filter_In in Hx.
    destruct Hx as [Hx Hid]. apply uuid_eqb_eq in Hid.
    repeat split; [lia|]. constructor; assumption.
  - intros [_ [-> Hr]].
    inversion Hr as [r'' Hin Hid|d p c Hp Hin Hpar]; subst.
    + exists r'. split; [reflexivity|]. apply filter_In.
      split; [exact Hin | apply uuid_eqb_refl].
    + apply row_at_depth_positive in Hp. lia.
Qed.

Lemma notes_to_delete_spec ns root i :
  In i (notes_to_delete ns root) <->
  exists d r, (1 <= d <= 50)%nat /\ row_at_depth ns root d r /\ id r = i.
Proof.
  unfold notes_to_delete. rewrite in_map_iff. split.
  - intros [[r j] [E Hin]]. simpl in E. apply descendants_spec in Hin.
    destruct Hin as [d [Hd [_ Hr]]]. exists d, r. auto.
  - intros [d [r [Hd [Hr E]]]]. exists (r, Z.of_nat d). split; [exact E|].
    apply descendants_spec. exists d. auto.
Qed.

(** ** ON DELETE CASCADE *)

Lemma cascade_subset fuel : forall gone ns x,
  In x (cascade fuel gone ns) -> In x ns.
Proof.
  induction fuel as [|fuel IH]; intros gone ns x H; simpl in H; [exact H|].
  destruct (filter (fun n => refers_to gone (n_parent_id n)) ns); [exact H|].
  apply IH in H. unfold sql_delete in H. apply filter_In in H. tauto.
Qed.

Lemma cascade_closed fuel : forall gone ns,
  (length ns <= fuel)%nat ->
  forall c, In c (cascade fuel gone ns) ->
    refers_to gone (n_parent_id c) = false
    /\ forall p, In p ns -> ~ In p (cascade fuel gone ns) ->
         n_parent_id c <> Some (id p).
Proof.
  induction fuel as [|fuel IH]; intros gone ns Hlen c Hc.
  - destruct ns; [contradiction | simpl in Hlen; lia].
  - simpl in *.
    destruct (filter (fun n => refers_to gone (n_parent_id n)) ns)
      as [|v vs] eqn:F.
    + split; [|intros p Hp Hnp; contradiction].
      destruct (refers_to gone (n_parent_id c)) eqn:E; [|reflexivity].
      assert (In c []) by (rewrite <- F; apply filter_In; auto). contradiction.
    + set (ns' := sql_delete (fun n => refers_to gone (n_parent_id n)) ns) in *.
      assert (Hlen' : (length ns' <= fuel)%nat).
      { pose proof (filter_split_length
                      (fun n => refers_to gone (n_parent_id n)) ns) as L.
        rewrite F in L. simpl in L. unfold ns', sql_delete. lia. }
      destruct (IH (map id (v :: vs)) ns' Hlen' c Hc) as [Hv Hrest].
      pose proof (cascade_subset _ _ _ _ Hc) as Hc'.
      unfold ns', sql_delete in Hc'. apply filter_In in Hc'.
      destruct Hc' as [Hcns Hcg]. apply negb_true_iff in Hcg.
      split; [exact Hcg|]. intros p Hp Hnp.
      destruct (refers_to gone (n_parent_id p)) eqn:Ep.
      * intros E. rewrite E in Hv. unfold refers_to in Hv.
        apply mem_not_In in Hv. apply Hv. rewrite <- F.
        apply in_map. apply filter_In. auto.
      * apply Hrest; [|exact Hnp]. unfold ns', sql_delete.
        apply filter_In. rewrite Ep. auto.
Qed.

Lemma delete_from_notes_spec where_ ns c :
  In c (delete_from_notes where_ ns) ->
  In c ns /\ where_ c = false
  /\ forall p, In p ns -> ~ In p (delete_from_notes where_ ns) ->
       n_parent_id c <> Some (id p).
Proof.
  unfold delete_from_notes. intros Hc.
  assert (Hlen : (length (sql_delete where_ ns) <= length ns)%nat).
  { unfold sql_delete. apply filter_length_le. }
  destruct (cascade_closed _ _ _ Hlen c Hc) as [Hg Hrest].
  pose proof (cascade_subset _ _ _ _ Hc) as Hc'.
  unfold sql_delete in Hc'. apply filter_In in Hc'. destruct Hc' as [Hin Hw].
  apply negb_true_iff in Hw. repeat split; auto.
  intros p Hp Hnp. destruct (where_ p) eqn:Ep.
  - intros E. rewrite E in Hg. unfold refers_to in Hg. apply mem_not_In in Hg.
    apply Hg. apply in_map. apply filter_In. auto.
  - apply Hrest; [|exact Hnp]. unfold sql_delete. apply filter_In.
    rewrite Ep. auto.
Qed.

Lemma removed_ids_spec before after i :
  In i (removed_ids before after) <->
  In i (map id before) /\ ~ In i (map id after).
Proof.
  unfold removed_ids. rewrite filter_In, negb_true_iff, mem_not_In. tauto.
Qed.

(** ** Checking concrete tables *)

Lemma distinctb_sound {A : Type} (eqb : A -> A -> bool) (l : list A) :
  (forall x y, eqb x y = true <-> x = y) ->
  distinctb eqb l = true -> NoDup l.
Proof.
  intros Heq. induction l as [|a l IH]; simpl; intros H; [constructor|].
  apply andb_true_iff in H. destruct H as [Hn Hd].
  apply negb_true_iff in Hn. constructor; [|apply IH; exact Hd].
  intros Hin. assert (existsb (eqb a) l = true); [|congruence].
  apply existsb_exists. exists a. split; [exact Hin | apply Heq; reflexivity].
Qed.

Lemma unique_ids_check_sound t : unique_ids_check t = true -> NoDup (map note_id t).
Proof. apply distinctb_sound. apply uuid_eqb_eq. Qed.

Lemma dense_check_sound g : dense_check g = true -> dense g.
Proof.
  unfold dense_check. intros H. apply andb_true_iff in H. destruct H as [Hd Hb].
  apply dense_of_bounds.
  - apply (distinctb_sound Z.eqb); [apply Z.eqb_eq | exact Hd].
  - intros r Hr. rewrite forallb_forall in Hb. specialize (Hb r Hr).
    apply andb_true_iff in Hb. destruct Hb as [H1 H2].
    apply Z.leb_le in H1. apply Z.leb_le in H2. lia.
Qed.

Lemma dense_nil : dense [].
Proof. apply dense_check_sound. reflexivity. Qed.

Lemma all_dense_by_rows t :
  (forall r, In r t -> dense (group (project_id r) (parent_id r) t)) ->
  all_dense t.
Proof.
  intros H proj par.
  destruct (group proj par t) as [|r g] eqn:E; [apply dense_nil|].
  assert (Hr : In r (group proj par t)) by (rewrite E; left; reflexivity).
  apply filter_In in Hr. destruct Hr as [Hr Hg]. apply in_group_spec in Hg.
  destruct Hg as [<- <-]. rewrite <- E. apply H. exact Hr.
Qed.

Lemma all_dense_check_sound t : all_dense_check t = true -> all_dense t.
Proof.
  unfold all_dense_check. rewrite forallb_forall. intros H.
  apply all_dense_by_rows. intros r Hr. apply dense_check_sound. auto.
Qed.

(** ** Dense groups stay dense *)

Lemma group_key_dec (a b : uuid * option uuid) : {a = b} + {a <> b}.
Proof. repeat decide equality; apply string_dec. Qed.

Lemma normalize_all_dense proj par t :
  NoDup (map note_id t) -> all_dense t ->
  all_dense (normalize_note_sequences proj par t).
Proof.
  intros H Hd proj' par'.
  destruct (group_key_dec (proj', par') (proj, par)) as [E|Hne].
  - injection E as -> ->. apply normalize_makes_dense. exact H.
  - rewrite group_normalize_other by assumption. apply Hd.
Qed.

Lemma move_all_dense t n r0 newp q :
  NoDup (map note_id t) -> find (has_note_id n) t = Some r0 -> all_dense t ->
  all_dense
    (repair (project_id r0) (parent_id r0) newp
       (park_shift_place n (project_id r0) (parent_id r0) (sequence r0) newp q t)).
Proof.
  intros H Hf Hd proj' par'.
  pose proof (park_shift_place_keeps_ids n (project_id r0) (parent_id r0)
                (sequence r0) newp q t) as Hids.
  unfold repair. destruct (not_distinct (parent_id r0) newp) eqn:Hp.
  - apply not_distinct_eq in Hp. subst newp.
    destruct (group_key_dec (proj', par') (project_id r0, parent_id r0)) as [E|Hne].
    + injection E as -> ->. apply normalize_makes_dense. rewrite Hids. exact H.
    + rewrite group_normalize_other; [| rewrite Hids; exact H | exact Hne].
      rewrite park_shift_place_same.
      rewrite (same_parent_other_groups t n r0 H Hf) by exact Hne. apply Hd.
  - set (t4 := park_shift_place n (project_id r0) (parent_id r0)
                 (sequence r0) newp q t) in *.
    assert (H4 : NoDup (map note_id t4)) by (rewrite Hids; exact H).
    assert (H5 : NoDup (map note_id
                   (normalize_note_sequences (project_id r0) (parent_id r0) t4)))
      by (rewrite normalize_keeps_ids; assumption).
    destruct (group_key_dec (proj', par') (project_id r0, newp)) as [E|Hne].
    + injection E as -> ->. apply normalize_makes_dense. exact H5.
    + rewrite group_normalize_other by assumption.
      destruct (group_key_dec (proj', par') (project_id r0, parent_id r0))
        as [E|Hne'].
      * injection E as -> ->. apply normalize_makes_dense. exact H4.
      * rewrite group_normalize_other by assumption.
        unfold t4. rewrite park_shift_place_other by exact Hp.
        rewrite (other_parent_other_groups t n r0 H Hf newp) by assumption.
        apply Hd.
Qed.

Lemma append_entry_dense t noteId projectId parentId :
  all_dense t ->
  all_dense
    (t ++ [mk_seq noteId projectId parentId
             (if get_next_sequence projectId parentId t =? 0 then 1
              else get_next_sequence projectId parentId t)]).
Proof.
  intros Hd proj par. unfold group. rewrite filter_app. simpl.
  destruct (in_group proj par _) eqn:Hg.
  - apply in_group_spec in Hg. simpl in Hg. destruct Hg as [<- <-].
    fold (group projectId parentId t).
    pose proof (Hd projectId parentId) as Hg.
    unfold get_next_sequence. rewrite (max_sequence_dense _ _ _ Hg).
    set (g := group projectId parentId t) in *.
    destruct (Z.eqb_spec (Z.of_nat (length g) + 1) 0) as [E|_]; [lia|].
    apply dense_of_bounds.
    + rewrite map_app. apply NoDup_app; [apply Hg | repeat constructor; auto |].
      intros z Hz [<-|[]]. apply Hg in Hz. simpl in Hz. lia.
    + intros r Hr. rewrite last_length. apply in_app_iff in Hr.
      destruct Hr as [Hr|[<-|[]]].
      * pose proof (dense_bounds g r Hg Hr). lia.
      * simpl. lia.
  - rewrite app_nil_r. apply Hd.
Qed.

(** ** Claims *)

(** C1, against the claim as it is written: deleting [B] from the dense root
    group [A:1, B:2, C:3] leaves [A:1, C:3], where 2 is missing and 3 exceeds
    the size of the group. *)
Lemma delete_leaves_gap :
  all_dense (note_sequences three_roots)
  /\ delete_note_tree 0 "B"%string three_roots = Ok roots_with_gap
  /\ ~ dense (group "p"%string None (note_sequences roots_with_gap)).
Proof.
  split; [apply all_dense_check_sound; reflexivity|].
  split; [reflexivity|].
  intros [_ H]. specialize (H 3). simpl in H.
  assert (1 <= 3 <= 2); [|lia]. apply H. auto.
Qed.

(** C1, amended: [normalize_note_sequences] leaves its target group with
    exactly the sequences 1..N, whatever it was; and when every sibling group
    is dense, every sibling group is dense again after a normalize, after a
    move and after a create.  After a delete the entries of a group are
    entries it had before, so no sequence occurs twice, but the sequences of
    the deleted notes are missing. *)
Theorem dense_groups_preserved (t : list seq_row) :
  NoDup (map note_id t) ->
  (forall proj par, dense (group proj par (normalize_note_sequences proj par t)))
  /\ (all_dense t ->
      (forall proj par, all_dense (normalize_note_sequences proj par t))
      /\ (forall now n newp pos ns st r0,
             find (has_note_id n) t = Some r0 ->
             exists db',
               move_note now n newp pos (mk_db ns t st) = Ok db'
               /\ all_dense (note_sequences db'))
      /\ (forall noteId projectId parentId ns st,
             exists db',
               create no_errors noteId projectId parentId (mk_db ns t st)
               = (Returned noteId, db')
               /\ all_dense (note_sequences db'))
      /\ (forall now root ns st,
             exists db',
               delete_note_tree now root (mk_db ns t st) = Ok db'
               /\ forall proj par,
                    NoDup (map sequence (group proj par (note_sequences db')))
                    /\ incl (group proj par (note_sequences db'))
                         (group proj par t))).
Proof.
  intros H. split; [intros; apply normalize_makes_dense; exact H|].
  intros Hd. split; [intros; apply normalize_all_dense; assumption|].
  split; [|split].
  - intros now n newp pos ns st r0 Hf. unfold move_note. simpl. rewrite Hf.
    eexists. split; [reflexivity|]. simpl. apply move_all_dense; assumption.
  - intros noteId projectId parentId ns st. unfold create. simpl.
    eexists. split; [reflexivity|]. simpl. unfold getNextSequence. simpl.
    apply append_entry_dense. exact Hd.
  - intros now root ns st. unfold delete_note_tree.
    eexists. split; [reflexivity|]. simpl. intros proj par.
    unfold cascade_sequences, sql_delete, group.
    rewrite (filter_swap (in_group proj par)).
    rewrite (filter_swap (in_group proj par) _ t).
    split.
    + apply filter_keeps_distinct, filter_keeps_distinct. apply (Hd proj par).
    + intros r Hr. apply filter_In in Hr. destruct Hr as [Hr _].
      apply filter_In in Hr. tauto.
Qed.

Lemma dense_groups_preserved_witness :
  (forall proj par,
      dense (group proj par
               (normalize_note_sequences proj par (note_sequences two_families))))
  /\ (exists db',
        move_note 0 "Q"%string (Some "Y"%string) 1 two_families = Ok db'
        /\ all_dense (note_sequences db')).
Proof.
  assert (U : NoDup (map note_id (note_sequences two_families)))
    by (apply unique_ids_check_sound; reflexivity).
  assert (D : all_dense (note_sequences two_families))
    by (apply all_dense_check_sound; reflexivity).
  destruct (dense_groups_preserved (note_sequences two_families) U) as [N P].
  split; [exact N|].
  destruct (P D) as [_ [M _]].
  exact (M 0 "Q"%string (Some "Y"%string) 1 (notes two_families)
           (settings two_families) (child_entry "Q"%string "X"%string 2) eq_refl).
Defined.

(** C2, against the claim as it is written: in the root group [A:1, C:3]
    that deleting [B] leaves behind, [move_note(A, NULL, 3)] does not leave
    [A] at 3 and [C] at 2: the normalization that closes the move renumbers
    the group, [C] ends at 1 and [A] at 2. *)
Lemma move_in_gapped_group_renumbers :
  sequence_of "A"%string (note_sequences roots_with_gap) = Some 1
  /\ sequence_of "C"%string (note_sequences roots_with_gap) = Some 3
  /\ exists db',
       move_note 7 "A"%string None 3 roots_with_gap = Ok db'
       /\ sequence_of "A"%string (note_sequences db') = Some 2
       /\ sequence_of "C"%string (note_sequences db') = Some 1.
Proof.
  split; [reflexivity|]. split; [reflexivity|].
  eexists. split; [reflexivity|]. split; reflexivity.
Qed.

(** C2, amended: a move that keeps the parent and returns normally.  STEP 1,
    3 and 4 of [move_note] turn the table into its image under
    [same_parent_image] at the clamped position: the entries of the group
    with sequence in (old, position] go down by one, those in
    [position, old) go up by one, the note receives the position, nothing
    else changes.  When the group is dense and the keys are unique this is
    the table the call returns, for the position brought into 1..N.  Whether
    the call returns is no part of the statement. *)
Theorem move_same_parent_shifts now n pos db db' r0 :
  find (has_note_id n) (note_sequences db) = Some r0 ->
  move_note now n (parent_id r0) pos db = Ok db' ->
  let t := note_sequences db in
  let proj := project_id r0 in
  let par := parent_id r0 in
  let old := sequence r0 in
  let q := clamp_position pos (max_sequence proj par t) in
  park_shift_place n proj par old par q t
  = map (same_parent_image n proj par old q) t
  /\ (NoDup (map note_id t) -> dense (group proj par t) ->
      note_sequences db'
      = map (same_parent_image n proj par old
               (Z.max 1 (Z.min pos (Z.of_nat (length (group proj par t))))))
          t).
Proof.
  intros Hf E t proj par old q. subst t proj par old q.
  split; [apply park_shift_place_same|].
  intros H Hd. unfold move_note in E. rewrite Hf in E.
  injection E as <-. simpl.
  apply (same_parent_final _ n r0 H Hf pos Hd).
Qed.

Lemma move_same_parent_shifts_witness :
  [root_entry "A" 2; root_entry "B" 1; root_entry "C" 3]
  = map (same_parent_image "B"%string "p"%string None 2 1)
      (note_sequences three_roots).
Proof.
  destruct (move_same_parent_shifts 0 "B"%string 1 three_roots
              (mk_db (notes three_roots)
                 [root_entry "A" 2; root_entry "B" 1; root_entry "C" 3]
                 [mk_settings "p"%string 3 0])
              (root_entry "B" 2) eq_refl eq_refl) as [_ F].
  apply F.
  - apply unique_ids_check_sound. reflexivity.
  - apply dense_check_sound. reflexivity.
Defined.

(** C3, against the claim as it is written: with the roots [A:1, C:3] and
    [C]'s child [D:1], [move_note(D, NULL, 1)] puts [D] first among the
    roots, but [C], whose sequence 3 is at least the position, is not one
    higher afterwards: the normalization of the new group gives [D:1, A:2,
    C:3]. *)
Lemma move_into_gapped_group_renumbers :
  sequence_of "C"%string (note_sequences gap_with_child) = Some 3
  /\ exists db',
       move_note 7 "D"%string None 1 gap_with_child = Ok db'
       /\ group "p"%string None (note_sequences db')
          = [root_entry "A" 2; root_entry "C" 3; root_entry "D" 1].
Proof.
  split; [reflexivity|]. eexists. split; reflexivity.
Qed.

(** C3, amended: a move to another parent that returns normally.  With X's
    children [P:1, Q:2] and Y's child [R:1], [move_note(Q, Y, 1)] leaves X
    with [P:1] and Y with [Q:1, R:2].  In general STEP 1, 3 and 4 turn the
    table into its image under [other_parent_image]: the entries of the old
    group above the old sequence go down by one, the entries of the new
    group from the position on go up by one, the note goes to the new group
    at the position; when both groups are dense and the keys are unique
    this is the table the call returns.  Whether the call returns is no part
    of the general statement. *)
Theorem move_other_parent_shifts :
  (exists db',
      move_note 0 "Q"%string (Some "Y"%string) 1 two_families = Ok db'
      /\ group "p"%string (Some "X"%string) (note_sequences db')
         = [child_entry "P" "X" 1]
      /\ group "p"%string (Some "Y"%string) (note_sequences db')
         = [child_entry "Q" "Y" 1; child_entry "R" "Y" 2])
  /\ forall now n newp pos db db' r0,
      find (has_note_id n) (note_sequences db) = Some r0 ->
      parent_id r0 <> newp ->
      move_note now n newp pos db = Ok db' ->
      let t := note_sequences db in
      let proj := project_id r0 in
      let oldp := parent_id r0 in
      let old := sequence r0 in
      let q := clamp_position pos (max_sequence proj newp t) in
      park_shift_place n proj oldp old newp q t
      = map (other_parent_image n proj oldp old newp q) t
      /\ (NoDup (map note_id t) ->
          dense (group proj oldp t) -> dense (group proj newp t) ->
          note_sequences db'
          = map (other_parent_image n proj oldp old newp q) t).
Proof.
  split.
  - eexists. split; [reflexivity|]. split; reflexivity.
  - intros now n newp pos db db' r0 Hf Hne E t proj oldp old q.
    subst t proj oldp old q. apply not_distinct_neq in Hne.
    split; [apply park_shift_place_other; exact Hne|].
    intros H Ho Hn. unfold move_note in E. rewrite Hf in E.
    injection E as <-. simpl.
    apply (other_parent_final _ n r0 H Hf newp Hne pos Ho Hn).
Qed.

Lemma move_other_parent_shifts_witness :
  [root_entry "X" 1; root_entry "Y" 2; child_entry "P" "X" 1;
   child_entry "Q" "Y" 1; child_entry "R" "Y" 2]
  = map (other_parent_image "Q"%string "p"%string (Some "X"%string) 2
           (Some "Y"%string) 1)
      (note_sequences two_families).
Proof.
  destruct move_other_parent_shifts as [_ G].
  destruct (G 0 "Q"%string (Some "Y"%string) 1 two_families
              (mk_db
                 [root_note "X"; root_note "Y"; child_note "P" "X";
                  child_note "Q" "Y"; child_note "R" "Y"]
                 [root_entry "X" 1; root_entry "Y" 2; child_entry "P" "X" 1;
                  child_entry "Q" "Y" 1; child_entry "R" "Y" 2]
                 [mk_settings "p"%string 5 0])
              (child_entry "Q" "X" 2) eq_refl) as [_ F].
  - discriminate.
  - reflexivity.
  - apply F.
    + apply unique_ids_check_sound. reflexivity.
    + apply dense_check_sound. reflexivity.
    + apply dense_check_sound. reflexivity.
Defined.

(** C5, against the claim as it is written: in the root group [A:1, C:3]
    that deleting [B] leaves behind, moving [A] to its own parent and its own
    sequence renumbers [C] from 3 to 2, and the project's
    [last_modified_at] is set. *)
Lemma move_to_own_place_renumbers :
  sequence_of "A"%string (note_sequences roots_with_gap) = Some 1
  /\ exists db',
      move_note 7 "A"%string None 1 roots_with_gap = Ok db'
      /\ sequence_of "C"%string (note_sequences roots_with_gap) = Some 3
      /\ sequence_of "C"%string (note_sequences db') = Some 2
      /\ note_sequences db' <> note_sequences roots_with_gap
      /\ settings db' <> settings roots_with_gap.
Proof.
  split; [reflexivity|]. eexists. split; [reflexivity|].
  repeat split; try reflexivity; discriminate.
Qed.

(** C5, amended: when the keys are unique and the note's sibling group is
    dense, a move to the note's own parent and own sequence returns a table
    [note_sequences] equal to the one it started from. *)
Theorem move_to_own_place_dense now n db r0 :
  NoDup (map note_id (note_sequences db)) ->
  find (has_note_id n) (note_sequences db) = Some r0 ->
  dense (group (project_id r0) (parent_id r0) (note_sequences db)) ->
  exists db',
    move_note now n (parent_id r0) (sequence r0) db = Ok db'
    /\ note_sequences db' = note_sequences db.
Proof.
  intros H Hf Hd. unfold move_note. rewrite Hf.
  eexists. split; [reflexivity|]. simpl.
  rewrite (same_parent_final _ n r0 H Hf (sequence r0) Hd).
  pose proof (dense_bounds _ r0 Hd (found_in_group _ n r0 Hf)) as Hb.
  replace (Z.max 1 (Z.min (sequence r0) _)) with (sequence r0) by lia.
  apply map_id_on. intros r Hr. unfold same_parent_image.
  destruct (has_note_id n r) eqn:Hn.
  - rewrite (note_row_is_found _ n r0 H Hf r Hr Hn).
    destruct r0; reflexivity.
  - destruct (in_group (project_id r0) (parent_id r0) r); simpl;
      destruct (Z.ltb_spec (sequence r0) (sequence r)),
        (Z.leb_spec (sequence r) (sequence r0)),
        (Z.leb_spec (sequence r0) (sequence r)),
        (Z.ltb_spec (sequence r) (sequence r0)); simpl; try reflexivity; lia.
Qed.

Lemma move_to_own_place_dense_witness :
  exists db',
    move_note 7 "B"%string None 2 three_roots = Ok db'
    /\ note_sequences db' = note_sequences three_roots.
Proof.
  apply (move_to_own_place_dense 7 "B"%string three_roots (root_entry "B" 2)).
  - apply unique_ids_check_sound. reflexivity.
  - reflexivity.
  - apply dense_check_sound. reflexivity.
Defined.

(** *** Where the moved note ends up *)

Lemma normalize_loop_keys ids : forall c t,
  map entry_key (normalize_loop ids c t) = map entry_key t.
Proof.
  induction ids as [|a ids IH]; intros c t; simpl; [reflexivity|].
  rewrite IH. unfold sql_update. rewrite map_map. apply map_ext.
  intros r. destruct (has_note_id a r); reflexivity.
Qed.

Lemma repair_keys proj oldp newp t :
  map entry_key (repair proj oldp newp t) = map entry_key t.
Proof.
  unfold repair, normalize_note_sequences.
  destruct (not_distinct oldp newp); rewrite !normalize_loop_keys; reflexivity.
Qed.

Lemma repair_keeps_ids proj oldp newp t :
  map note_id (repair proj oldp newp t) = map note_id t.
Proof.
  transitivity (map (fun k => fst (fst k))
                  (map entry_key (repair proj oldp newp t))).
  - rewrite map_map. reflexivity.
  - rewrite repair_keys, map_map. reflexivity.
Qed.

Lemma park_shift_place_rows n proj oldp old newp q t r4 :
  In r4 (park_shift_place n proj oldp old newp q t) ->
  exists r, In r t /\ note_id r4 = note_id r /\ project_id r4 = project_id r
            /\ (note_id r = n -> parent_id r4 = newp /\ sequence r4 = q).
Proof.
  intros H. destruct (not_distinct oldp newp) eqn:E.
  - apply not_distinct_eq in E. subst newp.
    rewrite park_shift_place_same in H. apply in_map_iff in H.
    destruct H as [r [<- Hr]]. exists r.
    destruct (same_parent_image_keeps n proj oldp old q r) as [E1 E2].
    repeat split; auto;
      unfold same_parent_image, has_note_id; rewrite H, uuid_eqb_refl; reflexivity.
  - rewrite park_shift_place_other in H by exact E. apply in_map_iff in H.
    destruct H as [r [<- Hr]]. exists r.
    destruct (other_parent_image_keeps n proj oldp old newp q r) as [E1 E2].
    repeat split; auto;
      unfold other_parent_image, has_note_id; rewrite H, uuid_eqb_refl; reflexivity.
Qed.

Lemma moved_note_rows n proj oldp old newp q t r :
  In r (repair proj oldp newp (park_shift_place n proj oldp old newp q t)) ->
  note_id r = n ->
  parent_id r = newp
  /\ exists r', In r' t /\ note_id r' = n /\ project_id r = project_id r'.
Proof.
  intros Hr Hn.
  assert (Hk : In (entry_key r)
                 (map entry_key (park_shift_place n proj oldp old newp q t))).
  { rewrite <- (repair_keys proj oldp newp). apply in_map. exact Hr. }
  apply in_map_iff in Hk. destruct Hk as [r4 [Ek H4]].
  unfold entry_key in Ek. injection Ek as E1 E2 E3.
  destruct (park_shift_place_rows _ _ _ _ _ _ _ _ H4) as [r' [Hr' [F1 [F2 F3]]]].
  assert (Hn' : note_id r' = n) by congruence.
  destruct (F3 Hn') as [G1 _]. split; [congruence|].
  exists r'. repeat split; auto. congruence.
Qed.

Lemma moved_note_present n proj oldp old newp q t r0 :
  find (has_note_id n) t = Some r0 ->
  exists r,
    In r (repair proj oldp newp (park_shift_place n proj oldp old newp q t))
    /\ note_id r = n.
Proof.
  intros Hf. destruct (find_has_note_id n t r0 Hf) as [Hin Hid].
  assert (Hk : In n (map note_id
                      (repair proj oldp newp
                         (park_shift_place n proj oldp old newp q t)))).
  { rewrite repair_keeps_ids, park_shift_place_keeps_ids.
    rewrite <- Hid. apply in_map. exact Hin. }
  apply in_map_iff in Hk. destruct Hk as [r [E Hr]]. exists r. auto.
Qed.

Lemma repair_group_length proj oldp newp t :
  NoDup (map note_id t) ->
  length (group proj newp (repair proj oldp newp t)) = length (group proj newp t).
Proof.
  intros H. unfold repair. destruct (not_distinct oldp newp).
  - rewrite group_normalize by exact H. apply length_map.
  - rewrite group_normalize by (rewrite normalize_keeps_ids; exact H).
    rewrite length_map, group_normalize by exact H. apply length_map.
Qed.

Lemma repair_new_group_dense proj oldp newp t :
  NoDup (map note_id t) ->
  dense (group proj newp (repair proj oldp newp t)).
Proof.
  intros H. unfold repair. destruct (not_distinct oldp newp) eqn:E.
  - apply not_distinct_eq in E. subst. apply normalize_makes_dense. exact H.
  - apply normalize_makes_dense. rewrite normalize_keeps_ids; exact H.
Qed.

Lemma moved_group_length t n r0 newp q :
  NoDup (map note_id t) -> find (has_note_id n) t = Some r0 ->
  Z.of_nat
    (length
       (group (project_id r0) newp
          (park_shift_place n (project_id r0) (parent_id r0) (sequence r0)
             newp q t)))
  = Z.of_nat (length (group (project_id r0) newp t))
    + (if not_distinct (parent_id r0) newp then 0 else 1).
Proof.
  intros H Hf. destruct (not_distinct (parent_id r0) newp) eqn:E.
  - apply not_distinct_eq in E. subst newp.
    rewrite park_shift_place_same, (same_parent_group t n r0 H Hf), length_map.
    lia.
  - rewrite park_shift_place_other by exact E.
    rewrite (other_parent_new_group t n r0 H Hf), length_map.
    rewrite (other_parent_new_length t n r0 H Hf newp E). lia.
Qed.

Lemma moved_note_sequence n proj oldp old newp q t r0 :
  find (has_note_id n) t = Some r0 ->
  sequence_of n (park_shift_place n proj oldp old newp q t) = Some q.
Proof.
  intros Hf. unfold sequence_of.
  destruct (find (has_note_id n) (park_shift_place n proj oldp old newp q t))
    as [r4|] eqn:F.
  - apply find_some in F. destruct F as [H4 Hn]. apply uuid_eqb_eq in Hn.
    destruct (park_shift_place_rows _ _ _ _ _ _ _ _ H4)
      as [r [_ [E1 [_ E3]]]].
    simpl. f_equal. apply E3. congruence.
  - exfalso. destruct (find_has_note_id n t r0 Hf) as [Hin Hid].
    assert (Hk : In n (map note_id
                         (park_shift_place n proj oldp old newp q t))).
    { rewrite park_shift_place_keeps_ids, <- Hid. apply in_map. exact Hin. }
    apply in_map_iff in Hk. destruct Hk as [r [E Hr]].
    apply (find_none _ _ F) in Hr. unfold has_note_id in Hr.
    rewrite E, uuid_eqb_refl in Hr. discriminate.
Qed.

(** C4, against the claim as it is written: the [move_note] of
    [unnamed/part_001] (the same text as the one of the second complete
    schema), asked to move [A] past the end of its own group of three,
    leaves it at 4, outside 1..3. *)
Lemma move_past_end_lands_outside :
  length (group "p"%string None (note_sequences three_roots)) = 3%nat
  /\ exists b,
       CompleteSchemaB.move_note "A"%string None 9 three_roots = Ok b
       /\ sequence_of "A"%string (note_sequences b) = Some 4.
Proof.
  split; [reflexivity|]. eexists. split; reflexivity.
Qed.

(** C4, amended: the position of a move is brought into 1..max + 1, max
    being the largest sequence of the target group, whether the parent
    changes or not.  A call of the version without STEP 5 that returns leaves
    the note at exactly that position.  A call of the last version that
    returns leaves the note in the target group with a sequence in
    1..max_valid, max_valid being the size of the target group when the
    parent stays and the size plus one when it changes, and when the groups
    involved are dense the sequence is the requested position clamped into
    that range. *)
Theorem move_position_clamped now n newp pos db r0 :
  NoDup (map note_id (note_sequences db)) ->
  find (has_note_id n) (note_sequences db) = Some r0 ->
  let t := note_sequences db in
  let max_valid :=
    Z.of_nat (length (group (project_id r0) newp t))
    + (if not_distinct (parent_id r0) newp then 0 else 1) in
  (forall b,
     CompleteSchemaB.move_note n newp pos db = Ok b ->
     sequence_of n (note_sequences b)
     = Some (Z.max 1
               (Z.min pos (max_sequence (project_id r0) newp t + 1))))
  /\ (forall db',
        move_note now n newp pos db = Ok db' ->
        (exists r, In r (note_sequences db') /\ note_id r = n)
        /\ forall r, In r (note_sequences db') -> note_id r = n ->
             parent_id r = newp
             /\ 1 <= sequence r <= max_valid
             /\ (dense (group (project_id r0) (parent_id r0) t) ->
                 dense (group (project_id r0) newp t) ->
                 sequence r = Z.max 1 (Z.min pos max_valid))).
Proof.
  intros H Hf t max_valid. subst t. split.
  { intros b E. unfold CompleteSchemaB.move_note in E. rewrite Hf in E.
    injection E as <-. simpl. rewrite kept_parent_park.
    apply (moved_note_sequence _ _ _ _ _ _ _ r0 Hf). }
  intros db' E. unfold move_note in E. rewrite Hf in E.
  injection E as <-. simpl.
  set (t := note_sequences db) in *.
  set (q := clamp_position pos (max_sequence (project_id r0) newp t)).
  set (t4 := park_shift_place n (project_id r0) (parent_id r0) (sequence r0)
               newp q t).
  assert (H4 : NoDup (map note_id t4))
    by (unfold t4; rewrite park_shift_place_keeps_ids; exact H).
  split; [apply (moved_note_present _ _ _ _ _ _ _ r0 Hf)|].
  intros r Hr Hn.
  destruct (moved_note_rows _ _ _ _ _ _ _ _ Hr Hn) as [Hp [r' [Hr' [Hn' Hproj]]]].
  assert (r' = r0).
  { apply (note_row_is_found t n r0 H Hf r' Hr').
    unfold has_note_id. rewrite Hn'. apply uuid_eqb_refl. }
  subst r'. split; [exact Hp|]. split.
  - assert (Hg : In r (group (project_id r0) newp
                         (repair (project_id r0) (parent_id r0) newp t4))).
    { apply filter_In. split; [exact Hr|]. apply in_group_spec. auto. }
    pose proof (dense_bounds _ r (repair_new_group_dense _ _ _ _ H4) Hg) as Hb.
    rewrite repair_group_length in Hb by exact H4.
    unfold t4 in Hb. rewrite (moved_group_length t n r0 newp q H Hf) in Hb.
    exact Hb.
  - intros Ho Hnw. unfold max_valid.
    destruct (not_distinct (parent_id r0) newp) eqn:E.
    + apply not_distinct_eq in E. subst newp.
      unfold t4, q in Hr. rewrite (same_parent_final t n r0 H Hf pos Ho) in Hr.
      apply in_map_iff in Hr. destruct Hr as [x [<- Hx]].
      destruct (same_parent_image_keeps n (project_id r0) (parent_id r0)
                  (sequence r0)
                  (Z.max 1 (Z.min pos
                     (Z.of_nat (length (group (project_id r0) (parent_id r0) t)))))
                  x) as [E1 _].
      rewrite E1 in Hn. unfold same_parent_image, has_note_id.
      rewrite Hn, uuid_eqb_refl. simpl. f_equal. f_equal. lia.
    + unfold t4, q in Hr.
      rewrite (other_parent_final t n r0 H Hf newp E pos Ho Hnw) in Hr.
      apply in_map_iff in Hr. destruct Hr as [x [<- Hx]].
      destruct (other_parent_image_keeps n (project_id r0) (parent_id r0)
                  (sequence r0) newp
                  (clamp_position pos (max_sequence (project_id r0) newp t))
                  x) as [E1 _].
      rewrite E1 in Hn. unfold other_parent_image, has_note_id.
      rewrite Hn, uuid_eqb_refl. simpl. unfold clamp_position.
      rewrite (max_sequence_dense _ _ _ Hnw). reflexivity.
Qed.

Lemma move_position_clamped_witness :
  sequence_of "A"%string
    [root_entry "A" 4; root_entry "B" 1; root_entry "C" 2]
  = Some 4
  /\ sequence_of "A"%string
       [root_entry "A" 1; root_entry "B" 2; root_entry "C" 3]
     = Some 1.
Proof.
  destruct (move_position_clamped 7 "A"%string None 10 three_roots
              (root_entry "A" 1)) as [F _].
  - apply unique_ids_check_sound. reflexivity.
  - reflexivity.
  - destruct (move_position_clamped 7 "A"%string None (-5) three_roots
                (root_entry "A" 1)) as [G _].
    + apply unique_ids_check_sound. reflexivity.
    + reflexivity.
    + split.
      * apply (F (mk_db (notes three_roots)
                    [root_entry "A" 4; root_entry "B" 1; root_entry "C" 2]
                    (settings three_roots))).
        reflexivity.
      * apply (G (mk_db (notes three_roots)
                    [root_entry "A" 1; root_entry "B" 2; root_entry "C" 3]
                    (settings three_roots))).
        reflexivity.
Defined.

(** C6, against the claim as it is written: [move_note] accepts the note
    itself as its new parent, and accepts its own child; both calls return
    normally and re-parent the note, the second one leaving the two notes
    as each other's parent. *)
Lemma move_under_own_subtree_accepted :
  move_note 7 "A"%string (Some "A"%string) 1 parent_and_child
  = Ok (mk_db
          [child_note "A" "A"; child_note "B" "A"]
          [child_entry "A" "A" 1; child_entry "B" "A" 2]
          [mk_settings "p"%string 2 7])
  /\ move_note 7 "A"%string (Some "B"%string) 1 parent_and_child
     = Ok (mk_db
             [child_note "A" "B"; child_note "B" "A"]
             [child_entry "A" "B" 1; child_entry "B" "A" 1]
             [mk_settings "p"%string 2 7]).
Proof. split; reflexivity. Qed.

(** C6, amended: [move_note] has no cycle rule.  No request is told apart
    by its new parent: whenever a call returns, the new parent being the
    note itself or one of its descendants included, the note's entry and the
    note's row have the new parent. *)
Theorem move_has_no_cycle_check now n newp pos db db' :
  move_note now n newp pos db = Ok db' ->
  (exists r, In r (note_sequences db') /\ note_id r = n)
  /\ (forall r, In r (note_sequences db') -> note_id r = n ->
        parent_id r = newp)
  /\ (forall x, In x (notes db') -> id x = n -> n_parent_id x = newp).
Proof.
  intros E. unfold move_note in E.
  destruct (find (has_note_id n) (note_sequences db)) as [r0|] eqn:Hf;
    [|discriminate].
  injection E as <-. simpl.
  split; [apply (moved_note_present _ _ _ _ _ _ _ r0 Hf)|]. split.
  - intros r Hr Hn. apply (moved_note_rows _ _ _ _ _ _ _ _ Hr Hn).
  - intros x Hx Hn. unfold sql_update in Hx. apply in_map_iff in Hx.
    destruct Hx as [y [<- Hy]].
    destruct (uuid_eqb (id y) n) eqn:E; [reflexivity|].
    apply uuid_eqb_neq in E. contradiction.
Qed.

Lemma move_has_no_cycle_check_witness :
  (exists r,
      In r [child_entry "A" "B" 1; child_entry "B" "A" 1]
      /\ note_id r = "A"%string)
  /\ (forall r, In r [child_entry "A" "B" 1; child_entry "B" "A" 1] ->
        note_id r = "A"%string -> parent_id r = Some "B"%string)
  /\ (forall x, In x [child_note "A" "B"; child_note "B" "A"] ->
        id x = "A"%string -> n_parent_id x = Some "B"%string).
Proof.
  apply (move_has_no_cycle_check 7 "A"%string (Some "B"%string) 1
           parent_and_child
           (mk_db
              [child_note "A" "B"; child_note "B" "A"]
              [child_entry "A" "B" 1; child_entry "B" "A" 1]
              [mk_settings "p"%string 2 7])).
  reflexivity.
Defined.

(** *** delete_note_tree *)

Lemma chain_row_In k j : (j <= k)%nat -> In (chain_row j) (notes (chain k)).
Proof.
  intros H. simpl notes. change (chain_row 0 :: map chain_row (seq 1 k))
    with (map chain_row (seq 0 (S k))).
  apply in_map. apply in_seq. lia.
Qed.

Lemma chain_row_depth k j :
  (j <= k)%nat ->
  row_at_depth (notes (chain k)) (chain_id 0) (S j) (chain_row j).
Proof.
  induction j as [|j IH]; intros H.
  - apply depth_root; [apply chain_row_In; lia | reflexivity].
  - apply (depth_child _ _ (S j) (chain_row j));
      [apply IH; lia | apply chain_row_In; lia | reflexivity].
Qed.

(** C7, against the claim as it is written: in a chain of 51 notes the last
    one is 51 levels deep.  [delete_note_tree] on the root collects 50 notes,
    not the last one, and returns normally: nothing reports that the depth
    limit was reached.  (The last note is removed all the same, by the
    cascade of [notes.parent_id].) *)
Lemma deep_tree_deleted_without_report :
  row_at_depth (notes (chain 50)) (chain_id 0) 51 (chain_row 50)
  /\ length (notes_to_delete (notes (chain 50)) (chain_id 0)) = 50%nat
  /\ ~ In (chain_id 50) (notes_to_delete (notes (chain 50)) (chain_id 0))
  /\ delete_note_tree 7 (chain_id 0) (chain 50)
     = Ok (mk_db [] [] [mk_settings "p"%string 0 7]).
Proof.
  split; [apply chain_row_depth; lia|].
  split; [vm_compute; reflexivity|].
  split; [apply mem_not_In; vm_compute; reflexivity|].
  vm_compute. reflexivity.
Qed.

Lemma deleted_rows_gone now root db db' d r :
  delete_note_tree now root db = Ok db' ->
  row_at_depth (notes db) root d r -> ~ In r (notes db').
Proof.
  intros E Hd. unfold delete_note_tree in E. injection E as <-. simpl.
  induction Hd as [r Hin Hid | d p c Hp IH Hin Hpar]; intros Hr;
    apply delete_from_notes_spec in Hr; destruct Hr as [_ [Hw Hcl]].
  - apply mem_not_In in Hw. apply Hw. apply notes_to_delete_spec.
    exists 1%nat, r. split; [lia|]. split; [|reflexivity].
    apply depth_root; assumption.
  - apply (Hcl p); [apply (row_at_depth_In _ _ _ _ Hp) | exact IH | exact Hpar].
Qed.

(** C7, amended: [delete_note_tree] has no report for the depth limit; it
    always returns normally.  Its traversal collects the notes at depths 1
    to 50 below the root (the root being at depth 1) and no other; deeper
    notes are left out of the collected array silently, and every note of
    the subtree, at any depth, is gone from [notes] afterwards, the deeper
    ones through the cascade of the foreign key [notes.parent_id]. *)
Theorem delete_note_tree_depth now root db :
  exists db',
    delete_note_tree now root db = Ok db'
    /\ (forall i, In i (notes_to_delete (notes db) root) <->
          exists d r, (1 <= d <= 50)%nat
                      /\ row_at_depth (notes db) root d r /\ id r = i)
    /\ (forall d r, row_at_depth (notes db) root d r -> ~ In r (notes db')).
Proof.
  eexists. split; [reflexivity|]. split; [apply notes_to_delete_spec|].
  intros d r. apply (deleted_rows_gone now root db). reflexivity.
Qed.

Lemma delete_note_tree_depth_witness :
  exists db',
    delete_note_tree 7 (chain_id 0) (chain 50) = Ok db'
    /\ ~ In (chain_row 50) (notes db').
Proof.
  destruct (delete_note_tree_depth 7 (chain_id 0) (chain 50))
    as [db' [E [_ G]]].
  exists db'. split; [exact E|].
  apply (G 51%nat). apply chain_row_depth. lia.
Defined.

(** C9, against the claim as it is written: [B] is a root note in [notes]
    while its entry records [A] as parent.  Deleting [A] leaves the note [B]
    and takes its entry away: the foreign key of [note_sequences.parent_id]
    cascades. *)
Lemma delete_drops_entry_of_survivor :
  In (child_entry "B" "A" 1) (note_sequences entry_under_other_parent)
  /\ exists db',
       delete_note_tree 7 "A"%string entry_under_other_parent = Ok db'
       /\ In (root_note "B") (notes db')
       /\ sequence_of "B"%string (note_sequences db') = None.
Proof.
  split; [simpl; auto|]. eexists. split; [reflexivity|].
  split; [simpl; auto | reflexivity].
Qed.

(** C9, amended: [delete_note_tree] only removes rows of [note_sequences].
    Every entry it leaves was there before, with the same parent and the
    same sequence, and the entry of a note that is still in [notes] is still
    there when it records the parent that the note's row has: no sibling
    group is renumbered. *)
Theorem delete_keeps_surviving_entries now root db db' :
  delete_note_tree now root db = Ok db' ->
  (forall r, In r (note_sequences db') -> In r (note_sequences db))
  /\ (forall r x,
        In r (note_sequences db) ->
        In x (notes db') -> id x = note_id r -> n_parent_id x = parent_id r ->
        In r (note_sequences db')).
Proof.
  intros E. unfold delete_note_tree in E. injection E as <-. simpl. split.
  - intros r Hr. unfold cascade_sequences, sql_delete in Hr.
    apply filter_In in Hr. destruct Hr as [Hr _].
    apply filter_In in Hr. tauto.
  - intros r x Hr Hx Hid Hpar.
    set (to_delete := notes_to_delete (notes db) root) in *.
    set (notes' := delete_from_notes (fun n => mem (id n) to_delete) (notes db))
      in *.
    destruct (delete_from_notes_spec _ _ _ Hx) as [Hin [Hw Hcl]].
    unfold cascade_sequences, sql_delete.
    apply filter_In. split.
    + apply filter_In. split; [exact Hr|]. rewrite <- Hid, Hw. reflexivity.
    + apply negb_true_iff. apply orb_false_iff. split.
      * apply mem_not_In. intros Hrem. apply removed_ids_spec in Hrem.
        destruct Hrem as [_ Hrem]. apply Hrem. rewrite <- Hid.
        apply in_map. exact Hx.
      * destruct (parent_id r) as [p|] eqn:Ep; [|reflexivity].
        unfold refers_to. apply mem_not_In. intros Hrem.
        apply removed_ids_spec in Hrem. destruct Hrem as [Hb Ha].
        apply in_map_iff in Hb. destruct Hb as [y [Ey Hy]].
        apply (Hcl y Hy).
        -- intros Hy'. apply Ha. rewrite <- Ey. apply in_map. exact Hy'.
        -- rewrite Hpar, Ey. reflexivity.
Qed.

Lemma delete_keeps_surviving_entries_witness :
  In (root_entry "C" 3) (note_sequences roots_with_gap)
  /\ forall r, In r (note_sequences roots_with_gap) ->
       In r (note_sequences three_roots).
Proof.
  destruct (delete_keeps_surviving_entries 0 "B"%string three_roots
              roots_with_gap eq_refl) as [F G].
  split; [|exact F].
  apply (G (root_entry "C" 3) (root_note "C")).
  - simpl. auto.
  - simpl. auto.
  - reflexivity.
  - reflexivity.
Defined.

(** *** normalize_note_sequences on ties *)

Lemma index_of_nth ids : forall k n,
  NoDup ids -> nth_error ids k = Some n -> index_of n ids = Some k.
Proof.
  induction ids as [|a ids IH]; intros k n H E; [destruct k; discriminate|].
  inversion H as [|x xs Hnin Hnd]; subst. destruct k as [|k]; simpl in *.
  - injection E as ->. rewrite uuid_eqb_refl. reflexivity.
  - destruct (uuid_eqb a n) eqn:Ea.
    + apply uuid_eqb_eq in Ea. subst a. exfalso. apply Hnin.
      apply (nth_error_In _ _ E).
    + rewrite (IH k n Hnd E). reflexivity.
Qed.

Lemma find_map_unique (f : seq_row -> seq_row) t r :
  (forall x, note_id (f x) = note_id x) ->
  NoDup (map note_id t) -> In r t ->
  find (has_note_id (note_id r)) (map f t) = Some (f r).
Proof.
  intros Hk. induction t as [|a t IH]; simpl; intros H Hin; [contradiction|].
  inversion H as [|x xs Hnin Hnd]; subst. unfold has_note_id at 1. rewrite Hk.
  destruct Hin as [->|Hin].
  - rewrite uuid_eqb_refl. reflexivity.
  - destruct (uuid_eqb (note_id a) (note_id r)) eqn:E.
    + apply uuid_eqb_eq in E. exfalso. apply Hnin. rewrite E.
      apply in_map. exact Hin.
    + apply IH; assumption.
Qed.




(** *** noteOperations.create *)

(** C10, against the claim as it is written: when the insert of the sequence
    entry fails and the cleanup delete fails as well, [create] throws and the
    note row stays in [notes] with no entry in [note_sequences]. *)
Lemma create_cleanup_can_fail :
  exists db',
    create (mk_responses false true true) "N"%string "p"%string None
      three_roots
    = (Thrown FailedToCreateNoteSequence, db')
    /\ In (root_note "N") (notes db')
    /\ sequence_of "N"%string (note_sequences db') = None.
Proof.
  eexists. split; [reflexivity|]. split; [simpl; auto 10 | reflexivity].
Qed.

(** C10, amended: when the insert of the sequence entry fails after the note
    row was inserted, [create] sends the delete of the note row before it
    throws; when that delete is carried out, no row of [notes] has the new
    identifier afterwards and [note_sequences] has gained nothing.  The
    answer to the delete is not looked at. *)
Theorem create_cleans_up_when_delete_succeeds env noteId projectId parentId db :
  note_insert_error env = false ->
  sequence_insert_error env = true ->
  cleanup_delete_error env = false ->
  exists db',
    create env noteId projectId parentId db
    = (Thrown FailedToCreateNoteSequence, db')
    /\ (forall x, In x (notes db') -> id x <> noteId /\ In x (notes db))
    /\ (forall r, In r (note_sequences db') -> In r (note_sequences db))
    /\ settings db' = settings db.
Proof.
  intros H1 H3 H4. unfold create. rewrite H1, H3, H4.
  eexists. split; [reflexivity|]. simpl. split; [|split; [|reflexivity]].
  - intros x Hx. apply delete_from_notes_spec in Hx.
    destruct Hx as [Hin [Hw _]]. apply uuid_eqb_neq in Hw.
    split; [exact Hw|]. apply in_app_iff in Hin.
    destruct Hin as [Hin|[<-|[]]]; [exact Hin|]. simpl in Hw. congruence.
  - intros r Hr. unfold cascade_sequences, sql_delete in Hr.
    apply filter_In in Hr. tauto.
Qed.

Lemma create_cleans_up_when_delete_succeeds_witness :
  exists db',
    create (mk_responses false true false) "N"%string "p"%string None
      three_roots
    = (Thrown FailedToCreateNoteSequence, db')
    /\ (forall x, In x (notes db') ->
          id x <> "N"%string /\ In x (notes three_roots))
    /\ (forall r, In r (note_sequences db') -> In r (note_sequences three_roots))
    /\ settings db' = settings three_roots.
Proof.
  apply (create_cleans_up_when_delete_succeeds
           (mk_responses false true false) "N"%string "p"%string None
           three_roots); reflexivity.
Defined.

(** * Further properties of the procedures *)

(** ** get_next_sequence *)

(** X1: when no entry of the group holds 2147483647, the largest value of
    the column, so that the addition stays within [integer], the value of
    [get_next_sequence] is above the sequence of every entry of the group,
    it is at most 2147483647, and it is 1 for the group without entries. *)
Theorem get_next_sequence_above proj par t :
  (forall r, In r (group proj par t) -> sequence r < 2147483647) ->
  (forall r, In r (group proj par t) ->
     sequence r < get_next_sequence proj par t)
  /\ get_next_sequence proj par t <= 2147483647
  /\ (group proj par t = [] -> get_next_sequence proj par t = 1).
Proof.
  intros Hb. unfold get_next_sequence, max_sequence. split; [|split].
  - intros r Hr. apply (in_map sequence) in Hr.
    destruct (map sequence (group proj par t)) as [|s ss]; [contradiction|].
    destruct (fold_max_spec ss s) as [_ Hle]. specialize (Hle _ Hr). lia.
  - destruct (map sequence (group proj par t)) as [|s ss] eqn:E; [lia|].
    destruct (fold_max_spec ss s) as [Hin _]. rewrite <- E in Hin.
    apply in_map_iff in Hin. destruct Hin as [r [Er Hr]].
    specialize (Hb r Hr). lia.
  - intros ->. reflexivity.
Qed.

Lemma get_next_sequence_above_witness :
  get_next_sequence "p"%string None (note_sequences three_roots) <= 2147483647.
Proof.
  apply (get_next_sequence_above "p"%string None (note_sequences three_roots)).
  intros r Hr. simpl in Hr.
  destruct Hr as [<-|[<-|[<-|[]]]]; simpl; lia.
Defined.

(** ** normalize_note_sequences *)

Lemma normalized_sequence_at proj par t k r :
  NoDup (map note_id t) ->
  nth_error (order_by_sequence (group proj par t)) k = Some r ->
  sequence_of (note_id r) (normalize_note_sequences proj par t)
  = Some (1 + Z.of_nat k).
Proof.
  intros H E. rewrite normalize_ranked by exact H.
  assert (Hr : In r t).
  { apply nth_error_In in E. apply (proj1 (order_by_sequence_In _ _)) in E.
    apply filter_In in E. tauto. }
  unfold sequence_of.
  rewrite (find_map_unique _ t r (fun x => proj1 (ranked_keeps _ _ x)) H Hr).
  simpl. unfold ranked.
  rewrite (index_of_nth (ranking proj par t) k (note_id r)).
  - reflexivity.
  - apply ranking_NoDup. exact H.
  - unfold ranking. rewrite nth_error_map, E. reflexivity.
Qed.

Lemma sorted_nth_order (l : list seq_row) : forall i j a b,
  StronglySorted by_sequence l ->
  nth_error l i = Some a -> nth_error l j = Some b -> (i < j)%nat ->
  sequence a <= sequence b.
Proof.
  induction l as [|x l IH]; intros i j a b Hs Ea Eb Hlt.
  - destruct i; discriminate.
  - inversion Hs as [|y ys Hs' Hall]; subst.
    destruct j as [|j]; [lia|]. simpl in Eb.
    destruct i as [|i]; simpl in Ea.
    + injection Ea as ->. rewrite Forall_forall in Hall.
      apply Hall. apply (nth_error_In _ _ Eb).
    + apply (IH i j); auto. lia.
Qed.

(** X2: [normalize_note_sequences] applied twice gives what it gives applied
    once. *)
Theorem normalize_idempotent proj par t :
  NoDup (map note_id t) ->
  normalize_note_sequences proj par (normalize_note_sequences proj par t)
  = normalize_note_sequences proj par t.
Proof.
  intros H. apply normalize_dense_noop.
  - rewrite normalize_keeps_ids; exact H.
  - apply normalize_makes_dense. exact H.
Qed.

Lemma normalize_idempotent_witness :
  normalize_note_sequences "p"%string None
    (normalize_note_sequences "p"%string None tied_B_first)
  = normalize_note_sequences "p"%string None tied_B_first.
Proof.
  apply normalize_idempotent. apply unique_ids_check_sound. reflexivity.
Defined.

(** X3: [normalize_note_sequences] never swaps two entries of its group: of
    two entries the one with the smaller sequence before has the smaller
    sequence after. *)
Theorem normalize_keeps_order proj par t a b :
  NoDup (map note_id t) ->
  In a (group proj par t) -> In b (group proj par t) ->
  sequence a < sequence b ->
  exists sa sb,
    sequence_of (note_id a) (normalize_note_sequences proj par t) = Some sa
    /\ sequence_of (note_id b) (normalize_note_sequences proj par t) = Some sb
    /\ sa < sb.
Proof.
  intros H Ha Hb Hlt.
  apply order_by_sequence_In in Ha. apply order_by_sequence_In in Hb.
  apply In_nth_error in Ha. apply In_nth_error in Hb.
  destruct Ha as [i Ei]. destruct Hb as [j Ej].
  exists (1 + Z.of_nat i), (1 + Z.of_nat j).
  split; [apply normalized_sequence_at; assumption|].
  split; [apply normalized_sequence_at; assumption|].
  destruct (Nat.lt_trichotomy i j) as [Hij|[Hij|Hij]]; [lia | |].
  - subst j. rewrite Ei in Ej. injection Ej as ->. lia.
  - pose proof (sorted_nth_order _ j i b a
                  (order_by_sequence_sorted _) Ej Ei Hij). lia.
Qed.

Lemma normalize_keeps_order_witness :
  exists sa sb,
    sequence_of "C"%string (normalize_note_sequences "p"%string None tied_B_first)
    = Some sa
    /\ sequence_of "A"%string
         (normalize_note_sequences "p"%string None tied_B_first) = Some sb
    /\ sa < sb.
Proof.
  apply (normalize_keeps_order "p"%string None tied_B_first
           (root_entry "C" 1) (root_entry "A" 2)).
  - apply unique_ids_check_sound. reflexivity.
  - simpl. auto.
  - simpl. auto.
  - simpl. lia.
Defined.

(** ** normalize_sequences *)

Lemma find_row_number n ids : forall c,
  find (fun p : uuid * Z => uuid_eqb n (fst p))
    (combine ids (map Z.of_nat (seq c (length ids))))
  = option_map (fun k => (n, Z.of_nat (c + k))) (index_of n ids).
Proof.
  induction ids as [|x ids IH]; intros c; [reflexivity|].
  simpl. rewrite (uuid_eqb_sym n x).
  destruct (uuid_eqb x n) eqn:E.
  - apply uuid_eqb_eq in E. subst x. simpl. rewrite Nat.add_0_r. reflexivity.
  - rewrite IH. destruct (index_of n ids); simpl; [|reflexivity].
    do 3 f_equal. lia.
Qed.

Lemma update_from_row_numbers g t :
  update_from (row_numbers g) t
  = map (ranked (map note_id (order_by_sequence g)) 1) t.
Proof.
  unfold update_from, row_numbers. apply map_ext. intros r.
  rewrite <- (order_by_sequence_length g).
  rewrite <- (length_map note_id (order_by_sequence g)).
  rewrite find_row_number. unfold ranked.
  destruct (index_of (note_id r) (map note_id (order_by_sequence g)));
    [|reflexivity].
  cbv [option_map snd]. f_equal. lia.
Qed.

Lemma children_filter_is_group proj par t :
  filter
    (fun r => uuid_eqb (project_id r) proj && sql_eq (parent_id r) (Some par)) t
  = group proj (Some par) t.
Proof.
  unfold group. apply filter_ext. intros r. unfold in_group.
  destruct (parent_id r); reflexivity.
Qed.

Lemma normalize_sequences_step proj par t :
  NoDup (map note_id t) ->
  update_from
    (row_numbers
       (filter
          (fun r => uuid_eqb (project_id r) proj
                    && sql_eq (parent_id r) (Some par)) t)) t
  = normalize_note_sequences proj (Some par) t.
Proof.
  intros H. rewrite children_filter_is_group, update_from_row_numbers.
  symmetry. apply normalize_ranked. exact H.
Qed.

Lemma normalize_keeps_dense proj par proj' par' t :
  NoDup (map note_id t) -> dense (group proj' par' t) ->
  dense (group proj' par' (normalize_note_sequences proj par t)).
Proof.
  intros H Hd.
  destruct (group_key_dec (proj', par') (proj, par)) as [E|Hne].
  - injection E as -> ->. apply normalize_makes_dense. exact H.
  - rewrite group_normalize_other by assumption. exact Hd.
Qed.

Lemma normalize_keeps_other_rows proj par t r :
  NoDup (map note_id t) -> In r t -> in_group proj par r = false ->
  In r (normalize_note_sequences proj par t).
Proof.
  intros H Hr Hg. rewrite normalize_ranked by exact H.
  apply in_map_iff. exists r. split; [|exact Hr].
  apply (ranked_outside proj par t); assumption.
Qed.

Lemma distinct_parents_In proj t r p :
  In r t -> project_id r = proj -> parent_id r = Some p ->
  In p (distinct_parents proj t).
Proof.
  induction t as [|a t IH]; simpl; intros Hr Hp Hpar; [contradiction|].
  destruct Hr as [->|Hr].
  - rewrite Hpar, Hp, uuid_eqb_refl. simpl.
    destruct (existsb (uuid_eqb p) (distinct_parents proj t)) eqn:E; simpl.
    + apply (proj1 (mem_In _ _)). exact E.
    + left. reflexivity.
  - specialize (IH Hr Hp Hpar).
    destruct (parent_id a) as [q|]; [|exact IH].
    destruct (uuid_eqb (project_id a) proj
              && negb (existsb (uuid_eqb q) (distinct_parents proj t)));
      [right|]; exact IH.
Qed.

Lemma normalize_children_fold proj ps : forall acc,
  NoDup (map note_id acc) ->
  fold_left
    (fun acc par =>
       update_from
         (row_numbers
            (filter
               (fun r => uuid_eqb (project_id r) proj
                         && sql_eq (parent_id r) (Some par)) acc))
         acc)
    ps acc
  = fold_left (fun acc par => normalize_note_sequences proj (Some par) acc)
      ps acc.
Proof.
  induction ps as [|p ps IH]; intros acc H; [reflexivity|].
  simpl. rewrite normalize_sequences_step by exact H.
  apply IH. rewrite normalize_keeps_ids; exact H.
Qed.

Lemma normalize_fold_properties proj ps : forall acc,
  NoDup (map note_id acc) ->
  let res :=
    fold_left (fun acc par => normalize_note_sequences proj (Some par) acc)
      ps acc in
  map note_id res = map note_id acc
  /\ (forall proj' par',
        dense (group proj' par' acc) -> dense (group proj' par' res))
  /\ (forall p, In p ps -> dense (group proj (Some p) res))
  /\ (forall r, In r acc -> project_id r <> proj -> In r res).
Proof.
  induction ps as [|p ps IH]; intros acc H; simpl.
  - split; [reflexivity|]. split; [auto|]. split; [intros p []|auto].
  - assert (H' : NoDup (map note_id
                          (normalize_note_sequences proj (Some p) acc)))
      by (rewrite normalize_keeps_ids; exact H).
    destruct (IH _ H') as [I1 [I2 [I3 I4]]].
    split; [rewrite I1; apply normalize_keeps_ids; exact H|].
    split; [intros proj' par' Hd; apply I2, normalize_keeps_dense; assumption|].
    split.
    + intros q [<-|Hq]; [|apply I3; exact Hq].
      apply I2. apply normalize_makes_dense. exact H.
    + intros r Hr Hp. apply I4; [|exact Hp].
      apply normalize_keeps_other_rows; auto.
      unfold in_group. apply uuid_eqb_neq in Hp. rewrite Hp. reflexivity.
Qed.

Lemma normalize_sequences_parts proj t :
  NoDup (map note_id t) ->
  normalize_sequences proj t
  = fold_left (fun acc par => normalize_note_sequences proj (Some par) acc)
      (distinct_parents proj (normalize_note_sequences proj None t))
      (normalize_note_sequences proj None t)
  /\ (forall par, dense (group proj par (normalize_sequences proj t)))
  /\ map note_id (normalize_sequences proj t) = map note_id t
  /\ (forall r, In r t -> project_id r <> proj ->
        In r (normalize_sequences proj t)).
Proof.
  intros H.
  assert (H1 : NoDup (map note_id (normalize_note_sequences proj None t)))
    by (rewrite normalize_keeps_ids; exact H).
  assert (E : normalize_sequences proj t
              = fold_left
                  (fun acc par => normalize_note_sequences proj (Some par) acc)
                  (distinct_parents proj (normalize_note_sequences proj None t))
                  (normalize_note_sequences proj None t)).
  { unfold normalize_sequences.
    change (normalize_loop
              (map note_id (order_by_sequence (group proj None t))) 1 t)
      with (normalize_note_sequences proj None t).
    apply normalize_children_fold. exact H1. }
  split; [exact E|]. rewrite E.
  destruct (normalize_fold_properties proj
              (distinct_parents proj (normalize_note_sequences proj None t))
              _ H1) as [I1 [I2 [I3 I4]]].
  split; [|split].
  - intros [p|].
    + destruct (group proj (Some p) (normalize_note_sequences proj None t))
        as [|r g] eqn:G.
      * apply I2. rewrite G. apply dense_nil.
      * apply I3.
        assert (Hr : In r (group proj (Some p)
                             (normalize_note_sequences proj None t)))
          by (rewrite G; left; reflexivity).
        apply filter_In in Hr. destruct Hr as [Hr Hg].
        apply in_group_spec in Hg. destruct Hg as [Hp Hpar].
        apply (distinct_parents_In proj _ r p); assumption.
    + apply I2. apply normalize_makes_dense. exact H.
  - rewrite I1. apply normalize_keeps_ids. exact H.
  - intros r Hr Hp. apply I4; [|exact Hp].
    apply normalize_keeps_other_rows; auto.
    unfold in_group. apply uuid_eqb_neq in Hp. rewrite Hp. reflexivity.
Qed.

(** X4: [normalize_sequences] is [normalize_note_sequences] on the root
    group followed by [normalize_note_sequences] on the group of every
    parent of the project; after it every sibling group of the project is
    dense, no entry is added or lost, and the entries of other projects are
    as they were. *)
Theorem normalize_sequences_dense proj t :
  NoDup (map note_id t) ->
  normalize_sequences proj t
  = fold_left (fun acc par => normalize_note_sequences proj (Some par) acc)
      (distinct_parents proj (normalize_note_sequences proj None t))
      (normalize_note_sequences proj None t)
  /\ (forall par, dense (group proj par (normalize_sequences proj t)))
  /\ map note_id (normalize_sequences proj t) = map note_id t
  /\ (forall r, In r t -> project_id r <> proj ->
        In r (normalize_sequences proj t)).
Proof. apply normalize_sequences_parts. Qed.

Lemma normalize_sequences_dense_witness :
  dense (group "p"%string (Some "X"%string)
           (normalize_sequences "p"%string
              [child_entry "P" "X" 5; child_entry "Q" "X" 2;
               child_entry "R" "Y" 7; root_entry "X" 4; root_entry "Y" 4])).
Proof.
  apply (normalize_sequences_dense "p"%string
           [child_entry "P" "X" 5; child_entry "Q" "X" 2;
            child_entry "R" "Y" 7; root_entry "X" 4; root_entry "Y" 4]).
  apply unique_ids_check_sound. reflexivity.
Defined.

(** ** delete_note_tree *)

Lemma filter_id_on {A : Type} (p : A -> bool) (l : list A) :
  (forall x, In x l -> p x = true) -> filter p l = l.
Proof.
  induction l as [|a l IH]; intros H; simpl; [reflexivity|].
  rewrite (H a (or_introl eq_refl)), IH; auto.
  intros x Hx. apply H. right. exact Hx.
Qed.

Lemma filter_none {A : Type} (p : A -> bool) (l : list A) :
  (forall x, In x l -> p x = false) -> filter p l = [].
Proof.
  induction l as [|a l IH]; intros H; simpl; [reflexivity|].
  rewrite (H a (or_introl eq_refl)). apply IH.
  intros x Hx. apply H. right. exact Hx.
Qed.

Lemma find_absent {A : Type} (p : A -> bool) (l : list A) :
  (forall x, In x l -> p x = false) -> find p l = None.
Proof.
  induction l as [|a l IH]; intros H; simpl; [reflexivity|].
  rewrite (H a (or_introl eq_refl)). apply IH.
  intros x Hx. apply H. right. exact Hx.
Qed.

Lemma cascade_nothing fuel ns : cascade fuel [] ns = ns.
Proof.
  destruct fuel as [|fuel]; [reflexivity|]. simpl.
  rewrite filter_none; [reflexivity|].
  intros x _. destruct (n_parent_id x); reflexivity.
Qed.

Lemma removed_ids_same ns : removed_ids ns ns = [].
Proof.
  unfold removed_ids. apply filter_none. intros i Hi.
  apply negb_false_iff. apply mem_In. exact Hi.
Qed.

Lemma delete_absent_root now root db :
  (forall x, In x (notes db) -> id x <> root) ->
  delete_note_tree now root db = Ok db.
Proof.
  intros H. unfold delete_note_tree.
  assert (Hf : forall x, In x (notes db) -> uuid_eqb (id x) root = false)
    by (intros x Hx; apply uuid_eqb_neq; auto).
  rewrite (find_absent _ _ Hf).
  assert (E : notes_to_delete (notes db) root = []).
  { unfold notes_to_delete, descendants. rewrite (filter_none _ _ Hf).
    reflexivity. }
  rewrite E. simpl option_map.
  assert (N : delete_from_notes (fun n => mem (id n) []) (notes db) = notes db).
  { unfold delete_from_notes, sql_delete.
    rewrite (filter_none (fun n => mem (id n) [])) by reflexivity.
    rewrite filter_id_on by reflexivity. apply cascade_nothing. }
  rewrite N, removed_ids_same.
  unfold cascade_sequences, sql_delete.
  rewrite (filter_id_on (fun r => negb (mem (note_id r) []))) by reflexivity.
  rewrite filter_id_on
    by (intros x _; destruct (parent_id x); reflexivity).
  unfold sql_update. rewrite map_id_on by reflexivity.
  destruct db; reflexivity.
Qed.

(** X5: [delete_note_tree] on an id that no row of [notes] has changes
    nothing: no row of [notes] or [note_sequences] goes, and no project gets
    a new count or a new timestamp. *)
Theorem delete_missing_note now root db :
  (forall x, In x (notes db) -> id x <> root) ->
  delete_note_tree now root db = Ok db.
Proof. apply delete_absent_root. Qed.

Lemma delete_missing_note_witness :
  delete_note_tree 7 "Z"%string three_roots = Ok three_roots.
Proof.
  apply delete_missing_note. intros x Hx. simpl in Hx.
  destruct Hx as [<-|[<-|[<-|[]]]]; discriminate.
Defined.

Lemma cascade_removed_below ns0 root fuel : forall gone ns,
  incl ns ns0 ->
  (forall g, In g gone -> exists d p, row_at_depth ns0 root d p /\ id p = g) ->
  forall r, In r ns -> ~ In r (cascade fuel gone ns) ->
    exists d, row_at_depth ns0 root d r.
Proof.
  induction fuel as [|fuel IH]; intros gone ns Hincl Hgone r Hr Hnr;
    simpl in Hnr; [contradiction|].
  assert (Hvictim : forall x, In x ns ->
            refers_to gone (n_parent_id x) = true ->
            exists d, row_at_depth ns0 root d x).
  { intros x Hx Hx'. destruct (n_parent_id x) as [g|] eqn:Eg; [|discriminate].
    unfold refers_to in Hx'. apply mem_In in Hx'.
    destruct (Hgone g Hx') as [d [p [Hp Hid]]]. exists (S d).
    apply (depth_child _ _ d p x); auto. rewrite Eg, Hid. reflexivity. }
  destruct (filter (fun n => refers_to gone (n_parent_id n)) ns)
    as [|v vs] eqn:F; [contradiction|].
  destruct (refers_to gone (n_parent_id r)) eqn:Er; [apply Hvictim; auto|].
  apply (IH (map id (v :: vs))
            (sql_delete (fun n => refers_to gone (n_parent_id n)) ns)).
  - intros x Hx. unfold sql_delete in Hx. apply filter_In in Hx.
    apply Hincl. tauto.
  - intros g Hg. apply in_map_iff in Hg. destruct Hg as [x [<- Hx]].
    rewrite <- F in Hx. apply filter_In in Hx. destruct Hx as [Hx Hx'].
    destruct (Hvictim x Hx Hx') as [d Hd]. exists d, x. auto.
  - unfold sql_delete. apply filter_In. rewrite Er. auto.
  - exact Hnr.
Qed.

Lemma deleted_notes_below now root db db' r :
  NoDup (map id (notes db)) ->
  delete_note_tree now root db = Ok db' ->
  In r (notes db) -> ~ In r (notes db') ->
  exists d, row_at_depth (notes db) root d r.
Proof.
  intros H E Hr Hnr. unfold delete_note_tree in E. injection E as <-.
  simpl in Hnr. unfold delete_from_notes in Hnr.
  assert (Hcollected : forall x, In x (notes db) ->
            mem (id x) (notes_to_delete (notes db) root) = true ->
            exists d, row_at_depth (notes db) root d x).
  { intros x Hx Hm. apply mem_In in Hm. apply notes_to_delete_spec in Hm.
    destruct Hm as [d [p [_ [Hp Hid]]]].
    assert (p = x).
    { apply (NoDup_map_injective id (notes db)); auto.
      apply (row_at_depth_In _ _ _ _ Hp). }
    subst p. exists d. exact Hp. }
  destruct (mem (id r) (notes_to_delete (notes db) root)) eqn:Em;
    [apply Hcollected; auto|].
  apply (cascade_removed_below (notes db) root _ _ _) with (r := r) in Hnr;
    auto.
  - intros x Hx. unfold sql_delete in Hx. apply filter_In in Hx. tauto.
  - intros g Hg. apply in_map_iff in Hg. destruct Hg as [x [<- Hx]].
    apply filter_In in Hx. destruct Hx as [Hx Hm].
    destruct (Hcollected x Hx Hm) as [d Hd]. exists d, x. auto.
  - unfold sql_delete. apply filter_In. rewrite Em. auto.
Qed.

(** X6: [delete_note_tree] removes nothing outside the subtree of its
    root: a row of [notes] that is gone was some number of parent links below
    the root, and an entry of [note_sequences] that is gone was the entry of
    such a note or was recorded under it. *)
Theorem delete_only_subtree now root db db' :
  NoDup (map id (notes db)) ->
  delete_note_tree now root db = Ok db' ->
  (forall r, In r (notes db) -> ~ In r (notes db') ->
     exists d, row_at_depth (notes db) root d r)
  /\ (forall e, In e (note_sequences db) -> ~ In e (note_sequences db') ->
        exists d r,
          row_at_depth (notes db) root d r
          /\ (note_id e = id r \/ parent_id e = Some (id r))).
Proof.
  intros H E. split.
  - intros r. apply (deleted_notes_below now root db db'); assumption.
  - intros e He Hne.
    pose proof (deleted_notes_below now root db db') as Hbelow.
    assert (Hgone : forall i,
              In i (removed_ids (notes db) (notes db')) ->
              exists d r, row_at_depth (notes db) root d r /\ id r = i).
    { intros i Hi. apply removed_ids_spec in Hi. destruct Hi as [Hb Ha].
      apply in_map_iff in Hb. destruct Hb as [x [<- Hx]].
      destruct (Hbelow x H E Hx) as [d Hd].
      - intros Hx'. apply Ha. apply in_map. exact Hx'.
      - exists d, x. auto. }
    unfold delete_note_tree in E. injection E as <-. simpl in *.
    destruct (mem (note_id e) (notes_to_delete (notes db) root)) eqn:E1.
    + apply mem_In in E1. apply notes_to_delete_spec in E1.
      destruct E1 as [d [r [_ [Hr Hid]]]]. exists d, r. auto.
    + set (rem := removed_ids (notes db)
                    (delete_from_notes
                       (fun n => mem (id n) (notes_to_delete (notes db) root))
                       (notes db))) in *.
      destruct (mem (note_id e) rem) eqn:E2.
      * apply mem_In in E2. destruct (Hgone _ E2) as [d [r [Hr Hid]]].
        exists d, r. auto.
      * destruct (refers_to rem (parent_id e)) eqn:E3.
        -- destruct (parent_id e) as [p|]; [|discriminate].
           unfold refers_to in E3. apply mem_In in E3.
           destruct (Hgone _ E3) as [d [r [Hr Hid]]].
           exists d, r. split; [exact Hr | right; rewrite Hid; reflexivity].
        -- exfalso. apply Hne. unfold cascade_sequences, sql_delete.
           apply filter_In. rewrite E2, E3. split; [|reflexivity].
           apply filter_In. rewrite E1. auto.
Qed.

Lemma delete_only_subtree_witness :
  exists d, row_at_depth (notes three_roots) "B"%string d (root_note "B").
Proof.
  destruct (delete_only_subtree 0 "B"%string three_roots roots_with_gap)
    as [F _].
  - apply (distinctb_sound uuid_eqb); [apply uuid_eqb_eq | reflexivity].
  - reflexivity.
  - apply (F (root_note "B")).
    + simpl. auto.
    + simpl. intros [E|[E|[]]]; discriminate.
Defined.

(** X7: deleting the same root a second time changes nothing more. *)
Theorem delete_twice now now' root db db' :
  delete_note_tree now root db = Ok db' ->
  delete_note_tree now' root db' = Ok db'.
Proof.
  intros E. apply delete_absent_root. intros x Hx Hid.
  assert (Hin : In x (notes db)).
  { pose proof E as E'. unfold delete_note_tree in E'. injection E' as <-.
    simpl in Hx. apply delete_from_notes_spec in Hx. tauto. }
  apply (deleted_rows_gone now root db db' 1 x E); [|exact Hx].
  apply depth_root; assumption.
Qed.

Lemma delete_twice_witness :
  delete_note_tree 9 "B"%string roots_with_gap = Ok roots_with_gap.
Proof.
  apply (delete_twice 0 9 "B"%string three_roots roots_with_gap).
  reflexivity.
Defined.

(** ** The versions of move_note *)

Lemma shift_then_move_same n t r0 q :
  NoDup (map note_id t) -> find (has_note_id n) t = Some r0 ->
  shift_then_move n (project_id r0) (parent_id r0) (sequence r0)
    (parent_id r0) q t
  = park_shift_place n (project_id r0) (parent_id r0) (sequence r0)
      (parent_id r0) q t.
Proof.
  intros H Hf. rewrite park_shift_place_same.
  unfold shift_then_move, sql_update. rewrite not_distinct_refl.
  destruct (Z.ltb_spec (sequence r0) q) as [Hlt|Hge];
    rewrite map_map; apply map_ext_in; intros r Hr;
    unfold same_parent_image;
    destruct (has_note_id n r) eqn:Hn.
  - rewrite (note_row_is_found t n r0 H Hf r Hr Hn).
    rewrite Z.ltb_irrefl, andb_false_r. simpl.
    rewrite (found_has_note_id t n r0 Hf). destruct r0; reflexivity.
  - unfold has_note_id in *.
    destruct (in_group (project_id r0) (parent_id r0) r); simpl;
      destruct (Z.ltb_spec (sequence r0) (sequence r)),
        (Z.leb_spec (sequence r) q), (Z.leb_spec q (sequence r)),
        (Z.ltb_spec (sequence r) (sequence r0));
      simpl; rewrite ?Hn; try reflexivity; lia.
  - rewrite (note_row_is_found t n r0 H Hf r Hr Hn).
    rewrite Z.ltb_irrefl, andb_false_r.
    rewrite (found_has_note_id t n r0 Hf). destruct r0; reflexivity.
  - unfold has_note_id in *.
    destruct (in_group (project_id r0) (parent_id r0) r); simpl;
      destruct (Z.ltb_spec (sequence r0) (sequence r)),
        (Z.leb_spec (sequence r) q), (Z.leb_spec q (sequence r)),
        (Z.ltb_spec (sequence r) (sequence r0));
      simpl; rewrite ?Hn; try reflexivity; lia.
Qed.

Lemma shift_then_move_other n t r0 newp q :
  NoDup (map note_id t) -> find (has_note_id n) t = Some r0 ->
  not_distinct (parent_id r0) newp = false ->
  shift_then_move n (project_id r0) (parent_id r0) (sequence r0) newp q t
  = park_shift_place n (project_id r0) (parent_id r0) (sequence r0) newp q t.
Proof.
  intros H Hf Hne. rewrite park_shift_place_other by exact Hne.
  unfold shift_then_move, sql_update. rewrite Hne.
  rewrite !map_map. apply map_ext_in. intros r Hr.
  unfold other_parent_image. destruct (has_note_id n r) eqn:Hn.
  - rewrite (note_row_is_found t n r0 H Hf r Hr Hn).
    rewrite Z.ltb_irrefl, andb_false_r.
    rewrite (in_group_disjoint _ _ _ _ Hne (in_group_own r0)). simpl.
    rewrite (found_has_note_id t n r0 Hf). reflexivity.
  - unfold has_note_id in *.
    destruct (in_group (project_id r0) (parent_id r0) r) eqn:Hold.
    + pose proof (in_group_disjoint _ _ _ _ Hne Hold) as Hnew.
      destruct (sequence r0 <? sequence r); simpl.
      * rewrite in_group_set_sequence, Hnew. simpl. rewrite Hn. reflexivity.
      * rewrite Hnew. simpl. rewrite Hn. reflexivity.
    + simpl.
      destruct (in_group (project_id r0) newp r && (q <=? sequence r));
        simpl; rewrite Hn; reflexivity.
Qed.

Lemma shift_then_move_parked n t r0 newp q :
  NoDup (map note_id t) -> find (has_note_id n) t = Some r0 ->
  shift_then_move n (project_id r0) (parent_id r0) (sequence r0) newp q t
  = park_shift_place n (project_id r0) (parent_id r0) (sequence r0) newp q t.
Proof.
  intros H Hf. destruct (not_distinct (parent_id r0) newp) eqn:E.
  - apply not_distinct_eq in E. subst newp.
    apply shift_then_move_same; assumption.
  - apply shift_then_move_other; assumption.
Qed.

(** On dense groups and for a position inside the target group, STEP 5 of
    [move_note] changes nothing and the clamp keeps the position. *)
Lemma repair_in_range t n r0 newp pos :
  NoDup (map note_id t) -> find (has_note_id n) t = Some r0 ->
  dense (group (project_id r0) (parent_id r0) t) ->
  dense (group (project_id r0) newp t) ->
  1 <= pos <= Z.of_nat (length (group (project_id r0) newp t))
              + (if not_distinct (parent_id r0) newp then 0 else 1) ->
  repair (project_id r0) (parent_id r0) newp
    (park_shift_place n (project_id r0) (parent_id r0) (sequence r0) newp
       (clamp_position pos (max_sequence (project_id r0) newp t)) t)
  = park_shift_place n (project_id r0) (parent_id r0) (sequence r0) newp
      pos t.
Proof.
  intros H Hf Ho Hn Hpos.
  destruct (not_distinct (parent_id r0) newp) eqn:E.
  - apply not_distinct_eq in E. subst newp.
    pose proof (same_parent_final t n r0 H Hf pos Ho) as F. cbv zeta in F.
    rewrite F, park_shift_place_same. f_equal. f_equal. lia.
  - pose proof (other_parent_final t n r0 H Hf newp E pos Ho Hn) as F.
    cbv zeta in F. rewrite F, (park_shift_place_other _ _ _ _ _ _ _ E).
    f_equal. f_equal. unfold clamp_position.
    rewrite (max_sequence_dense _ _ _ Hn). lia.
Qed.

(** X8: on a table with unique note ids whose old and new sibling groups
    are dense, and for a position inside the target group, the first
    [move_note] (no temporary sequence, no clamp, no normalization) returns
    the database the last one returns. *)
Theorem first_move_note_agrees now n newp pos db r0 :
  NoDup (map note_id (note_sequences db)) ->
  find (has_note_id n) (note_sequences db) = Some r0 ->
  dense (group (project_id r0) (parent_id r0) (note_sequences db)) ->
  dense (group (project_id r0) newp (note_sequences db)) ->
  1 <= pos <= Z.of_nat (length (group (project_id r0) newp (note_sequences db)))
              + (if not_distinct (parent_id r0) newp then 0 else 1) ->
  FloatingMorning.move_note now n newp pos db = move_note now n newp pos db.
Proof.
  intros H Hf Ho Hn Hpos.
  unfold FloatingMorning.move_note, move_note. rewrite Hf. cbv zeta.
  rewrite repair_in_range by assumption.
  rewrite shift_then_move_parked by assumption. reflexivity.
Qed.

Lemma first_move_note_agrees_witness :
  FloatingMorning.move_note 5 "R"%string (Some "X"%string) 2 two_families
  = move_note 5 "R"%string (Some "X"%string) 2 two_families.
Proof.
  apply (first_move_note_agrees 5 "R"%string (Some "X"%string) 2 two_families
           (child_entry "R" "Y" 1)).
  - apply unique_ids_check_sound. reflexivity.
  - reflexivity.
  - apply dense_check_sound. reflexivity.
  - apply dense_check_sound. reflexivity.
  - simpl. lia.
Defined.

(** X9: the last [move_note] is the version before it (the second complete
    schema) followed by the normalization of STEP 5 and the UPDATE of
    [settings]; the earlier version parks the note under its old parent, the
    last one under the new parent, which makes no difference to the table. *)
Theorem move_note_adds_repair now n newp pos db r0 :
  find (has_note_id n) (note_sequences db) = Some r0 ->
  exists b,
    CompleteSchemaB.move_note n newp pos db = Ok b
    /\ move_note now n newp pos db
       = Ok (mk_db (notes b)
               (repair (project_id r0) (parent_id r0) newp (note_sequences b))
               (sql_update (fun s => uuid_eqb (s_id s) (project_id r0))
                  (touch now) (settings b))).
Proof.
  intros Hf. unfold CompleteSchemaB.move_note, move_note. rewrite Hf.
  cbv zeta. eexists. split; [reflexivity|]. simpl.
  rewrite kept_parent_park. reflexivity.
Qed.

Lemma move_note_adds_repair_witness :
  exists b,
    CompleteSchemaB.move_note "A"%string None 7 three_roots = Ok b
    /\ move_note 5 "A"%string None 7 three_roots
       = Ok (mk_db (notes b)
               (repair "p"%string None None (note_sequences b))
               (sql_update (fun s => uuid_eqb (s_id s) "p"%string)
                  (touch 5) (settings b))).
Proof.
  apply (move_note_adds_repair 5 "A"%string None 7 three_roots
           (root_entry "A" 1)).
  reflexivity.
Defined.

(** X10: without STEP 5 a request past the end of the note's own group
    leaves the group with a gap: when the call returns, on a dense group of
    N entries, the note is at N + 1 and no entry has the sequence N. *)
Theorem move_past_end_without_repair n pos db b r0 :
  NoDup (map note_id (note_sequences db)) ->
  find (has_note_id n) (note_sequences db) = Some r0 ->
  dense (group (project_id r0) (parent_id r0) (note_sequences db)) ->
  Z.of_nat (length (group (project_id r0) (parent_id r0) (note_sequences db)))
    < pos ->
  CompleteSchemaB.move_note n (parent_id r0) pos db = Ok b ->
  sequence_of n (note_sequences b)
  = Some (Z.of_nat (length (group (project_id r0) (parent_id r0)
                              (note_sequences db))) + 1)
  /\ (forall r,
        In r (group (project_id r0) (parent_id r0) (note_sequences b)) ->
        sequence r
        <> Z.of_nat (length (group (project_id r0) (parent_id r0)
                               (note_sequences db))))
  /\ ~ dense (group (project_id r0) (parent_id r0) (note_sequences b)).
Proof.
  intros H Hf Hd Hpos E.
  unfold CompleteSchemaB.move_note in E. rewrite Hf in E. cbv zeta in E.
  injection E as <-. simpl.
  set (t := note_sequences db) in *.
  set (N := Z.of_nat (length (group (project_id r0) (parent_id r0) t))) in *.
  rewrite kept_parent_park, park_shift_place_same.
  unfold clamp_position. rewrite (max_sequence_dense _ _ _ Hd). fold N.
  assert (H0 : In r0 (group (project_id r0) (parent_id r0) t))
    by (apply (found_in_group t n r0 Hf)).
  assert (HN : 1 <= sequence r0 <= N) by (apply dense_bounds; assumption).
  replace (Z.max 1 (Z.min pos (N + 1))) with (N + 1) by lia.
  set (img := same_parent_image n (project_id r0) (parent_id r0)
                (sequence r0) (N + 1)).
  assert (Hgap : forall r,
            In r (group (project_id r0) (parent_id r0) (map img t)) ->
            sequence r <> N).
  { intros r Hr. unfold img in Hr.
    rewrite (same_parent_group t n r0 H Hf) in Hr.
    apply in_map_iff in Hr. destruct Hr as [x [<- Hx]].
    rewrite (same_parent_image_sequence t n r0 H Hf _ _ Hd Hx).
    pose proof (dense_bounds _ _ Hd Hx) as Hb. fold N in Hb.
    unfold same_parent_sequence.
    destruct (Z.eqb_spec (sequence x) (sequence r0)); [lia|].
    destruct (Z.ltb_spec (sequence r0) (sequence x)),
      (Z.leb_spec (sequence x) (N + 1)), (Z.leb_spec (N + 1) (sequence x)),
      (Z.ltb_spec (sequence x) (sequence r0)); simpl; lia. }
  split; [|split; [exact Hgap|]].
  - unfold sequence_of.
    rewrite <- (found_id t n r0 Hf).
    rewrite (find_map_unique img t r0); auto.
    + unfold img, same_parent_image.
      rewrite (found_has_note_id t n r0 Hf). reflexivity.
    + intros x. apply same_parent_image_keeps.
    + apply (found_In t n r0 Hf).
  - intros [_ Hall].
    assert (HNin : In N (map sequence
                           (group (project_id r0) (parent_id r0) (map img t)))).
    { apply Hall. unfold img.
      rewrite (same_parent_group t n r0 H Hf), length_map. fold N. lia. }
    apply in_map_iff in HNin. destruct HNin as [r [Hs Hr]].
    exact (Hgap r Hr Hs).
Qed.

Lemma move_past_end_without_repair_witness :
  sequence_of "A"%string
    [root_entry "A" 4; root_entry "B" 1; root_entry "C" 2]
  = Some 4
  /\ (forall r,
        In r (group "p"%string None
                [root_entry "A" 4; root_entry "B" 1; root_entry "C" 2]) ->
        sequence r <> 3)
  /\ ~ dense (group "p"%string None
                [root_entry "A" 4; root_entry "B" 1; root_entry "C" 2]).
Proof.
  apply (move_past_end_without_repair "A"%string 9 three_roots
           (mk_db (notes three_roots)
              [root_entry "A" 4; root_entry "B" 1; root_entry "C" 2]
              (settings three_roots))
           (root_entry "A" 1)).
  - apply unique_ids_check_sound. reflexivity.
  - reflexivity.
  - apply dense_check_sound. reflexivity.
  - simpl. lia.
  - reflexivity.
Defined.

Lemma first_schema_steps n t r0 newp q :
  NoDup (map note_id t) -> find (has_note_id n) t = Some r0 ->
  dense (group (project_id r0) (parent_id r0) t) ->
  sql_update (has_note_id n) (set_parent_sequence newp q)
    (sql_update
       (fun r => in_group (project_id r0) newp r && (q <=? sequence r))
       (fun r => set_sequence (sequence r + 1) r)
       (sql_update
          (fun r => in_group (project_id r0) (parent_id r0) r
                    && (sequence r0 <? sequence r))
          (fun r => set_sequence (sequence r - 1) r)
          (sql_update (has_note_id n)
             (set_sequence CompleteSchemaA.temp_sequence) t)))
  = park_shift_place n (project_id r0) (parent_id r0) (sequence r0) newp q t.
Proof.
  intros H Hf Hd. destruct (not_distinct (parent_id r0) newp) eqn:E.
  - apply not_distinct_eq in E. subst newp. rewrite park_shift_place_same.
    unfold sql_update. rewrite !map_map. apply map_ext_in. intros r Hr.
    unfold same_parent_image. destruct (has_note_id n r) eqn:Hn.
    + unfold has_note_id in *. split_conditions; simpl in *;
        rewrite ?Hn in *; try discriminate; reflexivity.
    + unfold has_note_id in *.
      destruct (in_group (project_id r0) (parent_id r0) r) eqn:Hg.
      * assert (Hs : sequence r <> sequence r0).
        { intros Hs.
          assert (r = r0).
          { apply (dense_injective _ r r0 Hd); auto.
            - apply filter_In. auto.
            - apply (found_in_group t n r0 Hf). }
          subst r. pose proof (found_has_note_id t n r0 Hf) as F.
          unfold has_note_id in F. congruence. }
        simpl.
        destruct (Z.ltb_spec (sequence r0) (sequence r)); simpl;
          rewrite ?in_group_set_sequence, ?Hg; simpl;
          destruct (Z.leb_spec q (sequence r)),
            (Z.leb_spec (sequence r) q),
            (Z.ltb_spec (sequence r) (sequence r0));
          try destruct (Z.leb_spec q (sequence r - 1));
          simpl; rewrite ?Hn; try reflexivity; try lia;
          unfold set_sequence; destruct r; simpl in *; f_equal; lia.
      * simpl. rewrite Hg. simpl. rewrite Hn. reflexivity.
  - rewrite park_shift_place_other by exact E.
    unfold sql_update. rewrite !map_map. apply map_ext_in. intros r Hr.
    unfold other_parent_image. destruct (has_note_id n r) eqn:Hn.
    + unfold has_note_id in *. split_conditions; simpl in *;
        rewrite ?Hn in *; try discriminate; reflexivity.
    + unfold has_note_id in *.
      destruct (in_group (project_id r0) (parent_id r0) r) eqn:Hold.
      * pose proof (in_group_disjoint _ _ _ _ E Hold) as Hnew.
        destruct (sequence r0 <? sequence r); simpl.
        -- rewrite in_group_set_sequence, Hnew. simpl. rewrite Hn. reflexivity.
        -- rewrite Hnew. simpl. rewrite Hn. reflexivity.
      * simpl.
        destruct (in_group (project_id r0) newp r && (q <=? sequence r));
          simpl; rewrite Hn; reflexivity.
Qed.

(** X11: on a table with unique note ids whose old and new sibling groups
    are dense, and for a position inside the target group, when the
    [move_note] of the first complete schema (the gap is closed and the space
    is made without looking at the parents; no clamp) and the last version
    both return, they leave the same [note_sequences]; the first one writes
    neither [notes] nor [settings]. *)
Theorem first_schema_agrees now n newp pos db a f r0 :
  NoDup (map note_id (note_sequences db)) ->
  find (has_note_id n) (note_sequences db) = Some r0 ->
  dense (group (project_id r0) (parent_id r0) (note_sequences db)) ->
  dense (group (project_id r0) newp (note_sequences db)) ->
  1 <= pos <= Z.of_nat (length (group (project_id r0) newp (note_sequences db)))
              + (if not_distinct (parent_id r0) newp then 0 else 1) ->
  CompleteSchemaA.move_note n newp pos db = Ok a ->
  move_note now n newp pos db = Ok f ->
  note_sequences a = note_sequences f
  /\ notes a = notes db /\ settings a = settings db.
Proof.
  intros H Hf Ho Hn Hpos Ea Ef.
  unfold CompleteSchemaA.move_note in Ea. rewrite Hf in Ea. cbv zeta in Ea.
  injection Ea as <-.
  unfold move_note in Ef. rewrite Hf in Ef. cbv zeta in Ef.
  injection Ef as <-.
  simpl. split; [|split; reflexivity].
  rewrite repair_in_range by assumption.
  apply first_schema_steps; assumption.
Qed.

Lemma first_schema_agrees_witness :
  [root_entry "X" 2; root_entry "Y" 3; child_entry "P" "X" 1;
   root_entry "Q" 1; child_entry "R" "Y" 1]
  = [root_entry "X" 2; root_entry "Y" 3; child_entry "P" "X" 1;
     root_entry "Q" 1; child_entry "R" "Y" 1]
  /\ notes two_families = notes two_families
  /\ settings two_families = settings two_families.
Proof.
  apply (first_schema_agrees 5 "Q"%string None 1 two_families
           (mk_db (notes two_families)
              [root_entry "X" 2; root_entry "Y" 3; child_entry "P" "X" 1;
               root_entry "Q" 1; child_entry "R" "Y" 1]
              (settings two_families))
           (mk_db
              [root_note "X"; root_note "Y"; child_note "P" "X";
               root_note "Q"; child_note "R" "Y"]
              [root_entry "X" 2; root_entry "Y" 3; child_entry "P" "X" 1;
               root_entry "Q" 1; child_entry "R" "Y" 1]
              [mk_settings "p"%string 5 5])
           (child_entry "Q" "X" 2)).
  - apply unique_ids_check_sound. reflexivity.
  - reflexivity.
  - apply dense_check_sound. reflexivity.
  - apply dense_check_sound. reflexivity.
  - simpl. lia.
  - reflexivity.
  - reflexivity.
Defined.

Lemma distinctb_complete {A : Type} (eqb : A -> A -> bool) (l : list A) :
  (forall x y, eqb x y = true <-> x = y) ->
  NoDup l -> distinctb eqb l = true.
Proof.
  intros Heq. induction 1 as [|a l Hnin Hnd IH]; simpl; [reflexivity|].
  rewrite IH, andb_true_r. apply negb_true_iff.
  destruct (existsb (eqb a) l) eqn:E; [|reflexivity].
  apply existsb_exists in E. destruct E as [x [Hx Hax]].
  apply Heq in Hax. subst x. contradiction.
Qed.

(** X12: when the [move_note] of the migration "Fix note movement
    function" returns, the target group has no sequence held twice, whatever
    the table held before: where its shifts produce a duplicate there, its
    call of [normalize_sequences] removes it.  No entry is added or lost. *)
Theorem fix_note_movement_no_duplicates now n newp pos db db' r0 :
  NoDup (map note_id (note_sequences db)) ->
  find (has_note_id n) (note_sequences db) = Some r0 ->
  FixNoteMovement.move_note now n newp pos db = Ok db' ->
  FixNoteMovement.has_duplicates (project_id r0) newp (note_sequences db')
  = false
  /\ map note_id (note_sequences db') = map note_id (note_sequences db).
Proof.
  intros H Hf E. unfold FixNoteMovement.move_note in E. rewrite Hf in E.
  cbv zeta in E. injection E as <-. simpl.
  rewrite shift_then_move_parked by assumption.
  set (t4 := park_shift_place _ _ _ _ _ _ _).
  assert (Hids : map note_id t4 = map note_id (note_sequences db))
    by apply park_shift_place_keeps_ids.
  assert (H4 : NoDup (map note_id t4)) by (rewrite Hids; exact H).
  destruct (FixNoteMovement.has_duplicates (project_id r0) newp t4) eqn:D.
  - destruct (normalize_sequences_parts (project_id r0) t4 H4)
      as [_ [Hd [Hk _]]].
    split; [|rewrite Hk; exact Hids].
    unfold FixNoteMovement.has_duplicates. apply negb_false_iff.
    apply distinctb_complete; [apply Z.eqb_eq | apply Hd].
  - split; [exact D | exact Hids].
Qed.

Lemma fix_note_movement_no_duplicates_witness :
  FixNoteMovement.has_duplicates "p"%string None
    [root_entry "A" 2; root_entry "B" 1; root_entry "C" 3]
  = false
  /\ map note_id [root_entry "A" 2; root_entry "B" 1; root_entry "C" 3]
     = map note_id (note_sequences three_roots).
Proof.
  apply (fix_note_movement_no_duplicates 5 "A"%string None 2 three_roots
           (mk_db (notes three_roots)
              [root_entry "A" 2; root_entry "B" 1; root_entry "C" 3]
              [mk_settings "p"%string 3 5])
           (root_entry "A" 1)).
  - apply unique_ids_check_sound. reflexivity.
  - reflexivity.
  - reflexivity.
Defined.

(** ** move_note: what it leaves alone, and the way back *)

Ltac split_comparisons :=
  repeat match goal with
         | |- context [?a <? ?b] => destruct (Z.ltb_spec a b)
         | |- context [?a <=? ?b] => destruct (Z.leb_spec a b)
         end.

Lemma outside_groups_kept t n r0 newp q r :
  NoDup (map note_id t) -> find (has_note_id n) t = Some r0 ->
  In r t ->
  in_group (project_id r0) (parent_id r0) r = false ->
  in_group (project_id r0) newp r = false ->
  In r (repair (project_id r0) (parent_id r0) newp
          (park_shift_place n (project_id r0) (parent_id r0) (sequence r0)
             newp q t)).
Proof.
  intros H Hf Hr Ho Hn.
  set (t4 := park_shift_place n (project_id r0) (parent_id r0) (sequence r0)
               newp q t).
  assert (H4 : NoDup (map note_id t4))
    by (unfold t4; rewrite park_shift_place_keeps_ids; exact H).
  assert (Hid : has_note_id n r = false).
  { destruct (has_note_id n r) eqn:Hid; [|reflexivity].
    rewrite (note_row_is_found t n r0 H Hf r Hr Hid) in Ho.
    rewrite in_group_own in Ho. discriminate. }
  assert (R4 : In r t4).
  { unfold t4. destruct (not_distinct (parent_id r0) newp) eqn:E.
    - apply not_distinct_eq in E. subst newp. rewrite park_shift_place_same.
      apply in_map_iff. exists r. split; [|exact Hr].
      unfold same_parent_image. rewrite Hid, Ho. reflexivity.
    - rewrite park_shift_place_other by exact E.
      apply in_map_iff. exists r. split; [|exact Hr].
      unfold other_parent_image. rewrite Hid, Ho, Hn. reflexivity. }
  unfold repair. fold t4.
  destruct (not_distinct (parent_id r0) newp).
  - apply normalize_keeps_other_rows; assumption.
  - apply normalize_keeps_other_rows;
      [rewrite normalize_keeps_ids; assumption | | assumption].
    apply normalize_keeps_other_rows; assumption.
Qed.

Lemma sql_update_keeps {A : Type} (where_ : A -> bool) (set_ : A -> A)
    (rows : list A) (x : A) :
  In x rows -> where_ x = false -> In x (sql_update where_ set_ rows).
Proof.
  intros Hx Hw. unfold sql_update. apply in_map_iff. exists x.
  rewrite Hw. auto.
Qed.

(** X13: [move_note] touches only the two sibling groups, the note's row
    of [notes] and the project's row of [settings]: an entry outside the old
    and the new group, a note other than the moved one and another
    project's settings are in the result as they were, and no entry is added
    or lost. *)
Theorem move_note_frame now n newp pos db db' r0 :
  NoDup (map note_id (note_sequences db)) ->
  find (has_note_id n) (note_sequences db) = Some r0 ->
  move_note now n newp pos db = Ok db' ->
  map note_id (note_sequences db') = map note_id (note_sequences db)
  /\ (forall r, In r (note_sequences db) ->
        in_group (project_id r0) (parent_id r0) r = false ->
        in_group (project_id r0) newp r = false ->
        In r (note_sequences db'))
  /\ (forall x, In x (notes db) -> id x <> n -> In x (notes db'))
  /\ (forall s, In s (settings db) -> s_id s <> project_id r0 ->
        In s (settings db')).
Proof.
  intros H Hf E. unfold move_note in E. rewrite Hf in E. cbv zeta in E.
  injection E as <-. simpl. split; [|split; [|split]].
  - rewrite repair_keeps_ids. apply park_shift_place_keeps_ids.
  - intros r Hr Ho Hn. apply outside_groups_kept; assumption.
  - intros x Hx Hid. apply sql_update_keeps; [exact Hx|].
    apply uuid_eqb_neq. exact Hid.
  - intros s Hs Hid. apply sql_update_keeps; [exact Hs|].
    apply uuid_eqb_neq. exact Hid.
Qed.

Local Open Scope string_scope.

Lemma move_note_frame_witness :
  In (child_entry "R" "Y" 1)
    [root_entry "X" 2; root_entry "Y" 3; child_entry "P" "X" 1;
     root_entry "Q" 1; child_entry "R" "Y" 1].
Proof.
  destruct (move_note_frame 8 "Q" None 1 two_families
              (mk_db
                 [root_note "X"; root_note "Y"; child_note "P" "X";
                  mk_note "Q" "p" None; child_note "R" "Y"]
                 [root_entry "X" 2; root_entry "Y" 3; child_entry "P" "X" 1;
                  root_entry "Q" 1; child_entry "R" "Y" 1]
                 [mk_settings "p" 5 8])
              (child_entry "Q" "X" 2)) as [_ [F _]].
  - apply unique_ids_check_sound. reflexivity.
  - reflexivity.
  - reflexivity.
  - apply (F (child_entry "R" "Y" 1)).
    + simpl. auto 10.
    + reflexivity.
    + reflexivity.
Defined.

Local Close Scope string_scope.

Lemma same_parent_back t n r0 q r :
  NoDup (map note_id t) -> find (has_note_id n) t = Some r0 ->
  dense (group (project_id r0) (parent_id r0) t) -> In r t ->
  same_parent_image n (project_id r0) (parent_id r0) q (sequence r0)
    (same_parent_image n (project_id r0) (parent_id r0) (sequence r0) q r)
  = r.
Proof.
  intros H Hf Hd Hr. destruct (has_note_id n r) eqn:Hn.
  - rewrite (note_row_is_found t n r0 H Hf r Hr Hn).
    pose proof (found_has_note_id t n r0 Hf) as F.
    unfold same_parent_image, has_note_id in *. rewrite F. simpl.
    rewrite F. destruct r0; reflexivity.
  - destruct (in_group (project_id r0) (parent_id r0) r) eqn:Hg.
    + assert (Hs : sequence r <> sequence r0).
      { intros Hs.
        assert (r = r0).
        { apply (dense_injective _ r r0 Hd); auto.
          - apply filter_In. auto.
          - apply (found_in_group t n r0 Hf). }
        subst r. rewrite (found_has_note_id t n r0 Hf) in Hn. discriminate. }
      unfold same_parent_image, has_note_id in *. rewrite Hn, Hg. simpl.
      destruct (Z.ltb_spec (sequence r0) (sequence r)),
        (Z.leb_spec (sequence r) q), (Z.leb_spec q (sequence r)),
        (Z.ltb_spec (sequence r) (sequence r0));
        simpl; rewrite ?Hn, ?in_group_set_sequence, ?Hg; simpl;
        split_comparisons; simpl; try reflexivity; try lia;
        unfold set_sequence; destruct r; simpl in *; f_equal; lia.
    + unfold same_parent_image. rewrite Hn, Hg. simpl. rewrite Hn, Hg.
      reflexivity.
Qed.

Lemma other_parent_back t n r0 newp q r :
  NoDup (map note_id t) -> find (has_note_id n) t = Some r0 ->
  not_distinct (parent_id r0) newp = false ->
  dense (group (project_id r0) (parent_id r0) t) -> In r t ->
  other_parent_image n (project_id r0) newp q (parent_id r0) (sequence r0)
    (other_parent_image n (project_id r0) (parent_id r0) (sequence r0) newp
       q r)
  = r.
Proof.
  intros H Hf E Hd Hr. destruct (has_note_id n r) eqn:Hn.
  - rewrite (note_row_is_found t n r0 H Hf r Hr Hn).
    pose proof (found_has_note_id t n r0 Hf) as F.
    unfold other_parent_image, has_note_id in *. rewrite F. simpl.
    rewrite F. destruct r0; reflexivity.
  - destruct (in_group (project_id r0) (parent_id r0) r) eqn:Hg.
    + pose proof (in_group_disjoint _ _ _ _ E Hg) as Hnew.
      assert (Hs : sequence r <> sequence r0).
      { intros Hs.
        assert (r = r0).
        { apply (dense_injective _ r r0 Hd); auto.
          - apply filter_In. auto.
          - apply (found_in_group t n r0 Hf). }
        subst r. rewrite (found_has_note_id t n r0 Hf) in Hn. discriminate. }
      unfold other_parent_image, has_note_id in *. rewrite Hn, Hg. simpl.
      repeat (simpl; rewrite ?Hn, ?in_group_set_sequence, ?Hnew, ?Hg; simpl;
              split_comparisons);
        try reflexivity; try lia;
        unfold set_sequence; destruct r; simpl in *; f_equal; lia.
    + unfold other_parent_image, has_note_id in *. rewrite Hn, Hg. simpl.
      destruct (in_group (project_id r0) newp r) eqn:Hnew; simpl.
      * repeat (simpl; rewrite ?Hn, ?in_group_set_sequence, ?Hnew, ?Hg;
                simpl; split_comparisons);
          try reflexivity; try lia;
          unfold set_sequence; destruct r; simpl in *; f_equal; lia.
      * rewrite Hn, Hnew, Hg. reflexivity.
Qed.

Lemma moved_row_found (img : seq_row -> seq_row) t n r0 :
  (forall x, note_id (img x) = note_id x) ->
  NoDup (map note_id t) -> find (has_note_id n) t = Some r0 ->
  find (has_note_id n) (map img t) = Some (img r0).
Proof.
  intros Hk H Hf. rewrite <- (found_id t n r0 Hf).
  apply find_map_unique; auto. apply (found_In t n r0 Hf).
Qed.

Lemma same_parent_round_trip t n r0 pos :
  NoDup (map note_id t) -> find (has_note_id n) t = Some r0 ->
  dense (group (project_id r0) (parent_id r0) t) ->
  let t1 :=
    repair (project_id r0) (parent_id r0) (parent_id r0)
      (park_shift_place n (project_id r0) (parent_id r0) (sequence r0)
         (parent_id r0)
         (clamp_position pos
            (max_sequence (project_id r0) (parent_id r0) t)) t) in
  exists r1,
    find (has_note_id n) t1 = Some r1
    /\ project_id r1 = project_id r0
    /\ repair (project_id r1) (parent_id r1) (parent_id r0)
         (park_shift_place n (project_id r1) (parent_id r1) (sequence r1)
            (parent_id r0)
            (clamp_position (sequence r0)
               (max_sequence (project_id r1) (parent_id r0) t1)) t1)
       = t.
Proof.
  intros H Hf Hd t1.
  set (N := Z.of_nat (length (group (project_id r0) (parent_id r0) t))).
  assert (HN : 1 <= sequence r0 <= N)
    by (apply dense_bounds; [exact Hd | apply (found_in_group t n r0 Hf)]).
  set (q := Z.max 1 (Z.min pos N)).
  set (img := same_parent_image n (project_id r0) (parent_id r0)
                (sequence r0) q).
  assert (E1 : t1 = map img t)
    by (apply (same_parent_final t n r0 H Hf pos Hd)).
  assert (Hk : forall x, note_id (img x) = note_id x)
    by (intros x; apply same_parent_image_keeps).
  assert (Hf1 : find (has_note_id n) (map img t) = Some (img r0))
    by (apply moved_row_found; assumption).
  assert (Er1 : img r0 = set_parent_sequence (parent_id r0) q r0).
  { unfold img, same_parent_image.
    rewrite (found_has_note_id t n r0 Hf). reflexivity. }
  rewrite Er1 in Hf1.
  set (r1 := set_parent_sequence (parent_id r0) q r0) in *.
  assert (H1 : NoDup (map note_id (map img t)))
    by (unfold img; rewrite same_parent_image_ids; exact H).
  assert (Hd1 : dense (group (project_id r1) (parent_id r1) (map img t))).
  { apply (same_parent_dense t n r0 H Hf q Hd). fold N. unfold q. lia. }
  exists r1. rewrite E1. split; [exact Hf1|]. split; [reflexivity|].
  pose proof (same_parent_final (map img t) n r1 H1 Hf1 (sequence r0) Hd1)
    as F.
  cbv zeta in F. etransitivity; [exact F|].
  change (project_id r1) with (project_id r0).
  change (parent_id r1) with (parent_id r0).
  change (sequence r1) with q.
  unfold img at 1. rewrite (same_parent_group t n r0 H Hf), length_map.
  fold N. replace (Z.max 1 (Z.min (sequence r0) N)) with (sequence r0) by lia.
  rewrite map_map. apply map_id_on. intros r Hr.
  apply (same_parent_back t n r0 q r); assumption.
Qed.

Lemma other_parent_round_trip t n r0 newp pos :
  NoDup (map note_id t) -> find (has_note_id n) t = Some r0 ->
  not_distinct (parent_id r0) newp = false ->
  dense (group (project_id r0) (parent_id r0) t) ->
  dense (group (project_id r0) newp t) ->
  let t1 :=
    repair (project_id r0) (parent_id r0) newp
      (park_shift_place n (project_id r0) (parent_id r0) (sequence r0) newp
         (clamp_position pos (max_sequence (project_id r0) newp t)) t) in
  exists r1,
    find (has_note_id n) t1 = Some r1
    /\ project_id r1 = project_id r0
    /\ repair (project_id r1) (parent_id r1) (parent_id r0)
         (park_shift_place n (project_id r1) (parent_id r1) (sequence r1)
            (parent_id r0)
            (clamp_position (sequence r0)
               (max_sequence (project_id r1) (parent_id r0) t1)) t1)
       = t.
Proof.
  intros H Hf E Hd Hdn t1.
  set (N := Z.of_nat (length (group (project_id r0) (parent_id r0) t))).
  assert (HN : 1 <= sequence r0 <= N)
    by (apply dense_bounds; [exact Hd | apply (found_in_group t n r0 Hf)]).
  set (q := clamp_position pos (max_sequence (project_id r0) newp t)).
  assert (Hq : 1 <= q <= Z.of_nat (length (group (project_id r0) newp t)) + 1).
  { unfold q, clamp_position. rewrite (max_sequence_dense _ _ _ Hdn). lia. }
  set (img := other_parent_image n (project_id r0) (parent_id r0)
                (sequence r0) newp q).
  assert (E1 : t1 = map img t)
    by (apply (other_parent_final t n r0 H Hf newp E pos Hd Hdn)).
  assert (Hk : forall x, note_id (img x) = note_id x)
    by (intros x; apply other_parent_image_keeps).
  assert (Hf1 : find (has_note_id n) (map img t) = Some (img r0))
    by (apply moved_row_found; assumption).
  assert (Er1 : img r0 = set_parent_sequence newp q r0).
  { unfold img, other_parent_image.
    rewrite (found_has_note_id t n r0 Hf). reflexivity. }
  rewrite Er1 in Hf1.
  set (r1 := set_parent_sequence newp q r0) in *.
  assert (H1 : NoDup (map note_id (map img t))).
  { rewrite map_map. rewrite (map_ext _ note_id Hk). exact H. }
  assert (E' : not_distinct (parent_id r1) (parent_id r0) = false).
  { apply not_distinct_neq. apply not_distinct_neq in E. simpl. congruence. }
  assert (Hd1 : dense (group (project_id r1) (parent_id r1) (map img t)))
    by (apply (other_parent_new_dense t n r0 H Hf newp E q Hdn Hq)).
  assert (Hd0 : dense (group (project_id r1) (parent_id r0) (map img t)))
    by (apply (other_parent_old_dense t n r0 H Hf newp E q Hd)).
  exists r1. rewrite E1. split; [exact Hf1|]. split; [reflexivity|].
  pose proof (other_parent_final (map img t) n r1 H1 Hf1 (parent_id r0) E'
                (sequence r0) Hd1 Hd0) as F.
  cbv zeta in F. etransitivity; [exact F|].
  rewrite (max_sequence_dense _ _ _ Hd0).
  change (project_id r1) with (project_id r0).
  change (parent_id r1) with newp.
  change (sequence r1) with q.
  unfold img at 1.
  rewrite (other_parent_old_group t n r0 H Hf newp E), length_map.
  pose proof (other_parent_old_length t n r0 H Hf) as L.
  unfold clamp_position.
  replace (Z.max 1 (Z.min (sequence r0) _)) with (sequence r0)
    by (unfold N in HN; lia).
  rewrite map_map. apply map_id_on. intros r Hr.
  apply (other_parent_back t n r0 newp q r); assumption.
Qed.

(** X14: when the note ids are unique and every sibling group is dense,
    and a move and the move back to the old parent and the old sequence both
    return, [note_sequences] is as it was before the two calls, whatever
    parent and position the first move asked for. *)
Theorem move_and_back now now' n newp pos db db1 db2 r0 :
  NoDup (map note_id (note_sequences db)) ->
  find (has_note_id n) (note_sequences db) = Some r0 ->
  all_dense (note_sequences db) ->
  move_note now n newp pos db = Ok db1 ->
  move_note now' n (parent_id r0) (sequence r0) db1 = Ok db2 ->
  note_sequences db2 = note_sequences db.
Proof.
  intros H Hf Hd E1 E2.
  assert (R : exists r1,
            find (has_note_id n)
              (repair (project_id r0) (parent_id r0) newp
                 (park_shift_place n (project_id r0) (parent_id r0)
                    (sequence r0) newp
                    (clamp_position pos
                       (max_sequence (project_id r0) newp (note_sequences db)))
                    (note_sequences db))) = Some r1
            /\ project_id r1 = project_id r0
            /\ repair (project_id r1) (parent_id r1) (parent_id r0)
                 (park_shift_place n (project_id r1) (parent_id r1)
                    (sequence r1) (parent_id r0)
                    (clamp_position (sequence r0)
                       (max_sequence (project_id r1) (parent_id r0)
                          (repair (project_id r0) (parent_id r0) newp
                             (park_shift_place n (project_id r0)
                                (parent_id r0) (sequence r0) newp
                                (clamp_position pos
                                   (max_sequence (project_id r0) newp
                                      (note_sequences db)))
                                (note_sequences db)))))
                    (repair (project_id r0) (parent_id r0) newp
                       (park_shift_place n (project_id r0) (parent_id r0)
                          (sequence r0) newp
                          (clamp_position pos
                             (max_sequence (project_id r0) newp
                                (note_sequences db)))
                          (note_sequences db))))
               = note_sequences db).
  { destruct (not_distinct (parent_id r0) newp) eqn:E.
    - apply not_distinct_eq in E. subst newp.
      apply (same_parent_round_trip _ n r0 pos H Hf (Hd _ _)).
    - apply (other_parent_round_trip _ n r0 newp pos H Hf E (Hd _ _)
               (Hd _ _)). }
  destruct R as [r1 [Hf1 [_ Ht]]].
  unfold move_note in E1. rewrite Hf in E1. cbv zeta in E1.
  injection E1 as <-.
  unfold move_note in E2. simpl note_sequences in E2. rewrite Hf1 in E2.
  cbv zeta in E2. injection E2 as <-. simpl. exact Ht.
Qed.

Lemma move_and_back_witness :
  [root_entry "A" 1; root_entry "B" 2; root_entry "C" 3]
  = note_sequences three_roots.
Proof.
  apply (move_and_back 1 2 "A"%string None 3 three_roots
           (mk_db (notes three_roots)
              [root_entry "A" 3; root_entry "B" 1; root_entry "C" 2]
              [mk_settings "p"%string 3 1])
           (mk_db (notes three_roots)
              [root_entry "A" 1; root_entry "B" 2; root_entry "C" 3]
              [mk_settings "p"%string 3 2])
           (root_entry "A" 1)).
  - apply unique_ids_check_sound. reflexivity.
  - reflexivity.
  - apply all_dense_check_sound. reflexivity.
  - reflexivity.
  - reflexivity.
Defined.

(** ** delete_note_tree and the project's counter *)

(** X15: after [delete_note_tree] on a note that exists, the [note_count]
    of the note's project is the number of rows [notes] still has for that
    project and its [last_modified_at] is the time of the call; the rows of
    other projects in [settings] are as they were. *)
Theorem delete_updates_count now root db db' x :
  NoDup (map id (notes db)) -> In x (notes db) -> id x = root ->
  delete_note_tree now root db = Ok db' ->
  map s_id (settings db') = map s_id (settings db)
  /\ (forall s, In s (settings db') -> s_id s = n_project_id x ->
        note_count s
        = Z.of_nat
            (length
               (filter (fun n => uuid_eqb (n_project_id n) (n_project_id x))
                  (notes db')))
        /\ last_modified_at s = now)
  /\ (forall s, In s (settings db) -> s_id s <> n_project_id x ->
        In s (settings db')).
Proof.
  intros H Hx Hid E. unfold delete_note_tree in E.
  assert (F : find (fun n => uuid_eqb (id n) root) (notes db) = Some x).
  { destruct (find (fun n => uuid_eqb (id n) root) (notes db)) as [y|] eqn:F.
    - apply find_some in F. destruct F as [Hy Ey]. apply uuid_eqb_eq in Ey.
      f_equal. apply (NoDup_map_injective id (notes db)); auto. congruence.
    - exfalso. apply (find_none _ _ F) in Hx.
      rewrite Hid, uuid_eqb_refl in Hx. discriminate. }
  rewrite F in E. injection E as <-. simpl. split; [|split].
  - unfold sql_update. rewrite map_map. apply map_ext. intros s.
    destruct (uuid_eqb (s_id s) (n_project_id x)); reflexivity.
  - intros s Hs Hp. unfold sql_update in Hs. apply in_map_iff in Hs.
    destruct Hs as [s0 [Es Hs0]].
    destruct (uuid_eqb (s_id s0) (n_project_id x)) eqn:E0.
    + subst s. simpl. split; reflexivity.
    + subst s. apply uuid_eqb_neq in E0. contradiction.
  - intros s Hs Hp. apply sql_update_keeps; [exact Hs|]. simpl.
    apply uuid_eqb_neq. exact Hp.
Qed.

Lemma delete_updates_count_witness :
  note_count (mk_settings "p"%string 2 0) = 2
  /\ last_modified_at (mk_settings "p"%string 2 0) = 0.
Proof.
  destruct (delete_updates_count 0 "B"%string three_roots roots_with_gap
              (root_note "B")) as [_ [F _]].
  - apply (distinctb_sound uuid_eqb); [apply uuid_eqb_eq | reflexivity].
  - simpl. auto.
  - reflexivity.
  - reflexivity.
  - apply (F (mk_settings "p"%string 2 0)).
    + simpl. auto.
    + reflexivity.
Defined.

(** ** soft_delete_project and restore_project *)

(** X16: [restore_project] undoes [soft_delete_project] when the caller's
    rows of that project were not soft-deleted before. *)
Theorem restore_after_soft_delete uid now pid t :
  (forall p, In p t -> pr_id p = pid -> pr_user_id p = uid ->
     pr_deleted_at p = None) ->
  restore_project uid pid (soft_delete_project uid now pid t) = t.
Proof.
  intros H. unfold restore_project, soft_delete_project, sql_update.
  rewrite map_map. apply map_id_on. intros p Hp.
  destruct (uuid_eqb (pr_id p) pid) eqn:E1;
    destruct (uuid_eqb (pr_user_id p) uid) eqn:E2; simpl;
    rewrite ?E1, ?E2; simpl; try reflexivity.
  apply uuid_eqb_eq in E1. apply uuid_eqb_eq in E2.
  pose proof (H p Hp E1 E2) as Hn.
  destruct p as [i u d]. simpl in *. subst d. simpl.
  rewrite (proj2 (uuid_eqb_eq _ _) E1), (proj2 (uuid_eqb_eq _ _) E2).
  reflexivity.
Qed.

Lemma restore_after_soft_delete_witness :
  restore_project "u"%string "p"%string
    (soft_delete_project "u"%string 7 "p"%string
       [mk_project "p"%string "u"%string None;
        mk_project "q"%string "u"%string (Some 3)])
  = [mk_project "p"%string "u"%string None;
     mk_project "q"%string "u"%string (Some 3)].
Proof.
  apply restore_after_soft_delete.
  intros p [<-|[<-|[]]] E1 E2; [reflexivity | discriminate].
Defined.

(** X17: a project keeps the time of its first soft deletion: a second
    [soft_delete_project] changes nothing, and neither does a second
    [restore_project]; the rows of other users and of other projects are
    never written. *)
Theorem soft_delete_once uid uid' now now' pid t :
  soft_delete_project uid now' pid (soft_delete_project uid now pid t)
  = soft_delete_project uid now pid t
  /\ restore_project uid pid (restore_project uid pid t)
     = restore_project uid pid t
  /\ (forall p, In p t -> pr_user_id p <> uid \/ pr_id p <> pid ->
        In p (soft_delete_project uid now pid t)
        /\ In p (restore_project uid pid t))
  /\ (uid' <> uid ->
      restore_project uid' pid (soft_delete_project uid now pid t)
      = soft_delete_project uid now pid (restore_project uid' pid t)).
Proof.
  unfold restore_project, soft_delete_project, sql_update.
  split; [|split; [|split]].
  - rewrite map_map. apply map_ext. intros p.
    destruct (uuid_eqb (pr_id p) pid) eqn:E1;
      destruct (uuid_eqb (pr_user_id p) uid) eqn:E2;
      destruct (pr_deleted_at p) eqn:E3; simpl;
      rewrite ?E1, ?E2, ?E3; reflexivity.
  - rewrite map_map. apply map_ext. intros p.
    destruct (uuid_eqb (pr_id p) pid) eqn:E1;
      destruct (uuid_eqb (pr_user_id p) uid) eqn:E2;
      destruct (pr_deleted_at p) eqn:E3; simpl;
      rewrite ?E1, ?E2, ?E3; reflexivity.
  - intros p Hp Hne.
    assert (C : uuid_eqb (pr_id p) pid && uuid_eqb (pr_user_id p) uid = false).
    { apply andb_false_iff.
      destruct Hne as [Hne|Hne]; [right|left]; apply uuid_eqb_neq; exact Hne. }
    split; apply in_map_iff; exists p; rewrite C; auto.
  - intros Hne. rewrite !map_map. apply map_ext. intros p.
    destruct (uuid_eqb (pr_id p) pid) eqn:E1;
      destruct (uuid_eqb (pr_user_id p) uid) eqn:E2;
      destruct (uuid_eqb (pr_user_id p) uid') eqn:E3;
      destruct (pr_deleted_at p) eqn:E4; simpl;
      rewrite ?E1, ?E2, ?E3, ?E4; simpl; rewrite ?E1, ?E2, ?E3;
      try reflexivity.
    all: apply uuid_eqb_eq in E2; apply uuid_eqb_eq in E3; congruence.
Qed.

(** ** loadNotes and the tree of the store *)

Lemma insert_by_key_perm key n l : Permutation (insert_by_key key n l) (n :: l).
Proof.
  induction l as [|x l IH]; simpl; [reflexivity|].
  destruct (key n <=? key x); [reflexivity|].
  rewrite IH. apply perm_swap.
Qed.

Lemma sort_by_key_perm key l : Permutation (sort_by_key key l) l.
Proof.
  induction l as [|n l IH]; simpl; [reflexivity|].
  rewrite insert_by_key_perm. constructor. exact IH.
Qed.

Lemma insert_by_key_sorted key n l :
  StronglySorted (by_key key) l ->
  StronglySorted (by_key key) (insert_by_key key n l).
Proof.
  induction l as [|x l IH]; simpl; intros H.
  - constructor; constructor.
  - inversion H as [|y ys Hs Hall]; subst.
    destruct (Z.leb_spec (key n) (key x)) as [Hle|Hgt].
    + constructor; [exact H|]. constructor; [exact Hle|].
      rewrite Forall_forall in *. intros z Hz. specialize (Hall z Hz).
      unfold by_key in *. lia.
    + constructor; [apply IH; exact Hs|].
      rewrite Forall_forall in *. intros z Hz.
      apply (Permutation_in _ (insert_by_key_perm key n l)) in Hz.
      destruct Hz as [->|Hz]; [unfold by_key; lia | apply Hall; exact Hz].
Qed.

Lemma sort_by_key_sorted key l : StronglySorted (by_key key) (sort_by_key key l).
Proof.
  induction l as [|n l IH]; simpl; [constructor|].
  apply insert_by_key_sorted. exact IH.
Qed.

Lemma insert_by_key_stable key z n l :
  filter (fun x => key x =? z) (insert_by_key key n l)
  = filter (fun x => key x =? z) (n :: l).
Proof.
  induction l as [|x l IH]; [reflexivity|].
  simpl insert_by_key.
  destruct (Z.leb_spec (key n) (key x)) as [Hle|Hgt]; [reflexivity|].
  change (filter (fun x0 => key x0 =? z) (x :: insert_by_key key n l))
    with (if key x =? z
          then x :: filter (fun x0 => key x0 =? z) (insert_by_key key n l)
          else filter (fun x0 => key x0 =? z) (insert_by_key key n l)).
  rewrite IH. simpl.
  destruct (Z.eqb_spec (key x) z), (Z.eqb_spec (key n) z);
    try reflexivity; lia.
Qed.

Lemma sort_by_key_stable key z l :
  filter (fun x => key x =? z) (sort_by_key key l)
  = filter (fun x => key x =? z) l.
Proof.
  induction l as [|n l IH]; [reflexivity|].
  simpl sort_by_key. rewrite insert_by_key_stable.
  simpl. rewrite IH. reflexivity.
Qed.

Lemma orderMap_get_absent sequences n :
  ~ In n (map fst sequences) -> orderMap_get sequences n = None.
Proof.
  induction sequences as [|[k s] rest IH]; simpl; intros H; [reflexivity|].
  rewrite IH by tauto.
  destruct (uuid_eqb k n) eqn:E; [|reflexivity].
  apply uuid_eqb_eq in E. tauto.
Qed.

Lemma orderMap_get_unique sequences n s :
  NoDup (map fst sequences) -> In (n, s) sequences ->
  orderMap_get sequences n = Some s.
Proof.
  induction sequences as [|[k s'] rest IH]; simpl; intros H Hin;
    [contradiction|].
  inversion H as [|x xs Hnin Hnd]; subst.
  destruct Hin as [E|Hin].
  - injection E as -> ->. rewrite orderMap_get_absent by exact Hnin.
    rewrite uuid_eqb_refl. reflexivity.
  - rewrite (IH Hnd Hin). reflexivity.
Qed.

(** X18: [loadNotes] returns the notes of its second query, each once, in
    non-decreasing order of the sequence the first query gave for them, a
    note without an entry counting as 0; notes of equal sequence keep the
    order of the query. *)
Theorem loadNotes_sorted sequences notes :
  Permutation (loadNotes sequences notes) notes
  /\ StronglySorted (by_key (sort_key sequences)) (loadNotes sequences notes)
  /\ (forall z,
        filter (fun n => sort_key sequences n =? z) (loadNotes sequences notes)
        = filter (fun n => sort_key sequences n =? z) notes)
  /\ (forall n, ~ In (id n) (map fst sequences) -> sort_key sequences n = 0)
  /\ (forall n s, NoDup (map fst sequences) -> In (id n, s) sequences ->
        sort_key sequences n = s).
Proof.
  unfold loadNotes. split; [apply sort_by_key_perm|].
  split; [apply sort_by_key_sorted|].
  split; [intros z; apply sort_by_key_stable|].
  split.
  - intros n Hn. unfold sort_key. rewrite orderMap_get_absent by exact Hn.
    reflexivity.
  - intros n s H Hin. unfold sort_key.
    rewrite (orderMap_get_unique _ _ _ H Hin). reflexivity.
Qed.

Lemma place_notes_fold loaded l : forall f,
  rootNotes (fold_left (place_note loaded) l f)
  = rootNotes f
    ++ map id (filter (fun n => negb (has_loaded_parent loaded n)) l)
  /\ forall p,
       children (fold_left (place_note loaded) l f) p
       = children f p ++ map id (filter (child_of loaded p) l).
Proof.
  induction l as [|n l IH]; intros f; simpl.
  - rewrite app_nil_r. split; [reflexivity|].
    intros p. rewrite app_nil_r. reflexivity.
  - destruct (IH (place_note loaded f n)) as [Hr Hc]. rewrite Hr.
    unfold child_of.
    split.
    + unfold place_note. destruct (has_loaded_parent loaded n) eqn:E; simpl.
      * destruct (n_parent_id n); reflexivity.
      * rewrite <- app_assoc. reflexivity.
    + intros p. rewrite Hc. unfold place_note, child_of.
      destruct (has_loaded_parent loaded n) eqn:E; simpl.
      * destruct (n_parent_id n) as [q|] eqn:Eq; simpl.
        -- unfold push_child. rewrite (uuid_eqb_sym p q).
           destruct (uuid_eqb q p); simpl; [|reflexivity].
           rewrite <- app_assoc. reflexivity.
        -- unfold has_loaded_parent in E. rewrite Eq in E. discriminate.
      * reflexivity.
Qed.

Lemma build_forest_parts notes :
  rootNotes (build_forest notes)
  = map id (filter (fun n => negb (has_loaded_parent notes n)) notes)
  /\ forall p,
       children (build_forest notes) p
       = map id (filter (child_of notes p) notes).
Proof.
  unfold build_forest.
  destruct (place_notes_fold notes notes (mk_forest (fun _ => []) []))
    as [Hr Hc].
  split; [exact Hr|]. intros p. apply Hc.
Qed.

(** X19: the tree the store builds from the loaded notes: [rootNotes] are
    the notes without a parent among the loaded notes (no parent, the empty
    string as parent, or a parent that was not loaded), and the [children] of
    a note are the loaded notes that name it as parent, both in the order of
    the loaded list. *)
Theorem build_forest_spec notes :
  rootNotes (build_forest notes)
  = map id (filter (fun n => negb (has_loaded_parent notes n)) notes)
  /\ forall p,
       children (build_forest notes) p
       = map id (filter (child_of notes p) notes).
Proof. apply build_forest_parts. Qed.

Lemma filter_sorted key keep l :
  StronglySorted (by_key key) l ->
  StronglySorted (by_key key) (filter keep l).
Proof.
  induction 1 as [|x l Hs IH Hall]; simpl; [constructor|].
  destruct (keep x); [|exact IH].
  constructor; [exact IH|].
  rewrite Forall_forall in *. intros y Hy. apply filter_In in Hy.
  apply Hall. tauto.
Qed.

(** X20: in the tree built from the answer of [loadNotes], the children
    of every note and the root notes are in non-decreasing order of their
    sequence, and every loaded note is either a root note or a child of its
    parent. *)
Theorem forest_of_loaded_notes sequences notes :
  let loaded := loadNotes sequences notes in
  (exists roots,
     rootNotes (build_forest loaded) = map id roots
     /\ StronglySorted (by_key (sort_key sequences)) roots)
  /\ (forall p, exists kids,
        children (build_forest loaded) p = map id kids
        /\ StronglySorted (by_key (sort_key sequences)) kids)
  /\ (forall n, In n notes ->
        In (id n) (rootNotes (build_forest loaded))
        \/ exists p, n_parent_id n = Some p
                     /\ In (id n) (children (build_forest loaded) p)).
Proof.
  intros loaded. destruct (build_forest_parts loaded) as [Hr Hc].
  split; [|split].
  - eexists. split; [exact Hr|].
    apply filter_sorted. apply sort_by_key_sorted.
  - intros p. eexists. split; [apply Hc|].
    apply filter_sorted. apply sort_by_key_sorted.
  - intros n Hn.
    assert (Hl : In n loaded).
    { apply (Permutation_in n (Permutation_sym (sort_by_key_perm _ notes))).
      exact Hn. }
    destruct (has_loaded_parent loaded n) eqn:E.
    + right. pose proof E as E'. unfold has_loaded_parent in E'.
      destruct (n_parent_id n) as [p|] eqn:Ep; [|discriminate].
      exists p. split; [reflexivity|]. rewrite Hc. apply in_map.
      apply filter_In. split; [exact Hl|]. unfold child_of.
      rewrite E, Ep. simpl. apply uuid_eqb_refl.
    + left. rewrite Hr. apply in_map. apply filter_In.
      rewrite E. auto.
Qed.

(** ** addNote *)

Lemma tree_note_induction (P : tree_note -> Prop) :
  (forall i cs, Forall P cs -> P (TreeNote i cs)) -> forall n, P n.
Proof.
  intros step. fix IH 1. intros [i cs]. apply step.
  induction cs as [|c cs IHcs]; constructor; [apply IH | exact IHcs].
Qed.

Lemma updateChildren_absent parentId newNote : forall n,
  ~ In parentId (map t_id (tree_nodes n)) ->
  updateChildren parentId newNote n = n.
Proof.
  induction n as [i cs IH] using tree_note_induction. intros Hp.
  simpl in Hp. simpl.
  destruct (uuid_eqb i parentId) eqn:E.
  - apply uuid_eqb_eq in E. tauto.
  - f_equal. apply map_id_on. intros c Hc.
    rewrite Forall_forall in IH. apply IH; [exact Hc|].
    intros Hin. apply Hp. right.
    rewrite flat_map_concat_map, concat_map, map_map.
    apply in_concat. exists (map t_id (tree_nodes c)).
    split; [|exact Hin]. apply in_map_iff. exists c. auto.
Qed.

Lemma tree_ids_In parentId notes c :
  In c notes -> In parentId (map t_id (tree_nodes c)) ->
  In parentId (tree_ids notes).
Proof.
  intros Hc Hin. unfold tree_ids. apply in_map_iff in Hin.
  destruct Hin as [x [Hx Hin]]. apply in_map_iff. exists x.
  split; [exact Hx|]. apply in_flat_map. exists c. auto.
Qed.

(** X21: when no note of the tree has the parent's id, [addNote] leaves
    the tree as it is: the note that [create] has stored is not shown. *)
Theorem addNote_unknown_parent parentId noteId notes :
  parentId <> EmptyString -> ~ In parentId (tree_ids notes) ->
  addNote (Some parentId) noteId notes = notes.
Proof.
  intros Hne Hp. unfold addNote.
  destruct (String.eqb_spec parentId EmptyString) as [E|_]; [contradiction|].
  apply map_id_on. intros c Hc. apply updateChildren_absent.
  intros Hin. apply Hp. apply (tree_ids_In parentId notes c); assumption.
Qed.

Lemma addNote_unknown_parent_witness :
  addNote (Some "Z"%string) "N"%string
    [TreeNote "A"%string [TreeNote "B"%string []]]
  = [TreeNote "A"%string [TreeNote "B"%string []]].
Proof.
  apply addNote_unknown_parent.
  - discriminate.
  - simpl. intros [E|[E|[]]]; discriminate.
Defined.

Lemma NoDup_app_parts {A : Type} (l1 l2 : list A) :
  NoDup (l1 ++ l2) ->
  NoDup l1 /\ NoDup l2 /\ forall x, In x l1 -> ~ In x l2.
Proof.
  induction l1 as [|a l1 IH]; simpl; intros H.
  - split; [constructor|]. split; [exact H|]. intros x [].
  - inversion H as [|x xs Hnin Hnd]; subst.
    destruct (IH Hnd) as [H1 [H2 H3]].
    split; [constructor; [|exact H1]|split; [exact H2|]].
    + intros Hin. apply Hnin. apply in_or_app. left. exact Hin.
    + intros y [<-|Hy]; [|apply H3; exact Hy].
      intros Hin. apply Hnin. apply in_or_app. right. exact Hin.
Qed.

Lemma tree_ids_cons c notes :
  tree_ids (c :: notes) = map t_id (tree_nodes c) ++ tree_ids notes.
Proof. unfold tree_ids. simpl. apply map_app. Qed.

Lemma tree_nodes_ids i cs :
  map t_id (tree_nodes (TreeNote i cs)) = i :: tree_ids cs.
Proof. reflexivity. Qed.

(** The new note under the one note that has the parent's id: what a list
    of trees becomes when each of its trees does as stated. *)
Lemma updateChildren_adds_list parentId noteId ks :
  Forall
    (fun n =>
       NoDup (map t_id (tree_nodes n)) ->
       In parentId (map t_id (tree_nodes n)) ->
       Permutation
         (map t_id
            (tree_nodes (updateChildren parentId (TreeNote noteId []) n)))
         (noteId :: map t_id (tree_nodes n))
       /\ forall cs, In (TreeNote parentId cs) (tree_nodes n) ->
            In (TreeNote parentId (cs ++ [TreeNote noteId []]))
              (tree_nodes (updateChildren parentId (TreeNote noteId []) n)))
    ks ->
  NoDup (tree_ids ks) -> In parentId (tree_ids ks) ->
  Permutation
    (tree_ids (map (updateChildren parentId (TreeNote noteId [])) ks))
    (noteId :: tree_ids ks)
  /\ forall cs, In (TreeNote parentId cs) (flat_map tree_nodes ks) ->
       In (TreeNote parentId (cs ++ [TreeNote noteId []]))
         (flat_map tree_nodes
            (map (updateChildren parentId (TreeNote noteId [])) ks)).
Proof.
  induction ks as [|c ks IHks]; intros IH Hks Hin; [contradiction|].
  inversion IH as [|y ys Hc Hrest]; subst.
  rewrite tree_ids_cons in Hks, Hin.
  destruct (NoDup_app_parts _ _ Hks) as [N1 [N2 N3]].
  simpl map. rewrite !tree_ids_cons.
  apply in_app_or in Hin. destruct Hin as [Hin|Hin].
  - destruct (Hc N1 Hin) as [P1 P2].
    assert (Hrest' : map (updateChildren parentId (TreeNote noteId [])) ks
                     = ks).
    { apply map_id_on. intros d Hd. apply updateChildren_absent.
      intros Hd'. apply (N3 parentId Hin).
      apply (tree_ids_In parentId ks d); assumption. }
    rewrite Hrest'. split.
    + rewrite P1. reflexivity.
    + intros cs Hcs. simpl in Hcs |- *. apply in_app_or in Hcs.
      apply in_or_app. destruct Hcs as [Hcs|Hcs]; [left; auto|].
      exfalso. apply (N3 parentId Hin). unfold tree_ids.
      apply in_map_iff. exists (TreeNote parentId cs). auto.
  - assert (Hc' : updateChildren parentId (TreeNote noteId []) c = c).
    { apply updateChildren_absent. intros Hd. exact (N3 _ Hd Hin). }
    rewrite Hc'. destruct (IHks Hrest N2 Hin) as [P1 P2]. split.
    + rewrite P1. apply Permutation_sym. apply Permutation_middle.
    + intros cs Hcs. simpl in Hcs |- *. apply in_app_or in Hcs.
      apply in_or_app. destruct Hcs as [Hcs|Hcs]; [|right; auto].
      exfalso. apply (N3 parentId); [|exact Hin].
      apply in_map_iff. exists (TreeNote parentId cs). auto.
Qed.

Lemma updateChildren_adds parentId noteId : forall n,
  NoDup (map t_id (tree_nodes n)) ->
  In parentId (map t_id (tree_nodes n)) ->
  Permutation
    (map t_id (tree_nodes (updateChildren parentId (TreeNote noteId []) n)))
    (noteId :: map t_id (tree_nodes n))
  /\ forall cs, In (TreeNote parentId cs) (tree_nodes n) ->
       In (TreeNote parentId (cs ++ [TreeNote noteId []]))
         (tree_nodes (updateChildren parentId (TreeNote noteId []) n)).
Proof.
  induction n as [i ks IH] using tree_note_induction. intros Hnd Hin.
  rewrite tree_nodes_ids in Hnd, Hin.
  inversion Hnd as [|x xs Hi Hks]; subst.
  simpl updateChildren. destruct (uuid_eqb i parentId) eqn:E.
  - apply uuid_eqb_eq in E. subst i. split.
    + rewrite !tree_nodes_ids. unfold tree_ids.
      rewrite flat_map_app, map_app. simpl.
      rewrite Permutation_app_comm. simpl. apply perm_swap.
    + intros cs [Hc|Hc].
      * injection Hc as <-. left. reflexivity.
      * exfalso. apply Hi. unfold tree_ids. apply in_map_iff.
        exists (TreeNote parentId cs). auto.
  - apply uuid_eqb_neq in E. destruct Hin as [Hin|Hin]; [contradiction|].
    destruct (updateChildren_adds_list parentId noteId ks IH Hks Hin)
      as [L1 L2].
    split.
    + rewrite !tree_nodes_ids. rewrite L1. apply perm_swap.
    + intros cs [Hc|Hc]; [congruence|]. right. apply L2. exact Hc.
Qed.

(** X22: when the ids of the tree are unique and a note has the parent's
    id, [addNote] puts the new note, without children, at the end of that
    note's children; the tree gains this one note and loses none. *)
Theorem addNote_under_parent parentId noteId notes cs :
  parentId <> EmptyString -> NoDup (tree_ids notes) ->
  In (TreeNote parentId cs) (flat_map tree_nodes notes) ->
  In (TreeNote parentId (cs ++ [TreeNote noteId []]))
    (flat_map tree_nodes (addNote (Some parentId) noteId notes))
  /\ Permutation (tree_ids (addNote (Some parentId) noteId notes))
       (noteId :: tree_ids notes).
Proof.
  intros Hne Hnd Hin. unfold addNote.
  destruct (String.eqb_spec parentId EmptyString) as [E|_]; [contradiction|].
  assert (Hp : In parentId (tree_ids notes)).
  { unfold tree_ids. apply in_map_iff. exists (TreeNote parentId cs). auto. }
  destruct (updateChildren_adds_list parentId noteId notes) as [L1 L2];
    [|exact Hnd|exact Hp|].
  - apply Forall_forall. intros n _. apply updateChildren_adds.
  - split; [apply L2; exact Hin | exact L1].
Qed.

Lemma addNote_under_parent_witness :
  In (TreeNote "B"%string [TreeNote "C"%string []; TreeNote "N"%string []])
    (flat_map tree_nodes
       (addNote (Some "B"%string) "N"%string
          [TreeNote "A"%string [TreeNote "B"%string [TreeNote "C"%string []]]]))
  /\ Permutation
       (tree_ids
          (addNote (Some "B"%string) "N"%string
             [TreeNote "A"%string
                [TreeNote "B"%string [TreeNote "C"%string []]]]))
       ("N"%string
        :: tree_ids
             [TreeNote "A"%string
                [TreeNote "B"%string [TreeNote "C"%string []]]]).
Proof.
  apply (addNote_under_parent "B"%string "N"%string
           [TreeNote "A"%string [TreeNote "B"%string [TreeNote "C"%string []]]]
           [TreeNote "C"%string []]).
  - discriminate.
  - apply (distinctb_sound uuid_eqb); [apply uuid_eqb_eq | reflexivity].
  - simpl. auto.
Defined.

(** ** setCurrentLevel *)

Lemma mem_set_add x y s : mem x (set_add y s) = uuid_eqb x y || mem x s.
Proof.
  unfold set_add. destruct (mem y s) eqn:E.
  - destruct (uuid_eqb x y) eqn:Exy; [|reflexivity].
    apply uuid_eqb_eq in Exy. subst y. rewrite E. reflexivity.
  - unfold mem. rewrite existsb_app. simpl.
    rewrite orb_false_r. apply orb_comm.
Qed.

Lemma mem_set_delete x y s :
  mem x (set_delete y s) = negb (uuid_eqb x y) && mem x s.
Proof.
  unfold set_delete, mem. induction s as [|a s IH]; simpl.
  - rewrite andb_false_r. reflexivity.
  - destruct (uuid_eqb a y) eqn:Ea; simpl; rewrite IH.
    + apply uuid_eqb_eq in Ea. subst a.
      destruct (uuid_eqb x y); reflexivity.
    + destruct (uuid_eqb x a) eqn:Exa; simpl; [|reflexivity].
      apply uuid_eqb_eq in Exa. subst a. rewrite Ea. reflexivity.
Qed.

(** [updateExpanded] is one pass over the notes with children. *)
Lemma updateExpanded_list level d ks :
  Forall
    (fun n => forall d s,
       updateExpanded level d n s
       = fold_left
           (fun acc p =>
              if snd p <? level then set_add (fst p) acc
              else set_delete (fst p) acc)
           (open_levels d n) s)
    ks ->
  forall s,
    fold_left (fun acc child => updateExpanded level d child acc) ks s
    = fold_left
        (fun acc p =>
           if snd p <? level then set_add (fst p) acc
           else set_delete (fst p) acc)
        (flat_map (open_levels d) ks) s.
Proof.
  induction 1 as [|c ks Hc Hks IH]; intros s; [reflexivity|].
  simpl. rewrite fold_left_app, <- Hc. apply IH.
Qed.

Lemma updateExpanded_pass level : forall n d s,
  updateExpanded level d n s
  = fold_left
      (fun acc p =>
         if snd p <? level then set_add (fst p) acc
         else set_delete (fst p) acc)
      (open_levels d n) s.
Proof.
  induction n as [i cs IH] using tree_note_induction. intros d s.
  destruct cs as [|c cs]; [reflexivity|].
  change (updateExpanded level d (TreeNote i (c :: cs)) s)
    with (fold_left
            (fun acc child => updateExpanded level (d + 1) child acc)
            (c :: cs)
            (if d <? level then set_add i s else set_delete i s)).
  rewrite (updateExpanded_list level (d + 1) (c :: cs) IH). reflexivity.
Qed.

Lemma pass_by_depth level l : forall s,
  NoDup (map fst l) ->
  let s' :=
    fold_left
      (fun acc p =>
         if snd p <? level then set_add (fst p) acc
         else set_delete (fst p) acc) l s in
  (forall i d, In (i, d) l -> mem i s' = (d <? level))
  /\ (forall i, ~ In i (map fst l) -> mem i s' = mem i s).
Proof.
  induction l as [|[j dj] l IH]; intros s H; simpl.
  - split; [intros i d []|reflexivity].
  - inversion H as [|x xs Hnin Hnd]; subst.
    destruct (IH (if dj <? level then set_add j s else set_delete j s) Hnd)
      as [I1 I2].
    split.
    + intros i d [E|Hin]; [|apply I1; exact Hin].
      injection E as -> ->. rewrite (I2 i Hnin).
      destruct (d <? level).
      * rewrite mem_set_add, uuid_eqb_refl. reflexivity.
      * rewrite mem_set_delete, uuid_eqb_refl. reflexivity.
    + intros i Hi. rewrite I2 by tauto.
      assert (E : uuid_eqb i j = false)
        by (apply uuid_eqb_neq; intros ->; tauto).
      destruct (dj <? level).
      * rewrite mem_set_add, E. reflexivity.
      * rewrite mem_set_delete, E. reflexivity.
Qed.

(** X23: after [setCurrentLevel], when no two notes with children share an
    id, a note with children is in [expandedNotes] exactly when its depth is
    below the level that was set, and an id that is not the id of a note with
    children is in the set exactly when it was before. *)
Theorem setCurrentLevel_expanded level notes expanded :
  NoDup (map fst (open_notes notes)) ->
  (forall i d, In (i, d) (open_notes notes) ->
     mem i (expandedNotes (setCurrentLevel level notes expanded))
     = (d <? currentLevel (setCurrentLevel level notes expanded)))
  /\ (forall i, ~ In i (map fst (open_notes notes)) ->
        mem i (expandedNotes (setCurrentLevel level notes expanded))
        = mem i expanded).
Proof.
  intros H. unfold setCurrentLevel. simpl.
  rewrite (updateExpanded_list (newLevel level notes) 0 notes).
  - apply (pass_by_depth (newLevel level notes) (open_notes notes) expanded H).
  - apply Forall_forall. intros n _. apply updateExpanded_pass.
Qed.

Lemma setCurrentLevel_expanded_witness :
  mem "A"%string
    (expandedNotes
       (setCurrentLevel 1
          [TreeNote "A"%string [TreeNote "B"%string [TreeNote "C"%string []]]]
          ["B"%string]))
  = (0 <? currentLevel
            (setCurrentLevel 1
               [TreeNote "A"%string
                  [TreeNote "B"%string [TreeNote "C"%string []]]]
               ["B"%string])).
Proof.
  destruct (setCurrentLevel_expanded 1
              [TreeNote "A"%string
                 [TreeNote "B"%string [TreeNote "C"%string []]]]
              ["B"%string]) as [F _].
  - apply (distinctb_sound uuid_eqb); [apply uuid_eqb_eq | reflexivity].
  - apply (F "A"%string 0). simpl. auto.
Defined.

Lemma traverse_fold_above k ks :
  Forall (fun c => forall cd acc, Z.max acc cd <= traverse c cd acc) ks ->
  forall a, a <= fold_left (fun d child => traverse child k d) ks a.
Proof.
  induction 1 as [|c ks Hc Hks IH]; intros a; simpl; [lia|].
  specialize (IH (traverse c k a)). specialize (Hc k a). lia.
Qed.

Lemma traverse_above : forall n cd acc, Z.max acc cd <= traverse n cd acc.
Proof.
  induction n as [i cs IH] using tree_note_induction. intros cd acc. simpl.
  apply (traverse_fold_above (cd + 1) cs IH).
Qed.

Lemma traverse_fold_reaches k c bound : forall ks a,
  In c ks -> (forall acc, bound <= traverse c k acc) ->
  bound <= fold_left (fun d child => traverse child k d) ks a.
Proof.
  assert (Habove : forall ks a,
            a <= fold_left (fun d child => traverse child k d) ks a).
  { intros ks a. apply traverse_fold_above. apply Forall_forall.
    intros n _. apply traverse_above. }
  induction ks as [|c0 ks IH]; intros a Hin Hb; [contradiction|].
  simpl. destruct Hin as [->|Hin].
  - specialize (Habove ks (traverse c k a)). specialize (Hb a). lia.
  - apply IH; assumption.
Qed.

Lemma open_levels_depth : forall n cd i dx,
  In (i, dx) (open_levels cd n) ->
  cd <= dx /\ forall acc, dx + 1 <= traverse n cd acc.
Proof.
  induction n as [j cs IH] using tree_note_induction. intros cd i dx Hin.
  destruct cs as [|c cs]; [contradiction|].
  change (open_levels cd (TreeNote j (c :: cs)))
    with ((j, cd) :: flat_map (open_levels (cd + 1)) (c :: cs)) in Hin.
  change (forall acc, dx + 1 <= traverse (TreeNote j (c :: cs)) cd acc)
    with (forall acc,
            dx + 1
            <= fold_left (fun d child => traverse child (cd + 1) d) (c :: cs)
                 (Z.max acc cd)).
  destruct Hin as [E|Hin].
  - injection E as -> ->. split; [lia|]. intros acc.
    apply (traverse_fold_reaches (dx + 1) c); [left; reflexivity|].
    intros a. pose proof (traverse_above c (dx + 1) a). lia.
  - apply in_flat_map in Hin. destruct Hin as [c' [Hc' Hin]].
    rewrite Forall_forall in IH.
    destruct (IH c' Hc' (cd + 1) i dx Hin) as [H1 H2].
    split; [lia|]. intros acc.
    apply (traverse_fold_reaches (cd + 1) c'); assumption.
Qed.

Lemma treeDepth_spec notes D :
  treeDepth notes = Some D ->
  0 <= D
  /\ forall i d, In (i, d) (open_notes notes) -> 0 <= d < D.
Proof.
  unfold treeDepth. destruct notes as [|n notes]; [discriminate|].
  simpl map. intros E. injection E as <-.
  destruct (fold_max_spec (map (fun note => traverse note 0 0) notes)
              (traverse n 0 0)) as [_ Hle].
  split.
  - pose proof (traverse_above n 0 0).
    specialize (Hle (traverse n 0 0) (or_introl eq_refl)). lia.
  - intros i d Hin. unfold open_notes in Hin. apply in_flat_map in Hin.
    destruct Hin as [c [Hc Hin]].
    destruct (open_levels_depth c 0 i d Hin) as [H0 H1].
    specialize (H1 0).
    assert (traverse c 0 0
            <= fold_left Z.max (map (fun note => traverse note 0 0) notes)
                 (traverse n 0 0)).
    { apply Hle. destruct Hc as [->|Hc]; [left; reflexivity|].
      right. apply in_map_iff. exists c. auto. }
    lia.
Qed.

Lemma pass_all_open level l :
  (forall i d, In (i, d) l -> d < level) ->
  forall s i,
    In i (map fst l) \/ mem i s = true ->
    mem i
      (fold_left
         (fun acc p =>
            if snd p <? level then set_add (fst p) acc
            else set_delete (fst p) acc) l s)
    = true.
Proof.
  induction l as [|[j dj] l IH]; intros Hl s i Hi; simpl.
  - destruct Hi as [[]|Hi]. exact Hi.
  - assert (Hj : (dj <? level) = true)
      by (apply Z.ltb_lt; apply (Hl j); left; reflexivity).
    rewrite Hj. apply IH.
    + intros i' d' Hin. apply (Hl i'). right. exact Hin.
    + rewrite mem_set_add. simpl in Hi.
      destruct Hi as [[E|Hi]|Hi].
      * right. rewrite E, uuid_eqb_refl. reflexivity.
      * left. exact Hi.
      * right. rewrite Hi. apply orb_true_r.
Qed.

Lemma pass_all_closed level l :
  (forall i d, In (i, d) l -> level <= d) ->
  forall s i,
    In i (map fst l) \/ mem i s = false ->
    mem i
      (fold_left
         (fun acc p =>
            if snd p <? level then set_add (fst p) acc
            else set_delete (fst p) acc) l s)
    = false.
Proof.
  induction l as [|[j dj] l IH]; intros Hl s i Hi; simpl.
  - destruct Hi as [[]|Hi]. exact Hi.
  - assert (Hj : (dj <? level) = false)
      by (apply Z.ltb_ge; apply (Hl j); left; reflexivity).
    rewrite Hj. apply IH.
    + intros i' d' Hin. apply (Hl i'). right. exact Hin.
    + rewrite mem_set_delete. simpl in Hi.
      destruct Hi as [[E|Hi]|Hi].
      * right. rewrite E, uuid_eqb_refl. reflexivity.
      * left. exact Hi.
      * right. rewrite Hi. apply andb_false_r.
Qed.

(** X24: [setCurrentLevel] keeps the level between 0 and the depth of the
    tree; asked for 0 or less it takes every note with children out of
    [expandedNotes] and nothing is left to collapse, asked for the depth of
    the tree or more it puts every note with children in and nothing is left
    to expand. *)
Theorem setCurrentLevel_extremes level notes expanded D :
  treeDepth notes = Some D ->
  0 <= currentLevel (setCurrentLevel level notes expanded) <= D
  /\ (level <= 0 ->
      currentLevel (setCurrentLevel level notes expanded) = 0
      /\ canCollapseMore (setCurrentLevel level notes expanded) = false
      /\ forall i d, In (i, d) (open_notes notes) ->
           mem i (expandedNotes (setCurrentLevel level notes expanded))
           = false)
  /\ (D <= level ->
      currentLevel (setCurrentLevel level notes expanded) = D
      /\ canExpandMore (setCurrentLevel level notes expanded) = false
      /\ forall i d, In (i, d) (open_notes notes) ->
           mem i (expandedNotes (setCurrentLevel level notes expanded))
           = true).
Proof.
  intros HD. destruct (treeDepth_spec notes D HD) as [H0 Hopen].
  unfold setCurrentLevel, newLevel. rewrite HD. simpl.
  assert (Hpass : forall l s,
            fold_left (fun acc note => updateExpanded l 0 note acc) notes s
            = fold_left
                (fun acc p =>
                   if snd p <? l then set_add (fst p) acc
                   else set_delete (fst p) acc)
                (open_notes notes) s).
  { intros l s. apply updateExpanded_list. apply Forall_forall.
    intros n _. apply updateExpanded_pass. }
  rewrite Hpass. split; [lia|]. split.
  - intros Hl. replace (Z.max 0 (Z.min level D)) with 0 by lia.
    split; [reflexivity|]. split; [reflexivity|].
    intros i d Hin. apply pass_all_closed.
    + intros i' d' Hin'. apply (Hopen i' d' Hin').
    + left. apply in_map_iff. exists (i, d). auto.
  - intros Hl. replace (Z.max 0 (Z.min level D)) with D by lia.
    split; [reflexivity|]. split; [apply Z.ltb_irrefl|].
    intros i d Hin. apply pass_all_open.
    + intros i' d' Hin'. apply (Hopen i' d' Hin').
    + left. apply in_map_iff. exists (i, d). auto.
Qed.

Lemma setCurrentLevel_extremes_witness :
  0 <= currentLevel
         (setCurrentLevel 5
            [TreeNote "A"%string [TreeNote "B"%string [TreeNote "C"%string []]]]
            [])
    <= 2.
Proof.
  apply (setCurrentLevel_extremes 5
           [TreeNote "A"%string [TreeNote "B"%string [TreeNote "C"%string []]]]
           [] 2).
  reflexivity.
Defined.

(** ** delete_note_tree followed by normalize_sequences *)

(** X25: [delete_note_tree] keeps the note ids of [note_sequences] unique,
    and [normalize_sequences] on the table it leaves closes the gaps: every
    sibling group of the project is dense again, with the entries that
    survived the deletion. *)
Theorem delete_then_normalize now root db db' proj :
  NoDup (map note_id (note_sequences db)) ->
  delete_note_tree now root db = Ok db' ->
  NoDup (map note_id (note_sequences db'))
  /\ (forall par,
        dense (group proj par (normalize_sequences proj (note_sequences db'))))
  /\ map note_id (normalize_sequences proj (note_sequences db'))
     = map note_id (note_sequences db').
Proof.
  intros H E. unfold delete_note_tree in E. injection E as <-. simpl.
  set (t' := cascade_sequences _ _).
  assert (H' : NoDup (map note_id t')).
  { unfold t', cascade_sequences, sql_delete.
    apply filter_keeps_distinct. apply filter_keeps_distinct. exact H. }
  destruct (normalize_sequences_parts proj t' H') as [_ [Hd [Hk _]]].
  split; [exact H'|]. split; [exact Hd | exact Hk].
Qed.

Lemma delete_then_normalize_witness :
  NoDup (map note_id (note_sequences roots_with_gap))
  /\ (forall par,
        dense (group "p"%string par
                 (normalize_sequences "p"%string
                    (note_sequences roots_with_gap))))
  /\ map note_id
       (normalize_sequences "p"%string (note_sequences roots_with_gap))
     = map note_id (note_sequences roots_with_gap).
Proof.
  apply (delete_then_normalize 0 "B"%string three_roots roots_with_gap).
  - apply unique_ids_check_sound. reflexivity.
  - reflexivity.
Defined.

(** ** move_note under the constraints of the schema *)

Lemma update_rows_done where_ set_ todo : forall visited t',
  Checked.update_rows where_ set_ visited todo = Checked.Done t' ->
  t' = visited ++ sql_update where_ set_ todo.
Proof.
  induction todo as [|r rest IH]; intros visited t' E; simpl in E.
  - injection E as <-. simpl. rewrite app_nil_r. reflexivity.
  - unfold sql_update in *. simpl. destruct (where_ r).
    + destruct (negb (Checked.int4 (sequence (set_ r)))); [discriminate|].
      destruct (existsb (Checked.same_place (set_ r)) (visited ++ rest));
        [discriminate|].
      rewrite (IH _ _ E), <- app_assoc. reflexivity.
    + rewrite (IH _ _ E), <- app_assoc. reflexivity.
Qed.

Lemma update_done where_ set_ t t' :
  Checked.update where_ set_ t = Checked.Done t' ->
  t' = sql_update where_ set_ t.
Proof. intros E. apply (update_rows_done _ _ _ [] _ E). Qed.

Lemma bind_done {A B : Type} (c : Checked.run A) (k : A -> Checked.run B) b :
  Checked.bind c k = Checked.Done b ->
  exists a, c = Checked.Done a /\ k a = Checked.Done b.
Proof. destruct c as [a|e]; simpl; intros E; [eauto | discriminate]. Qed.

Lemma integer_done z z' : Checked.integer z = Checked.Done z' -> z' = z.
Proof.
  unfold Checked.integer. destruct (Checked.int4 z); intros E;
    [injection E as <-; reflexivity | discriminate].
Qed.

Lemma checked_normalize_loop_done ids : forall c t t',
  Checked.normalize_loop ids c t = Checked.Done t' ->
  t' = normalize_loop ids c t.
Proof.
  induction ids as [|nid ids IH]; intros c t t' E; simpl in E.
  - injection E as <-. reflexivity.
  - apply bind_done in E. destruct E as [t1 [E1 E]].
    apply bind_done in E. destruct E as [next [E2 E]].
    apply update_done in E1. apply integer_done in E2. subst t1 next.
    simpl. apply IH. exact E.
Qed.

Lemma checked_shift_done proj oldp old newp q t t' :
  Checked.shift proj oldp old newp q t = Checked.Done t' ->
  t' = shift proj oldp old newp q t.
Proof.
  unfold Checked.shift, shift. intros E.
  destruct (not_distinct oldp newp); [destruct (old <? q)|].
  - apply update_done. exact E.
  - apply update_done. exact E.
  - apply bind_done in E. destruct E as [t1 [E1 E]].
    apply update_done in E1. apply update_done in E. subst t1. exact E.
Qed.

(** A call that passes every check leaves the database that the statements
    compute. *)
Lemma checked_move_note_done now n newp pos db db' :
  Checked.move_note now n newp pos db = Checked.Done db' ->
  move_note now n newp pos db = Ok db'.
Proof.
  unfold Checked.move_note, move_note. intros E.
  apply bind_done in E. destruct E as [_ [_ E]].
  destruct (find (has_note_id n) (note_sequences db)) as [r0|];
    [|discriminate].
  apply bind_done in E. destruct E as [top [Etop E]].
  apply integer_done in Etop. subst top.
  apply bind_done in E. destruct E as [t1 [E1 E]].
  apply bind_done in E. destruct E as [_ [_ E]].
  apply bind_done in E. destruct E as [_ [_ E]].
  apply bind_done in E. destruct E as [t3 [E3 E]].
  apply bind_done in E. destruct E as [t4 [E4 E]].
  apply bind_done in E. destruct E as [t5 [E5 E]].
  apply bind_done in E. destruct E as [t6 [E6 E]].
  injection E as <-.
  apply update_done in E1. apply checked_shift_done in E3.
  apply update_done in E4.
  apply checked_normalize_loop_done in E5.
  f_equal. f_equal.
  unfold repair, park_shift_place, place, park, clamp_position,
    normalize_note_sequences.
  subst t1 t3 t4.
  destruct (not_distinct (parent_id r0) newp).
  - injection E6 as <-. subst t5. reflexivity.
  - apply checked_normalize_loop_done in E6. subst t5 t6. reflexivity.
Qed.

(** What the checks refuse and what they let pass.  In the group of X's
    children [P:1, Q:2, R:3], scanned in this order, moving [R] two places
    up is refused: the shift writes [P] to 2 while [Q] still has 2.  Moving
    [R] one place up, and moving [P] to the end, pass.  A move in front of
    the two children of another parent is refused in the same way, and a
    move under a parent that is no note is refused by the foreign key.  The
    move of Scenario B passes, and so do the moves of a note under itself
    and under its child. *)
Lemma checked_move_note_examples :
  Checked.move_note 0 "R"%string (Some "X"%string) 1 three_children
  = Checked.Aborted Checked.unique_violation
  /\ (exists db',
        Checked.move_note 0 "R"%string (Some "X"%string) 2 three_children
        = Checked.Done db')
  /\ (exists db',
        Checked.move_note 0 "P"%string (Some "X"%string) 3 three_children
        = Checked.Done db')
  /\ Checked.move_note 0 "R"%string (Some "X"%string) 1 two_families
     = Checked.Aborted Checked.unique_violation
  /\ Checked.move_note 0 "A"%string (Some "Z"%string) 1 three_roots
     = Checked.Aborted Checked.foreign_key_violation
  /\ (exists db',
        Checked.move_note 0 "Q"%string (Some "Y"%string) 1 two_families
        = Checked.Done db')
  /\ (exists db',
        Checked.move_note 7 "A"%string (Some "A"%string) 1 parent_and_child
        = Checked.Done db')
  /\ (exists db',
        Checked.move_note 7 "A"%string (Some "B"%string) 1 parent_and_child
        = Checked.Done db').
Proof.
  repeat split; try reflexivity; eexists; reflexivity.
Qed.

(** *** Moves within the root group *)

Lemma no_row_at_root_place a l :
  parent_id a = None -> existsb (Checked.same_place a) l = false.
Proof.
  intros H. induction l as [|b l IH]; simpl; [reflexivity|].
  rewrite IH, orb_false_r. unfold Checked.same_place. rewrite H. simpl.
  rewrite andb_false_r. reflexivity.
Qed.

Lemma update_rows_passes where_ set_ todo :
  (forall r, In r todo -> where_ r = true ->
     parent_id (set_ r) = None /\ Checked.int4 (sequence (set_ r)) = true) ->
  forall visited,
    Checked.update_rows where_ set_ visited todo
    = Checked.Done (visited ++ sql_update where_ set_ todo).
Proof.
  unfold sql_update.
  induction todo as [|r rest IH]; intros H visited; simpl.
  - rewrite app_nil_r. reflexivity.
  - assert (Hrest : forall x, In x rest -> where_ x = true ->
              parent_id (set_ x) = None
              /\ Checked.int4 (sequence (set_ x)) = true)
      by (intros x Hx; apply H; right; exact Hx).
    destruct (where_ r) eqn:W.
    + destruct (H r (or_introl eq_refl) W) as [Hp Hi]. rewrite Hi. simpl.
      rewrite (no_row_at_root_place _ _ Hp).
      rewrite (IH Hrest), <- app_assoc. reflexivity.
    + rewrite (IH Hrest), <- app_assoc. reflexivity.
Qed.

Lemma update_passes where_ set_ t :
  (forall r, In r t -> where_ r = true ->
     parent_id (set_ r) = None /\ Checked.int4 (sequence (set_ r)) = true) ->
  Checked.update where_ set_ t = Checked.Done (sql_update where_ set_ t).
Proof. intros H. apply (update_rows_passes _ _ _ H []). Qed.

Lemma int4_spec z :
  Checked.int4 z = true <-> -2147483648 <= z <= 2147483647.
Proof. unfold Checked.int4. rewrite andb_true_iff. lia. Qed.

Lemma sql_update_In {A : Type} (where_ : A -> bool) (set_ : A -> A)
    (rows : list A) (x : A) :
  In x (sql_update where_ set_ rows) ->
  exists y, In y rows /\ x = (if where_ y then set_ y else y).
Proof.
  unfold sql_update. intros H. apply in_map_iff in H.
  destruct H as [y [E Hy]]. exists y. auto.
Qed.

Lemma checked_normalize_passes ids : forall c t,
  (forall r, In r t -> In (note_id r) ids -> parent_id r = None) ->
  1 <= c -> c + Z.of_nat (length ids) <= 2147483647 ->
  Checked.normalize_loop ids c t = Checked.Done (normalize_loop ids c t).
Proof.
  induction ids as [|nid ids IH]; intros c t Hroot Hc Hlen; [reflexivity|].
  simpl in Hlen. simpl.
  rewrite update_passes.
  - simpl. unfold Checked.integer.
    rewrite (proj2 (int4_spec (c + 1))) by lia. simpl.
    apply IH; [|lia|lia].
    intros r Hr Hin. apply sql_update_In in Hr. destruct Hr as [y [Hy ->]].
    destruct (has_note_id nid y) eqn:E.
    + simpl. apply Hroot; [exact Hy|]. left.
      apply uuid_eqb_eq in E. auto.
    + apply Hroot; [exact Hy|]. right. exact Hin.
  - intros r Hr E. simpl. split.
    + apply Hroot; [exact Hr|]. left. apply uuid_eqb_eq in E. auto.
    + apply int4_spec. lia.
Qed.

Lemma max_sequence_bounds proj par t lo hi :
  lo <= 0 <= hi ->
  (forall r, In r t -> lo <= sequence r <= hi) ->
  lo <= max_sequence proj par t <= hi.
Proof.
  intros H0 H. unfold max_sequence.
  destruct (map sequence (group proj par t)) as [|s ss] eqn:E; [exact H0|].
  destruct (fold_max_spec ss s) as [Hin _]. rewrite <- E in Hin.
  apply in_map_iff in Hin. destruct Hin as [r [<- Hr]].
  apply H. apply filter_In in Hr. tauto.
Qed.




